(** * astroalign-js: asterism matching and robust transform estimation

    A shallow embedding of [astroalign.js] (invariantFeatures, arrangeTriplet,
    generateInvariants, MatchTransform, findTransform, ransac), the
    properties of its specification, and further properties of the module
    read off its code.

    JavaScript numbers are IEEE 754 binary64 values: they are modelled by
    Rocq's primitive floats, whose operations are the IEEE ones (one NaN,
    signed zeros, infinities).  Array indices and lengths are [nat].
    The two libraries the module imports, [static-kdtree] and [nudged], are
    interfaces (type classes) here. *)

From Stdlib Require Import ZArith List Bool Arith Lia Floats Permutation Sorted.
Import ListNotations.

Set Implicit Arguments.

(** ** JavaScript numbers *)

Module JS.

Definition number := float.

Definition add (a b : number) : number := (a + b)%float.
Definition sub (a b : number) : number := (a - b)%float.
Definition div (a b : number) : number := (a / b)%float.

(** [a ** 2]: the square, taken as the IEEE product [a * a] (ECMAScript
    leaves the last bit of [**] to the engine). *)
Definition sq (a : number) : number := (a * a)%float.

(** [Math.sqrt] *)
Definition Math_sqrt (a : number) : number := PrimFloat.sqrt a.

(** [a < b] and [a === b] on numbers: false as soon as one side is NaN;
    [+0 === -0]. *)
Definition lt (a b : number) : bool := (a <? b)%float.
Definition strictEq (a b : number) : bool := (a =? b)%float.

(** [a <= b] *)
Definition le (a b : number) : bool := (a <=? b)%float.

Definition isNaN (a : number) : bool := negb (a =? a)%float.

(** Neither NaN nor an infinity. *)
Definition isFinite (a : number) : bool :=
  (PrimFloat.abs a <? infinity)%float.

Definition is_zero (a : number) : bool := (a =? 0)%float.

(** The number an integer converts to (exact below 2^53). *)
Definition ofZ (z : Z) : number := SF2Prim (binary_normalize prec emax z 0 false).

Definition ofNat (n : nat) : number := ofZ (Z.of_nat n).

(** [Math.floor] of a finite number, as an integer. NaN and the
    infinities, which have no integer floor, are sent to 0. *)
Definition floorZ (a : number) : Z :=
  match Prim2SF a with
  | S754_finite false m e => Z.shiftl (Zpos m) e
  | S754_finite true m e => Z.shiftl (Zneg m) e
  | _ => 0%Z
  end.

(** [Math.max(a, b)]: NaN if either is NaN, and [+0] above [-0]. *)
Definition max2 (a b : number) : number :=
  if isNaN a || isNaN b then nan
  else if lt a b then b
  else if lt b a then a
  else if get_sign a then b else a.

(** [Math.max(...r)]: [-Infinity] for no argument. *)
Definition Math_max (r : list number) : number :=
  fold_left max2 r neg_infinity.

(** [Array.prototype.sort(comparefn)].  ECMAScript requires the sort to be
    stable and, for a consistent comparator, fixes its result; [before x y]
    is [comparefn(x, y) < 0].  The model is the stable insertion sort: each
    element goes in front of the first sorted element it must precede.
    (When the comparator is not consistent, as it can be on NaN, ECMAScript
    leaves the order to the engine.) *)
Section Sort.
Variable A : Type.
Variable before : A -> A -> bool.

Fixpoint insert (x : A) (l : list A) : list A :=
  match l with
  | [] => [x]
  | y :: l' => if before x y then x :: y :: l' else y :: insert x l'
  end.

Definition Array_sort (l : list A) : list A :=
  fold_left (fun acc x => insert x acc) l [].
End Sort.

(** The comparator [(a, b) => a - b]. *)
Definition minusBefore (a b : number) : bool := lt (sub a b) 0%float.

(** An object whose keys are array indices: [Object.entries] and [for-in]
    list integer keys in ascending numeric order, whatever the insertion
    order.  (Keys from 2^32 - 1 on are not array indices in JavaScript;
    no array holds such an index.) *)
Section IntKeyObject.
Variable V : Type.

Definition obj := list (nat * V).

Fixpoint obj_get (o : obj) (k : nat) : option V :=
  match o with
  | [] => None
  | (k', v) :: o' => if Nat.eqb k k' then Some v else obj_get o' k
  end.

Fixpoint obj_set (o : obj) (k : nat) (v : V) : obj :=
  match o with
  | [] => [(k, v)]
  | (k', v') :: o' =>
      if Nat.ltb k k' then (k, v) :: (k', v') :: o'
      else if Nat.eqb k k' then (k, v) :: o'
      else (k', v') :: obj_set o' k v
  end.

Definition Object_entries (o : obj) : list (nat * V) := o.
End IntKeyObject.

End JS.

Import JS.

(** ** Exceptions

    What the module throws, and the [TypeError] the engine raises when a
    property of [undefined] is read (an array read out of range gives
    [undefined]). *)

Inductive side := Source | Target.

Inductive exn :=
| UndefinedRead
    (* TypeError: cannot read properties of undefined *)
| InputTypeNotSupported (s : side)
    (* TypeError("Input type for source not supported.") and its target twin *)
| TooFewReferenceStars (s : side)
    (* Error("Reference stars in source image are less than the minimum
       value (3).") and its target twin *)
| MatchesExhausted.
    (* Error("List of matching triangles exhausted before an acceptable
       transformation was found") *)

Inductive result (A : Type) :=
| Ok (a : A)
| Throw (e : exn).

Arguments Ok {A} a.
Arguments Throw {A} e.

Definition bind {A B} (r : result A) (k : A -> result B) : result B :=
  match r with
  | Ok a => k a
  | Throw e => Throw e
  end.

Notation "x <- c ;; k" := (bind c (fun x => k))
  (at level 61, c at next level, right associativity).
Notation "' pat <- c ;; k" := (bind c (fun x => match x with pat => k end))
  (at level 61, pat pattern, c at next level, right associativity).

(** [arr.map(f)] when [f] may throw: the first exception ends the map. *)
Fixpoint mapM {A B} (f : A -> result B) (l : list A) : result (list B) :=
  match l with
  | [] => Ok []
  | x :: l' => y <- f x ;; ys <- mapM f l' ;; Ok (y :: ys)
  end.

(** [arr[i]] followed by a property read of the element. *)
Definition elem {A} (arr : list A) (i : nat) : result A :=
  match nth_error arr i with
  | Some x => Ok x
  | None => Throw UndefinedRead
  end.

(** ** Data *)

(** A point [[x, y]], and just as well a descriptor [[ratio1, ratio2]]. *)
Definition vec2 := (number * number)%type.
Definition point := vec2.
Definition descriptor := vec2.

(** A triangle [[a, b, c]] of indices into a control point set. *)
Definition triangle := (nat * nat * nat)%type.

(** A row of [matches]: three [[sourceIndex, targetIndex]] pairs. *)
Definition candidate := ((nat * nat) * (nat * nat) * (nat * nat))%type.

(** [row.flat()] contribution of one candidate. *)
Definition pairs_of (c : candidate) : list (nat * nat) :=
  let '(p1, p2, p3) := c in [p1; p2; p3].

(** ** The imported libraries *)

(** [static-kdtree]: [createKDTree(points)] followed by [tree.knn(q, k)]
    (indices of the nearest points, closest first) and by
    [tree.rnn(q, r, visit)] (the indices [visit] is called with, in call
    order). *)
Class KDTree := {
  kd_knn : list vec2 -> vec2 -> nat -> list nat;
  kd_rnn : list vec2 -> vec2 -> number -> list nat
}.

(** [nudged]: [estimate({estimator: "TSR", domain, range})], and the residual
    of one point pair, of which [nudged.analysis.residuals(t, domain, range)]
    is the list, pair by pair. *)
Class Nudged := {
  transform : Type;
  estimate : list point -> list point -> transform;
  residual : transform -> point -> point -> number
}.

Definition residuals `{Nudged} (t : transform) (domain range : list point)
  : list number :=
  map (fun pq => residual t (fst pq) (snd pq)) (combine domain range).

(** ** astroalign.js *)

Definition NUM_NEAREST_NEIGHBORS : nat := 5.
(** 0.8 *)
Definition MIN_MATCHES_FRACTION : number := 0x1.999999999999ap-1%float.
Definition PIXEL_TOL : number := 2%float.

(** The squared distance [(p[0] - q[0]) ** 2 + (p[1] - q[1]) ** 2]. *)
Definition sqDist (p q : point) : number :=
  add (sq (sub (fst p) (fst q))) (sq (sub (snd p) (snd q))).

(** [sides[i]] of a three-element array. *)
Definition at3 (l : list number) (i : nat) : number := nth i l nan.

Definition invariantFeatures (x1 x2 x3 : point) : descriptor :=
  let sides := [sqDist x1 x2; sqDist x2 x3; sqDist x1 x3] in
  let sides := Array_sort minusBefore sides in
  (Math_sqrt (div (at3 sides 2) (at3 sides 1)),
   Math_sqrt (div (at3 sides 1) (at3 sides 0))).

(** [mostCommon(arr)]: the entries [[key, count]] of the counting object,
    sorted by decreasing count. *)
Definition countItems (arr : list nat) : obj nat :=
  fold_left
    (fun count item =>
       obj_set count item
         (match obj_get count item with Some n => n | None => 0 end + 1))
    arr [].

Definition mostCommon (arr : list nat) : list (nat * nat) :=
  Array_sort (fun a b => Nat.ltb (snd b) (snd a))
    (Object_entries (countItems arr)).

(** [parseInt(entries)]: the array is converted to the string
    "k1,c1,k2,c2,..." and the leading integer [k1] is parsed.  [mostCommon]
    is only called on four vertices, so there is a first entry. *)
Definition parseInt_entries (entries : list (nat * nat)) : nat :=
  match entries with
  | (k, _) :: _ => k
  | [] => 0
  end.

(** The Euclidean length [Math.sqrt((p[0] - q[0]) ** 2 + (p[1] - q[1]) ** 2)]. *)
Definition sideLength (p q : point) : number := Math_sqrt (sqDist p q).

(** [arrangeTriplet] from [sideInd] on: the sides are sorted by length and
    each vertex is found as the index two sides have in common. *)
Definition orderVertices (sideLengths : list number) (ind1 ind2 ind3 : nat)
  : triangle :=
  let sideInd := [[ind1; ind2]; [ind2; ind3]; [ind3; ind1]] in
  let sortedIndices :=
    map snd
      (Array_sort (fun a b => minusBefore (fst a) (fst b))
         (combine sideLengths [0; 1; 2])) in
  let l1Ind := nth 0 sortedIndices 0 in
  let l2Ind := nth 1 sortedIndices 0 in
  let l3Ind := nth 2 sortedIndices 0 in
  let sideOf i := nth i sideInd [] in
  let a := mostCommon (sideOf l1Ind ++ sideOf l2Ind) in
  let b := mostCommon (sideOf l2Ind ++ sideOf l3Ind) in
  let c := mostCommon (sideOf l3Ind ++ sideOf l1Ind) in
  (parseInt_entries a, parseInt_entries b, parseInt_entries c).

Definition arrangeTriplet (sources : list point) (vertexIndices : triangle)
  : result triangle :=
  let '(ind1, ind2, ind3) := vertexIndices in
  x1 <- elem sources ind1 ;;
  x2 <- elem sources ind2 ;;
  x3 <- elem sources ind3 ;;
  let sideLengths := [sideLength x1 x2; sideLength x2 x3; sideLength x3 x1] in
  Ok (orderVertices sideLengths ind1 ind2 ind3).

(** The triple loop over [i < j < k] positions of [indx]. *)
Fixpoint pairsFrom (x : nat) (l : list nat) : list triangle :=
  match l with
  | [] => []
  | y :: l' => map (fun z => (x, y, z)) l' ++ pairsFrom x l'
  end.

Fixpoint combinations3 (indx : list nat) : list triangle :=
  match indx with
  | [] => []
  | x :: l => pairsFrom x l ++ combinations3 l
  end.

(** [item[0] === elem[0] && item[1] === elem[1]] *)
Definition sameDescriptor (item elem : descriptor) : bool :=
  strictEq (fst item) (fst elem) && strictEq (snd item) (snd elem).

(** The positions [pos] kept by the duplicate removal: those with no equal
    descriptor in [inv.slice(pos + 1)]. *)
Fixpoint uniqIndFrom (pos : nat) (inv : list descriptor) : list nat :=
  match inv with
  | [] => []
  | elem :: rest =>
      if existsb (fun item => sameDescriptor item elem) rest
      then uniqIndFrom (S pos) rest
      else pos :: uniqIndFrom (S pos) rest
  end.

Definition uniqInd (inv : list descriptor) : list nat := uniqIndFrom 0 inv.

(** [uniqInd.map((i) => arr[i])]; the positions are positions of [arr]. *)
Definition selectAt {A} (arr : list A) (idx : list nat) : list A :=
  flat_map (fun i => match nth_error arr i with Some x => [x] | None => [] end)
    idx.

Section Invariants.
Context `{KDTree}.

(** The triangles one anchor point [asrc] contributes, arranged. *)
Definition asterismsOf (sources : list point) (asrc : point)
  : result (list triangle) :=
  let knn := Nat.min (length sources) NUM_NEAREST_NEIGHBORS in
  let indx := kd_knn sources asrc knn in
  mapM (arrangeTriplet sources) (combinations3 indx).

Definition featuresOf (sources : list point) (triplet : triangle)
  : result descriptor :=
  let '(a, b, c) := triplet in
  x1 <- elem sources a ;;
  x2 <- elem sources b ;;
  x3 <- elem sources c ;;
  Ok (invariantFeatures x1 x2 x3).

(** [triangVrtx] and [inv] before the duplicate removal. *)
Definition allInvariants (sources : list point)
  : result (list descriptor * list triangle) :=
  perAnchor <- mapM (fun asrc =>
                       tri <- asterismsOf sources asrc ;;
                       inv <- mapM (featuresOf sources) tri ;;
                       Ok (inv, tri)) sources ;;
  Ok (concat (map fst perAnchor), concat (map snd perAnchor)).

Definition generateInvariants (sources : list point)
  : result (list descriptor * list triangle) :=
  '(inv, triangVrtx) <- allInvariants sources ;;
  let uniq := uniqInd inv in
  Ok (selectAt inv uniq, selectAt triangVrtx uniq).
End Invariants.

(** An array with the positions of its elements. *)
Definition indexed {A} (l : list A) : list (nat * A) :=
  combine (seq 0 (length l)) l.

(** An object with non-numeric string keys lists them in insertion order;
    assigning to a key it already has keeps the key's place. *)
Section StringKeyObject.
Variables K V : Type.
Variable keyEq : K -> K -> bool.

Fixpoint sobj_set (o : list (K * V)) (k : K) (v : V) : list (K * V) :=
  match o with
  | [] => [(k, v)]
  | (k', v') :: o' =>
      if keyEq k k' then (k, v) :: o' else (k', v') :: sobj_set o' k v
  end.

Definition Object_fromEntries (entries : list (K * V)) : list (K * V) :=
  fold_left (fun o kv => sobj_set o (fst kv) (snd kv)) entries [].

Definition Object_values (o : list (K * V)) : list V := map snd o.
End StringKeyObject.

(** [arr.slice(a, b)] for [0 <= a <= b]. *)
Definition slice {A} (arr : list A) (a b : nat) : list A :=
  firstn (b - a) (skipn a arr).

(** *** MatchTransform *)

(** What [ransac] expects of its [model] argument. *)
Record Model (D T : Type) := {
  fit : list D -> result T;
  getError : list D -> T -> result (list number)
}.

Section MatchTransform.
Context `{Nudged}.
Variables source target : list point.

Definition sourcePointsOf (ps : list (nat * nat)) : result (list point) :=
  mapM (fun st => elem source (fst st)) ps.

Definition targetPointsOf (ps : list (nat * nat)) : result (list point) :=
  mapM (fun st => elem target (snd st)) ps.

Definition MatchTransform_fit (data : list candidate) : result transform :=
  sourcePoints <- sourcePointsOf (flat_map pairs_of data) ;;
  targetPoints <- targetPointsOf (flat_map pairs_of data) ;;
  Ok (estimate sourcePoints targetPoints).

Definition MatchTransform_getError (data : list candidate)
  (approxT : transform) : result (list number) :=
  mapM (fun triangle =>
          sourcePoints <- sourcePointsOf (pairs_of triangle) ;;
          targetPoints <- targetPointsOf (pairs_of triangle) ;;
          Ok (Math_max (residuals approxT sourcePoints targetPoints)))
       data.

Definition MatchTransform : Model candidate transform :=
  {| fit := MatchTransform_fit; getError := MatchTransform_getError |}.
End MatchTransform.

(** *** ransac *)

(** The random source: [rand i] stands for the [Math.random()] drawn when the
    shuffle is at position [i]; [Math.floor(Math.random() * (i + 1))] is one
    of [0 .. i]. *)
Definition randomIndex (rand : nat -> nat) (i : nat) : nat :=
  rand i mod (S i).

Fixpoint setAt (l : list nat) (i : nat) (v : nat) : list nat :=
  match l, i with
  | [], _ => []
  | _ :: l', 0 => v :: l'
  | x :: l', S i' => x :: setAt l' i' v
  end.

(** [[arr[i], arr[j]] = [arr[j], arr[i]]] *)
Definition swap (arr : list nat) (i j : nat) : list nat :=
  let vi := nth i arr 0 in
  let vj := nth j arr 0 in
  setAt (setAt arr i vj) j vi.

(** The loop [for (i = n - 1; i > 0; i--)], [i] running over [S i'] here. *)
Fixpoint shuffleFrom (rand : nat -> nat) (i : nat) (arr : list nat)
  : list nat :=
  match i with
  | 0 => arr
  | S i' => shuffleFrom rand i' (swap arr i (randomIndex rand i))
  end.

Definition shuffle (rand : nat -> nat) (arr : list nat) : list nat :=
  shuffleFrom rand (length arr - 1) arr.

(** [idxs.map((i) => data[i])]; the indices are indices of [data]. *)
Definition pick {D} (data : list D) (idxs : list nat) : result (list D) :=
  mapM (elem data) idxs.

(** [idxs.filter((_, i) => testErr[i] < thresh)]; a missing [testErr[i]] is
    [undefined], which is below nothing. *)
Definition belowAt (testErr : list number) (thresh : number) (i : nat) : bool :=
  match nth_error testErr i with
  | Some e => lt e thresh
  | None => false
  end.

Fixpoint filterByPos (keep : nat -> bool) (pos : nat) (idxs : list nat)
  : list nat :=
  match idxs with
  | [] => []
  | x :: idxs' =>
      if keep pos then x :: filterByPos keep (S pos) idxs'
      else filterByPos keep (S pos) idxs'
  end.

Section Ransac.
Variables D T : Type.
Variable data : list D.
Variable model : Model D T.
Variable thresh : number.
Variable minMatches : nat.

(** One pass of the search loop, up to the test of its [if]: the sample
    [maybeInliers] and the supporters [alsoInliers] of its model. *)
Definition trial (allIdxs : list nat) (iterI : nat)
  : result (list D * list D) :=
  let maybeIdxs := slice allIdxs iterI (iterI + 1) in
  let testIdxs := slice allIdxs 0 iterI ++ skipn (iterI + 1) allIdxs in
  maybeInliers <- pick data maybeIdxs ;;
  testPoints <- pick data testIdxs ;;
  maybeModel <- fit model maybeInliers ;;
  testErr <- getError model testPoints maybeModel ;;
  let alsoIdxs := filterByPos (belowAt testErr thresh) 0 testIdxs in
  alsoInliers <- pick data alsoIdxs ;;
  Ok (maybeInliers, alsoInliers).

(** The search loop over the remaining values of [iterI]; [None] is
    [goodFit === null] at its end. *)
Fixpoint search (allIdxs : list nat) (iters : list nat)
  : result (option T) :=
  match iters with
  | [] => Ok None
  | iterI :: iters' =>
      '(maybeInliers, alsoInliers) <- trial allIdxs iterI ;;
      if minMatches <=? length alsoInliers then
        goodFit <- fit model (maybeInliers ++ alsoInliers) ;;
        Ok (Some goodFit)
      else search allIdxs iters'
  end.

(** One pass of the refinement loop. *)
Definition refine (betterFit : T) : result (T * list nat) :=
  testErr <- getError model data betterFit ;;
  let betterInlierIdxs :=
    filter (belowAt testErr thresh) (seq 0 (length data)) in
  betterData <- pick data betterInlierIdxs ;;
  betterFit' <- fit model betterData ;;
  Ok (betterFit', betterInlierIdxs).

Definition ransac (rand : nat -> nat) : result (T * list nat) :=
  let nData := length data in
  let allIdxs := shuffle rand (seq 0 nData) in
  goodFit <- search allIdxs (seq 0 nData) ;;
  match goodFit with
  | None => Throw MatchesExhausted
  | Some goodFit =>
      '(betterFit, _) <- refine goodFit ;;
      '(betterFit, _) <- refine betterFit ;;
      '(betterFit, betterInlierIdxs) <- refine betterFit ;;
      Ok (betterFit, betterInlierIdxs)
  end.
End Ransac.

(** *** findTransform *)

(** The two shapes of [source] and [target]: an array of [[x, y]] rows, or
    anything else (an image). *)
Inductive input :=
| CoordinateList (rows : list point)
| Image.

(** The [try] block of one input.  A non-empty coordinate list is cut to
    [maxControlPoints] rows ([maxControlPoints] is a count).  Everything else, the empty list included
    ([rows[0]] is [undefined]), takes the image branch, whose call of
    [_findSources], a name the module does not define, raises a
    ReferenceError that the [catch] turns into the TypeError. *)
Definition controlPoints (s : side) (inp : input) (maxControlPoints : nat)
  : result (list point) :=
  match inp with
  | CoordinateList (row :: rows) => Ok (slice (row :: rows) 0 maxControlPoints)
  | _ => Throw (InputTypeNotSupported s)
  end.

(** 0.1 *)
Definition matchRadius : number := 0x1.999999999999ap-4%float.

Definition pairEq (p q : nat * nat) : bool :=
  Nat.eqb (fst p) (fst q) && Nat.eqb (snd p) (snd q).

(** [Math.max(1, Math.min(10, Math.floor(nInvariants * MIN_MATCHES_FRACTION)))] *)
Definition minMatchesOf (nInvariants : nat) : nat :=
  Z.to_nat
    (Z.max 1 (Z.min 10 (floorZ (ofNat nInvariants * MIN_MATCHES_FRACTION)%float))).

Section FindTransform.
Context `{KDTree} `{Nudged}.

(** [matches]: the triangle correspondences found by the radius queries. *)
Definition matchTriangles (sourceControlP targetControlP : list point)
  : result (list candidate) :=
  '(sourceInvariants, sourceAsterisms) <- generateInvariants sourceControlP ;;
  '(targetInvariants, targetAsterisms) <- generateInvariants targetControlP ;;
  let matchesList :=
    map (fun sourceInv => kd_rnn targetInvariants sourceInv matchRadius)
      sourceInvariants in
  perSource <-
    mapM (fun it1 =>
            let '(i, (a, b, c)) := it1 in
            t2List <- elem matchesList i ;;
            mapM (fun t2Idx =>
                    '(a', b', c') <- elem targetAsterisms t2Idx ;;
                    Ok ((a, a'), (b, b'), (c, c')))
                 t2List)
         (indexed sourceAsterisms) ;;
  Ok (concat perSource).

(** The single-point reprojection error of the pair [(sI, tI)]. *)
Definition pairError (sourceControlP targetControlP : list point)
  (bestT : transform) (st : nat * nat) : result number :=
  sVertex <- elem sourceControlP (fst st) ;;
  tVertex <- elem targetControlP (snd st) ;;
  Ok (nth 0 (residuals bestT [sVertex] [tVertex]) nan).

(** The loop that fills [inlDict]. *)
Fixpoint fillInlDict (sourceControlP targetControlP : list point)
  (bestT : transform) (inlUnique : list (nat * nat))
  (inlDict : obj (nat * number)) : result (obj (nat * number)) :=
  match inlUnique with
  | [] => Ok inlDict
  | (sI, tI) :: rest =>
      error <- pairError sourceControlP targetControlP bestT (sI, tI) ;;
      let inlDict' :=
        match obj_get inlDict sI with
        | None => obj_set inlDict sI (tI, error)
        | Some (_, e) =>
            if lt error e then obj_set inlDict sI (tI, error) else inlDict
        end in
      fillInlDict sourceControlP targetControlP bestT rest inlDict'
  end.

(** From [triangleInliers] to [inlArrUnique]. *)
Definition resolveInliers (sourceControlP targetControlP : list point)
  (bestT : transform) (triangleInliers : list (nat * nat))
  : result (list (nat * nat)) :=
  let inlUniqueDict :=
    Object_fromEntries pairEq (map (fun m => (m, m)) triangleInliers) in
  let inlUnique := Object_values inlUniqueDict in
  inlDict <- fillInlDict sourceControlP targetControlP bestT inlUnique [] ;;
  Ok (map (fun kv => (fst kv, fst (snd kv))) (Object_entries inlDict)).

(** [findTransform] once the control points are known.  (The two trees
    built over the invariants are used for the radius queries of
    [matchTriangles] only.) *)
Definition alignControlPoints (sourceControlP targetControlP : list point)
  (rand : nat -> nat)
  : result (transform * (list point * list point)) :=
  if length sourceControlP <? 3 then Throw (TooFewReferenceStars Source)
  else if length targetControlP <? 3 then Throw (TooFewReferenceStars Target)
  else
    matches <- matchTriangles sourceControlP targetControlP ;;
    let invModel := MatchTransform sourceControlP targetControlP in
    let nInvariants := length matches in
    let minMatches := minMatchesOf nInvariants in
    '(bestT, inlierInd) <-
      (if (Nat.eqb (length sourceControlP) 3
           || Nat.eqb (length targetControlP) 3)
          && Nat.eqb (length matches) 1
       then
         bestT <- fit invModel matches ;;
         Ok (bestT, seq 0 (length matches))
       else ransac matches invModel PIXEL_TOL minMatches rand) ;;
    inliers <- pick matches inlierInd ;;
    let triangleInliers := flat_map pairs_of inliers in
    inlArrUnique <-
      resolveInliers sourceControlP targetControlP bestT triangleInliers ;;
    Ok (bestT,
        (selectAt sourceControlP (map fst inlArrUnique),
         selectAt targetControlP (map snd inlArrUnique))).

Definition findTransform (source target : input) (maxControlPoints : nat)
  (rand : nat -> nat)
  : result (transform * (list point * list point)) :=
  sourceControlP <- controlPoints Source source maxControlPoints ;;
  targetControlP <- controlPoints Target target maxControlPoints ;;
  alignControlPoints sourceControlP targetControlP rand.
End FindTransform.

(** ** Stand-ins for the imported libraries *)

(** A reference [static-kdtree]: exhaustive search. Points at the same
    distance come in the order of their indices and [k] indices are always
    given when there are as many points; the library's own order among such
    points is not modelled. The stand-in serves the examples only: the
    properties are stated for every [KDTree]. *)
Definition bruteKnn (pts : list vec2) (q : vec2) (k : nat) : list nat :=
  firstn k
    (map fst
       (Array_sort (fun a b => minusBefore (sqDist (snd a) q) (sqDist (snd b) q))
          (indexed pts))).

Definition bruteRnn (pts : list vec2) (q : vec2) (r : number) : list nat :=
  map fst (filter (fun ip => le (sqDist (snd ip) q) (sq r)) (indexed pts)).

Definition bruteKDTree : KDTree :=
  {| kd_knn := bruteKnn; kd_rnn := bruteRnn |}.

(** A stand-in for [nudged] that can be run: the transform is the pair of
    centroids' difference (a translation), the residual the squared-distance
    root after translation. *)
Definition sumVec (l : list point) : point :=
  fold_left (fun acc p => (add (fst acc) (fst p), add (snd acc) (snd p))) l
    (0%float, 0%float).

Definition centroid (l : list point) : point :=
  let s := sumVec l in
  let n := ofNat (length l) in
  (div (fst s) n, div (snd s) n).

Definition translationNudged : Nudged :=
  {| transform := point;
     estimate := fun domain range =>
       let cd := centroid domain in
       let cr := centroid range in
       (sub (fst cr) (fst cd), sub (snd cr) (snd cd));
     residual := fun t p q =>
       Math_sqrt (sqDist (add (fst p) (fst t), add (snd p) (snd t)) q) |}.

(** ** Vocabulary of the properties *)

(** *** Binary64 numbers, as [SpecFloat] describes them *)

Module Binary64.

Local Open Scope Z_scope.

(** The order [SFcompare] decides is lexicographic on exponent and
    mantissa for two finite numbers of the same sign. *)
Definition lexCompare (e1 : Z) (m1 : positive) (e2 : Z) (m2 : positive)
  : comparison :=
  match Z.compare e1 e2 with
  | Lt => Lt
  | Gt => Gt
  | Eq => Pos.compare_cont Eq m1 m2
  end.

(** The sign carried by a number, NaN carrying any. *)
Definition signIs (s : bool) (x : spec_float) : Prop :=
  match x with
  | S754_zero s' | S754_infinity s' | S754_finite s' _ _ => s' = s
  | S754_nan => True
  end.

(** A number that is not negative: [+0], positive, [+Infinity], or NaN. *)
Definition nonneg (a : number) : Prop := signIs false (Prim2SF a).

Abbreviation digits m := (Zdigits2 m).


(** The exponents binary64 uses. *)
Definition fexp64 (e : Z) : Z := Z.max (e - 53) (-1074).

(** The mantissa and exponent after the right shift of [shr_fexp]. *)
Definition shrZ (m e : Z) : Z * Z :=
  let n := fexp64 (digits m + e) - e in
  if 0 <? n then (m / 2 ^ n, e + n) else (m, e).

(** [m * 2^e] is at least one. *)
Definition atLeastOne (m e : Z) : Prop := 1 <= m /\ 2 ^ (- e) <= m.

(** The number 1. *)
Definition SFone : spec_float := S754_finite false 4503599627370496 (-52).


(** A positive mantissa at an exponent of the format rounds to a number
    that is neither zero nor NaN and has the sign asked for. *)
Definition signedNonzero (s : bool) (x : spec_float) : Prop :=
  match x with
  | S754_finite s' _ _ | S754_infinity s' => s' = s
  | _ => False
  end.

(** The mantissa and the exponent of a valid finite number. *)
Definition canonical (m : positive) (e : Z) : Prop :=
  fexp64 (Z.pos (digits2_pos m) + e) = e.

(** Below zero. *)
Definition isNeg (x : spec_float) : bool :=
  match x with
  | S754_finite true _ _ | S754_infinity true => true
  | _ => false
  end.

(** Equality of numbers, bit for bit, is decidable. *)
Definition number_eq_dec (a b : number) : {a = b} + {a <> b}.
Proof.
  destruct (PrimFloat.Leibniz.eqb a b) eqn:E.
  - left; apply FloatAxioms.Leibniz.eqb_spec; exact E.
  - right; intros H; apply FloatAxioms.Leibniz.eqb_spec in H; congruence.
Defined.

Local Close Scope Z_scope.

End Binary64.

Import Binary64.

(** *** Specification predicates *)

(** What [static-kdtree] promises of [knn(q, k)]: at most [k] indices. *)
Definition knn_bounded (K : KDTree) : Prop :=
  forall pts q k, length (kd_knn pts q k) <= k.

(** What it promises as well: indices of the points it was built on. *)
Definition knn_in_range (K : KDTree) : Prop :=
  forall pts q k i, In i (kd_knn pts q k) -> i < length pts.

Section RansacSpec.
Variables D T : Type.
Variable data : list D.
Variable model : Model D T.
Variable thresh : number.
Variable minMatches : nat.

(** The three refinement passes that follow an accepted hypothesis. *)
Definition refine3 (goodFit : T) : result (T * list nat) :=
  '(betterFit, _) <- refine data model thresh goodFit ;;
  '(betterFit, _) <- refine data model thresh betterFit ;;
  '(betterFit, betterInlierIdxs) <- refine data model thresh betterFit ;;
  Ok (betterFit, betterInlierIdxs).

(** The hypothesis sampled at [iterI] is evaluated and has fewer than
    [minMatches] supporters. *)
Definition rejectedAt (allIdxs : list nat) (iterI : nat) : Prop :=
  exists maybeInliers alsoInliers,
    trial data model thresh allIdxs iterI = Ok (maybeInliers, alsoInliers)
    /\ length alsoInliers < minMatches.

End RansacSpec.

(** The exhaustion error is not what came out. *)
Definition notExhausted {A} (r : result A) : Prop := r <> Throw MatchesExhausted.


Section ShortcutSpec.
Context `{Nudged}.

(** What [findTransform] returns on the shortcut path: the fit of the
    single candidate, all of it inlying. *)
Definition directFit (sourceControlP targetControlP : list point)
  (m : candidate) : result (transform * (list point * list point)) :=
  bestT <- MatchTransform_fit sourceControlP targetControlP [m] ;;
  inlArrUnique <-
    resolveInliers sourceControlP targetControlP bestT (pairs_of m) ;;
  Ok (bestT,
      (selectAt sourceControlP (map fst inlArrUnique),
       selectAt targetControlP (map snd inlArrUnique))).

End ShortcutSpec.

Section ObjSpec.
Variable V : Type.

(** The keys of an integer-keyed object are kept in ascending order. *)
Definition keysSorted (o : obj V) : Prop :=
  StronglySorted Nat.lt (map fst o).

End ObjSpec.

Section ResolverSpec.
Context `{Nudged}.
Variables sourceControlP targetControlP : list point.
Variable bestT : transform.

(** The indices of a pair are indices of the control points. *)
Definition inRange (st : nat * nat) : Prop :=
  fst st < length sourceControlP /\ snd st < length targetControlP.

(** What holds of [inlDict] once the pairs [done] went through the loop:
    every entry is one of these pairs, no pair of the same source index
    has a smaller error, and every source index met has an entry. *)
Record dictInv (done : list (nat * nat)) (d : obj (nat * number)) : Prop := {
  inv_sorted : keysSorted d;
  inv_best : forall sI tI e,
    obj_get d sI = Some (tI, e) ->
    In (sI, tI) done /\ pairError sourceControlP targetControlP bestT (sI, tI) = Ok e
    /\ forall tI' e', In (sI, tI') done -> pairError sourceControlP targetControlP bestT (sI, tI') = Ok e' ->
                      lt e' e = false;
  inv_cover : forall sI tI, In (sI, tI) done -> obj_get d sI <> None
}.

End ResolverSpec.

(** A descriptor with a NaN component. *)
Definition hasNaN (d : descriptor) : bool := isNaN (fst d) || isNaN (snd d).


(** The descriptors kept by the duplicate removal, without the detour by
    their positions. *)
Fixpoint keepLast (inv : list descriptor) : list descriptor :=
  match inv with
  | [] => []
  | elem :: rest =>
      if existsb (fun item => sameDescriptor item elem) rest
      then keepLast rest
      else elem :: keepLast rest
  end.

(** Equality of descriptors, bit for bit, is decidable. *)
Definition descriptor_eq_dec (d d' : descriptor) : {d = d'} + {d <> d'}.
Proof. decide equality; apply number_eq_dec. Defined.

(** Both components of a descriptor are square roots of quotients of sums
    of squares: never negative, never [-0]. *)
Definition regular (d : descriptor) : Prop :=
  nonneg (fst d) /\ nonneg (snd d).

(** Two lengths the comparator tells apart. *)
Definition distinctLengths (a b : number) : bool := lt a b || lt b a.


(** *** Predicates of the further properties *)

(** A point whose two coordinates are finite numbers. *)
Definition finitePoint (p : point) : bool :=
  isFinite (fst p) && isFinite (snd p).

(** What [static-kdtree] promises of [knn] as well: no index twice. *)
Definition knn_distinct (K : KDTree) : Prop :=
  forall pts q k, NoDup (kd_knn pts q k).

(** What it promises of [rnn]: the callback is given indices of the
    points the tree was built on. *)
Definition rnn_in_range (K : KDTree) : Prop :=
  forall pts q r i, In i (kd_rnn pts q r) -> i < length pts.

(** The three index pairs of a candidate name control points. *)
Definition candidateInRange (source target : list point) (c : candidate)
  : Prop :=
  Forall (inRange source target) (pairs_of c).

(** The order of the entries of [mostCommon]: by decreasing count, and by
    ascending key among equal counts. *)
Definition moreCommon (e e' : nat * nat) : Prop :=
  snd e' < snd e \/ (snd e = snd e' /\ fst e < fst e').

(** The rows of an input that is taken as a coordinate list: a list with a
    first row. *)
Definition coordinateRows (inp : input) : option (list point) :=
  match inp with
  | CoordinateList (row :: rows) => Some (row :: rows)
  | _ => None
  end.

(** A computation that, when it throws, throws an exception of [P]. *)
Definition throwsOnly {A} (P : exn -> Prop) (r : result A) : Prop :=
  match r with
  | Ok _ => True
  | Throw e => P e
  end.

(** The exceptions that can leave [findTransform] once both inputs are
    taken as coordinate lists and hold three rows. *)
Definition matchingError (e : exn) : Prop :=
  e = UndefinedRead \/ e = MatchesExhausted.

Section SupportSpec.
Variables D T : Type.
Variable data : list D.
Variable model : Model D T.
Variable thresh : number.
Variable minMatches : nat.
Variable err1 : T -> D -> number.

(** [getError] measures the candidates one by one, with [err1]. *)
Definition pointwise : Prop :=
  forall l t, incl l data -> getError model l t = Ok (map (err1 t) l).

(** The candidate at index [j] has an error below the threshold under
    [t]. *)
Definition supports (t : T) (j : nat) : bool :=
  match nth_error data j with
  | Some d => lt (err1 t d) thresh
  | None => false
  end.

(** The candidate at index [s], taken as the sample, has at least
    [minMatches] supporters among the other candidates. *)
Definition acceptable (s : nat) : Prop :=
  exists d t,
    nth_error data s = Some d
    /\ fit model [d] = Ok t
    /\ minMatches
       <= length (filter (fun j => negb (Nat.eqb j s) && supports t j)
                    (seq 0 (length data))).

End SupportSpec.

Section RefineSpec.
Variables D T : Type.
Variable data : list D.
Variable model : Model D T.
Variable thresh : number.

(** One pass of the refinement loop, by what it reads and what it leaves:
    [idxs] are the indices of the candidates whose error under the
    transform [prev] is below the threshold, in ascending order, and [next]
    is the fit of the candidates at these indices. *)
Definition refinedFrom (prev : T) (idxs : list nat) (next : T) : Prop :=
  exists testErr betterData,
    getError model data prev = Ok testErr
    /\ StronglySorted Nat.lt idxs
    /\ (forall i, In i idxs <->
                  i < length data /\ belowAt testErr thresh i = true)
    /\ pick data idxs = Ok betterData
    /\ fit model betterData = Ok next.

End RefineSpec.

Section CandidateErrorSpec.
Context `{Nudged}.
Variables source target : list point.

(** The error [getError] gives a candidate: the largest residual of its
    three vertex pairs. *)
Definition candidateError (approxT : transform) (c : candidate) : number :=
  match sourcePointsOf source (pairs_of c),
        targetPointsOf target (pairs_of c) with
  | Ok sourcePoints, Ok targetPoints =>
      Math_max (residuals approxT sourcePoints targetPoints)
  | _, _ => nan
  end.

End CandidateErrorSpec.


(** *** Inputs the properties are tried on *)

(** The point set of the module's tests ([astroalign.test.js]), each
    decimal standing for the nearest binary64 number, as in JavaScript. *)
Set Warnings "-inexact-float".
Definition testSources : list point :=
  [(0.01, 0.02); (2.01, 0.13); (0.02, 1.05); (2.03, 1.02); (-1.05, -1.01);
   (1.02, -1.02); (-1.07, 0.04)]%float.
Set Warnings "inexact-float".

(** [triangVrtxSolution] of the same tests. *)
Definition triangVrtxSolution : list triangle :=
  [(2, 3, 6); (2, 1, 6); (0, 3, 6); (0, 1, 6); (1, 6, 3); (3, 2, 1);
   (2, 3, 0); (3, 5, 2); (0, 1, 2); (1, 2, 5); (5, 1, 0); (0, 3, 5);
   (5, 4, 1); (1, 5, 3); (5, 3, 4); (0, 1, 4); (1, 0, 3); (0, 3, 4);
   (1, 4, 3); (6, 0, 4); (6, 2, 4); (4, 5, 6); (0, 6, 2); (0, 5, 6);
   (2, 5, 6); (0, 4, 2); (0, 4, 5); (5, 2, 4); (0, 5, 2)].


(** Two triangle correspondences between a point set and itself, both exact
    under the translation model: each supports the other. *)
Definition fourPoints : list point := [(0, 0); (4, 0); (0, 3); (9, 9)]%float.

Definition selfMatch (t : triangle) : candidate :=
  let '(a, b, c) := t in ((a, a), (b, b), (c, c)).

Definition twoMatches : list candidate :=
  [selfMatch (0, 1, 2); selfMatch (1, 2, 3)].

Definition selfModel : Model candidate point :=
  @MatchTransform translationNudged fourPoints fourPoints.

(** Two sets of four points that share one triangle, the 3-4-5 triangle of
    their first three points, and no other triangle shape. *)
Definition srcFour : list point := [(0, 0); (4, 0); (0, 3); (100, 0)]%float.
Definition tgtFour : list point := [(0, 0); (4, 0); (0, 3); (0, 50)]%float.

(** An isosceles triangle: the sides from the apex have equal length. *)
Definition isosceles : list point := [(0, 0); (2, 0); (1, 5)]%float.


(** ** Properties *)

Unset Implicit Arguments.

(** *** Comparison of numbers *)

Module Float64.

Lemma lexCompare_Lt e1 m1 e2 m2 :
  lexCompare e1 m1 e2 m2 = Lt <-> (e1 < e2 \/ (e1 = e2 /\ Zpos m1 < Zpos m2))%Z.
Proof.
  unfold lexCompare.
  destruct (Z.compare_spec e1 e2) as [E|E|E].
  - fold (Pos.compare m1 m2); rewrite Pos.compare_lt_iff; lia.
  - split; [auto | reflexivity].
  - split; [discriminate | lia].
Qed.

Lemma lexCompare_Gt e1 m1 e2 m2 :
  lexCompare e1 m1 e2 m2 = Gt <-> (e2 < e1 \/ (e1 = e2 /\ Zpos m2 < Zpos m1))%Z.
Proof.
  unfold lexCompare.
  destruct (Z.compare_spec e1 e2) as [E|E|E].
  - fold (Pos.compare m1 m2); rewrite Pos.compare_gt_iff; lia.
  - split; [discriminate | lia].
  - split; [auto | reflexivity].
Qed.

Lemma lexCompare_Eq e1 m1 e2 m2 :
  lexCompare e1 m1 e2 m2 = Eq <-> (e1 = e2 /\ m1 = m2).
Proof.
  unfold lexCompare.
  destruct (Z.compare_spec e1 e2) as [E|E|E].
  - fold (Pos.compare m1 m2); rewrite Pos.compare_eq_iff; tauto.
  - split; [discriminate | lia].
  - split; [discriminate | lia].
Qed.

Lemma SFcompare_finite s1 m1 e1 s2 m2 e2 :
  SFcompare (S754_finite s1 m1 e1) (S754_finite s2 m2 e2)
  = Some match s1, s2 with
         | true, false => Lt
         | false, true => Gt
         | false, false => lexCompare e1 m1 e2 m2
         | true, true => CompOpp (lexCompare e1 m1 e2 m2)
         end.
Proof.
  unfold lexCompare; simpl.
  destruct s1, s2; try reflexivity.
  destruct (Z.compare e1 e2); reflexivity.
Qed.

Lemma CompOpp_Lt c : CompOpp c = Lt <-> c = Gt.
Proof. destruct c; simpl; split; congruence. Qed.

Lemma SFltb_irrefl x : SFltb x x = false.
Proof.
  unfold SFltb.
  destruct x as [s|s| |s m e]; try reflexivity;
    try (destruct s; reflexivity).
  rewrite SFcompare_finite.
  assert (E : lexCompare e m e m = Eq) by (apply lexCompare_Eq; auto).
  rewrite E; destruct s; reflexivity.
Qed.

Ltac finite_cases :=
  repeat match goal with
    | H : context [SFcompare (S754_finite _ _ _) (S754_finite _ _ _)] |- _ =>
        rewrite SFcompare_finite in H
    | |- context [SFcompare (S754_finite _ _ _) (S754_finite _ _ _)] =>
        rewrite SFcompare_finite
    end.

Lemma SFltb_trans x y z :
  SFltb x y = true -> SFltb y z = true -> SFltb x z = true.
Proof.
  unfold SFltb.
  destruct x as [sx|sx| |sx mx ex], y as [sy|sy| |sy my ey],
           z as [sz|sz| |sz mz ez];
    finite_cases;
    try (destruct sx); try (destruct sy); try (destruct sz);
    simpl; try congruence; intros Hxy Hyz.
  - destruct (lexCompare ex mx ey my) eqn:E1; try discriminate.
    destruct (lexCompare ey my ez mz) eqn:E2; try discriminate.
    assert (E3 : lexCompare ex mx ez mz = Gt).
    { apply lexCompare_Gt; apply lexCompare_Gt in E1, E2; lia. }
    rewrite E3; reflexivity.
  - destruct (lexCompare ex mx ey my) eqn:E1; try discriminate.
    destruct (lexCompare ey my ez mz) eqn:E2; try discriminate.
    assert (E3 : lexCompare ex mx ez mz = Lt).
    { apply lexCompare_Lt; apply lexCompare_Lt in E1, E2; lia. }
    rewrite E3; reflexivity.
Qed.

Lemma lt_irrefl (a : number) : lt a a = false.
Proof. unfold lt; rewrite ltb_spec; apply SFltb_irrefl. Qed.

Lemma lt_trans (a b c : number) :
  lt a b = true -> lt b c = true -> lt a c = true.
Proof. unfold lt; rewrite !ltb_spec; apply SFltb_trans. Qed.

Lemma lt_asym (a b : number) : lt a b = true -> lt b a = false.
Proof.
  intros H; destruct (lt b a) eqn:E; [|reflexivity].
  rewrite <- (lt_irrefl a); symmetry; apply (lt_trans a b a); assumption.
Qed.

Lemma binary_round_aux_sign s m e l :
  signIs s (binary_round_aux prec emax s m e l).
Proof.
  unfold binary_round_aux.
  destruct (shr_fexp prec emax m e l) as [mrs' e'].
  destruct (shr_fexp prec emax _ e' loc_Exact) as [mrs'' e''].
  destruct (shr_m mrs''); simpl; auto.
  match goal with |- context [if ?b then _ else _] => destruct b end;
    simpl; auto.
Qed.

Lemma binary_round_sign s m e : signIs s (binary_round prec emax s m e).
Proof.
  unfold binary_round.
  destruct (shl_align m e _) as [mz ez]; apply binary_round_aux_sign.
Qed.

Lemma SFmul_self_sign x : signIs false (SFmul prec emax x x).
Proof.
  destruct x as [s|s| |s m e]; simpl; auto; try (destruct s; reflexivity).
  replace (xorb s s) with false by (destruct s; reflexivity).
  apply binary_round_aux_sign.
Qed.

Lemma SFadd_sign x y :
  signIs false x -> signIs false y -> signIs false (SFadd prec emax x y).
Proof.
  destruct x as [sx|sx| |sx mx ex], y as [sy|sy| |sy my ey]; simpl;
    intros Hx Hy; subst; simpl; auto.
  destruct (shl_align mx ex (Z.min ex ey)) as [mx' ex'].
  destruct (shl_align my ey (Z.min ex ey)) as [my' ey']; simpl.
  apply binary_round_sign.
Qed.

Lemma SFdiv_sign x y :
  signIs false x -> signIs false y -> signIs false (SFdiv prec emax x y).
Proof.
  destruct x as [sx|sx| |sx mx ex], y as [sy|sy| |sy my ey]; simpl;
    intros Hx Hy; subst; simpl; auto.
  destruct (SFdiv_core_binary prec emax (Z.pos mx) ex (Z.pos my) ey)
    as [[mz ez] lz].
  apply binary_round_aux_sign.
Qed.

Lemma SFsqrt_sign x : signIs false x -> signIs false (SFsqrt prec emax x).
Proof.
  destruct x as [s|s| |s m e]; simpl; intros Hx; subst; simpl; auto.
  destruct (SFsqrt_core_binary prec emax (Z.pos m) e) as [[mz ez] lz].
  apply binary_round_aux_sign.
Qed.

Lemma sq_nonneg (a : number) : nonneg (sq a).
Proof. unfold nonneg, sq; rewrite mul_spec; apply SFmul_self_sign. Qed.

Lemma add_nonneg (a b : number) : nonneg a -> nonneg b -> nonneg (add a b).
Proof. unfold nonneg, add; rewrite add_spec; apply SFadd_sign. Qed.

Lemma div_nonneg (a b : number) : nonneg a -> nonneg b -> nonneg (div a b).
Proof. unfold nonneg, div; rewrite div_spec; apply SFdiv_sign. Qed.

Lemma sqrt_nonneg (a : number) : nonneg a -> nonneg (Math_sqrt a).
Proof. unfold nonneg, Math_sqrt; rewrite sqrt_spec; apply SFsqrt_sign. Qed.

Lemma nan_nonneg : nonneg nan.
Proof. exact I. Qed.

Lemma SFeqb_refl x : x <> S754_nan -> SFeqb x x = true.
Proof.
  unfold SFeqb; destruct x as [s|s| |s m e]; intros Hx;
    try (destruct s; reflexivity); [congruence|].
  rewrite SFcompare_finite.
  assert (E : lexCompare e m e m = Eq) by (apply lexCompare_Eq; auto).
  rewrite E; destruct s; reflexivity.
Qed.

Lemma isNaN_spec (a : number) : isNaN a = true <-> Prim2SF a = S754_nan.
Proof.
  unfold isNaN; rewrite eqb_spec, negb_true_iff; split.
  - intros E; destruct (Prim2SF a) eqn:Ea; try reflexivity;
      rewrite SFeqb_refl in E by discriminate; discriminate.
  - intros ->; reflexivity.
Qed.

Lemma strictEq_NaN_r (a b : number) : isNaN b = true -> strictEq a b = false.
Proof.
  intros Hb; apply isNaN_spec in Hb.
  unfold strictEq; rewrite eqb_spec, Hb.
  unfold SFeqb; destruct (Prim2SF a); reflexivity.
Qed.

Lemma strictEq_refl (a : number) : isNaN a = false -> strictEq a a = true.
Proof.
  unfold isNaN, strictEq; rewrite negb_false_iff; auto.
Qed.

(** On numbers that are not negative, [===] is equality. *)
Lemma strictEq_eq (a b : number) :
  nonneg a -> nonneg b -> strictEq a b = true -> a = b.
Proof.
  unfold nonneg, strictEq; rewrite eqb_spec; intros Ha Hb E.
  apply Prim2SF_inj.
  destruct (Prim2SF a) as [sa|sa| |sa ma ea], (Prim2SF b) as [sb|sb| |sb mb eb];
    simpl in Ha, Hb; subst; try reflexivity; try discriminate E.
  unfold SFeqb in E; rewrite SFcompare_finite in E.
  destruct (lexCompare ea ma eb mb) eqn:El; try discriminate E.
  apply lexCompare_Eq in El; destruct El; subst; reflexivity.
Qed.


(** **** Rounding to binary64

    [binary_round_aux] shifts the mantissa right until the exponent is the
    one the format wants ([fexp]), rounds to nearest even, and shifts once
    more in case the rounding carried. *)

Local Open Scope Z_scope.

Lemma digits2_pos_bounds (m : positive) :
  2 ^ (Z.pos (digits2_pos m) - 1) <= Z.pos m < 2 ^ Z.pos (digits2_pos m).
Proof.
  induction m as [m IH|m IH|]; simpl digits2_pos.
  - rewrite Pos2Z.inj_succ.
    replace (Z.succ (Z.pos (digits2_pos m)) - 1)
      with (Z.succ (Z.pos (digits2_pos m) - 1)) by lia.
    rewrite !Z.pow_succ_r by lia; lia.
  - rewrite Pos2Z.inj_succ.
    replace (Z.succ (Z.pos (digits2_pos m)) - 1)
      with (Z.succ (Z.pos (digits2_pos m) - 1)) by lia.
    rewrite !Z.pow_succ_r by lia; lia.
  - simpl; lia.
Qed.

Lemma digits_bounds (m : Z) :
  0 < m -> 2 ^ (digits m - 1) <= m < 2 ^ digits m.
Proof.
  destruct m as [|p|p]; try lia; intros _; apply digits2_pos_bounds.
Qed.

Lemma digits_pos (m : Z) : 0 < m -> 0 < digits m.
Proof. destruct m; simpl; lia. Qed.

(** The number of digits is the only [d] with [2^(d-1) <= m < 2^d]. *)
Lemma digits_unique (m d : Z) :
  0 < m -> 2 ^ (d - 1) <= m < 2 ^ d -> digits m = d.
Proof.
  intros Hm [Hlo Hhi].
  pose proof (digits_bounds m Hm) as [Hlo' Hhi'].
  pose proof (digits_pos m Hm) as Hd.
  assert (0 < d).
  { destruct (Z.ltb_spec 0 d); [assumption|].
    assert (2 ^ d <= 1); [|lia].
    destruct (Z.eq_dec d 0) as [->|]; [simpl; lia|].
    rewrite Z.pow_neg_r by lia; lia. }
  assert (digits m - 1 < d).
  { apply (Z.pow_lt_mono_r_iff 2); lia. }
  assert (d - 1 < digits m).
  { apply (Z.pow_lt_mono_r_iff 2); lia. }
  lia.
Qed.

Lemma iter_xO (m : positive) (d : positive) :
  Z.pos (Pos.iter xO m d) = Z.pos m * 2 ^ Z.pos d.
Proof.
  induction d as [|d IH] using Pos.peano_ind.
  - simpl; lia.
  - rewrite Pos.iter_succ, Pos2Z.inj_xO, IH, Pos2Z.inj_succ.
    rewrite Z.pow_succ_r by lia; lia.
Qed.

Lemma shl_align_spec (m : positive) (e e' : Z) :
  e' <= e ->
  shl_align m e e' = (Z.to_pos (Z.pos m * 2 ^ (e - e')), e').
Proof.
  intros He; unfold shl_align.
  destruct (e' - e) as [|d|d] eqn:Ed; try lia.
  - replace e' with e by lia; rewrite Z.sub_diag, Z.mul_1_r; reflexivity.
  - replace (e - e') with (Z.pos d) by lia.
    rewrite <- iter_xO; reflexivity.
Qed.

Lemma shr_m_shr_1 (mrs : shr_record) :
  0 <= shr_m mrs -> shr_m (shr_1 mrs) = shr_m mrs / 2.
Proof.
  destruct mrs as [m r st]; simpl; intros Hm.
  destruct m as [|[p|p|]|p]; try lia; cbn [shr_1 shr_m]; try reflexivity.
  - apply (Z.div_unique (Z.pos p~1) 2 (Z.pos p) 1); lia.
  - apply (Z.div_unique (Z.pos p~0) 2 (Z.pos p) 0); lia.
Qed.

Lemma shr_m_iter (p : positive) (mrs : shr_record) :
  0 <= shr_m mrs ->
  shr_m (iter_pos shr_1 p mrs) = shr_m mrs / 2 ^ Z.pos p.
Proof.
  assert (G : forall n mrs, 0 <= shr_m mrs ->
                shr_m (Nat.iter n shr_1 mrs) = shr_m mrs / 2 ^ Z.of_nat n).
  { induction n as [|n IH]; intros r Hr.
    - simpl; rewrite Z.div_1_r; reflexivity.
    - rewrite Nat.iter_succ, shr_m_shr_1.
      + rewrite IH by exact Hr.
        rewrite Nat2Z.inj_succ, Z.pow_succ_r by lia.
        rewrite Z.div_div by (try apply Z.pow_pos_nonneg; lia).
        f_equal; lia.
      + rewrite IH by exact Hr; apply Z.div_pos; [exact Hr|].
        apply Z.pow_pos_nonneg; lia. }
  assert (E : forall (q : positive) (r : shr_record),
             iter_pos shr_1 q r = Nat.iter (Pos.to_nat q) shr_1 r).
  { induction q as [q IHq|q IHq|]; intros r; cbn [iter_pos].
    - rewrite !IHq, Pos2Nat.inj_xI.
      replace (S (2 * Pos.to_nat q)) with (Pos.to_nat q + (Pos.to_nat q + 1))%nat
        by lia.
      rewrite !Nat.iter_add; reflexivity.
    - rewrite !IHq, Pos2Nat.inj_xO.
      replace (2 * Pos.to_nat q)%nat with (Pos.to_nat q + Pos.to_nat q)%nat
        by lia.
      rewrite Nat.iter_add; reflexivity.
    - reflexivity. }
  intros Hm; rewrite E, G by exact Hm.
  rewrite positive_nat_Z; reflexivity.
Qed.

Lemma shr_m_of_loc (m : Z) (l : location) : shr_m (shr_record_of_loc m l) = m.
Proof. destruct l as [|[]]; reflexivity. Qed.

Lemma fexp_64 (e : Z) : fexp prec emax e = fexp64 e.
Proof. reflexivity. Qed.

Lemma shr_fexp_shrZ (m e : Z) (l : location) :
  0 <= m ->
  let '(mrs, e') := shr_fexp prec emax m e l in
  (shr_m mrs, e') = shrZ m e.
Proof.
  intros Hm; unfold shr_fexp, shrZ, shr; rewrite fexp_64.
  destruct (fexp64 (digits m + e) - e) as [|n|n] eqn:En; simpl.
  - rewrite shr_m_of_loc; reflexivity.
  - rewrite shr_m_iter, shr_m_of_loc by (rewrite shr_m_of_loc; exact Hm).
    reflexivity.
  - rewrite shr_m_of_loc; reflexivity.
Qed.

Lemma round_nearest_even_bounds (m : Z) (l : location) :
  m <= round_nearest_even m l <= m + 1.
Proof.
  destruct l as [|[]]; simpl; try lia.
  destruct (Z.even m); lia.
Qed.

(** The result of [binary_round_aux], from the two shifts. *)
Lemma binary_round_aux_cases (s : bool) (m e : Z) (l : location) :
  0 <= m ->
  exists m1' : Z,
    fst (shrZ m e) <= m1' <= fst (shrZ m e) + 1
    /\ binary_round_aux prec emax s m e l
       = let '(m2, e2) := shrZ m1' (snd (shrZ m e)) in
         match m2 with
         | Z0 => S754_zero s
         | Z.pos p => if e2 <=? 971 then S754_finite s p e2
                      else S754_infinity s
         | Z.neg _ => S754_nan
         end.
Proof.
  intros Hm; unfold binary_round_aux.
  pose proof (shr_fexp_shrZ m e l Hm) as H1.
  destruct (shr_fexp prec emax m e l) as [mrs' e'].
  exists (round_nearest_even (shr_m mrs') (loc_of_shr_record mrs')).
  assert (E1 : shr_m mrs' = fst (shrZ m e)) by (rewrite <- H1; reflexivity).
  assert (E2 : e' = snd (shrZ m e)) by (rewrite <- H1; reflexivity).
  split; [rewrite <- E1; apply round_nearest_even_bounds|].
  assert (H0 : 0 <= shr_m mrs').
  { rewrite E1; unfold shrZ.
    destruct (Z.ltb_spec 0 (fexp64 (digits m + e) - e)); simpl; [|exact Hm].
    apply Z.div_pos; [exact Hm | apply Z.pow_pos_nonneg; lia]. }
  pose proof (round_nearest_even_bounds (shr_m mrs') (loc_of_shr_record mrs'))
    as Hr.
  pose proof (shr_fexp_shrZ
                (round_nearest_even (shr_m mrs') (loc_of_shr_record mrs'))
                e' loc_Exact ltac:(lia)) as H2.
  destruct (shr_fexp prec emax _ e' loc_Exact) as [mrs'' e''].
  rewrite <- E2, <- H2; reflexivity.
Qed.

Lemma pow2_pos (n : Z) : 0 <= n -> 0 < 2 ^ n.
Proof. intros; apply Z.pow_pos_nonneg; lia. Qed.

Lemma pow2_le (a b : Z) : a <= b -> 2 ^ a <= 2 ^ b.
Proof.
  intros Hab; destruct (Z.ltb_spec a 0).
  - rewrite (Z.pow_neg_r 2 a) by lia; apply Z.pow_nonneg; lia.
  - apply Z.pow_le_mono_r; lia.
Qed.

(** A shift that happens above the subnormal range leaves 53 digits. *)
Lemma shift_53 (m e : Z) :
  0 < m -> 53 < digits m ->
  2 ^ 52 <= m / 2 ^ (digits m - 53) < 2 ^ 53.
Proof.
  intros Hm Hd; pose proof (digits_bounds m Hm) as [Hlo Hhi].
  pose proof (pow2_pos (digits m - 53) ltac:(lia)) as Hp.
  split.
  - apply Z.div_le_lower_bound; [exact Hp|].
    rewrite <- Z.pow_add_r by lia.
    replace (digits m - 53 + 52) with (digits m - 1) by lia; exact Hlo.
  - apply Z.div_lt_upper_bound; [exact Hp|].
    rewrite <- Z.pow_add_r by lia.
    replace (digits m - 53 + 53) with (digits m) by lia; exact Hhi.
Qed.

Lemma shrZ_pos (m e : Z) :
  1 <= m -> -1074 <= e ->
  1 <= fst (shrZ m e) /\ -1074 <= snd (shrZ m e).
Proof.
  intros Hm He; unfold shrZ, fexp64.
  destruct (Z.ltb_spec 0 (Z.max (digits m + e - 53) (-1074) - e)) as [Hn|Hn];
    simpl; [|lia].
  assert (En : Z.max (digits m + e - 53) (-1074) - e = digits m - 53) by lia.
  rewrite En; pose proof (shift_53 m e ltac:(lia) ltac:(lia)); lia.
Qed.

Lemma atLeastOne_digits (m e : Z) : atLeastOne m e -> 1 <= digits m + e.
Proof.
  intros [Hm He]; pose proof (digits_bounds m ltac:(lia)) as [Hlo Hhi].
  pose proof (digits_pos m ltac:(lia)).
  destruct (Z.ltb_spec (- e) 0); [lia|].
  assert (- e < digits m); [|lia].
  apply (Z.pow_lt_mono_r_iff 2); lia.
Qed.

Lemma shrZ_atLeastOne (m e : Z) :
  atLeastOne m e ->
  atLeastOne (fst (shrZ m e)) (snd (shrZ m e))
  /\ digits (fst (shrZ m e)) <= 53.
Proof.
  intros H1; pose proof (atLeastOne_digits m e H1) as Hd.
  destruct H1 as [Hm He]; unfold shrZ, fexp64.
  destruct (Z.ltb_spec 0 (Z.max (digits m + e - 53) (-1074) - e)) as [Hn|Hn];
    simpl; [|split; [split; assumption | lia]].
  assert (En : Z.max (digits m + e - 53) (-1074) - e = digits m - 53) by lia.
  rewrite En; pose proof (shift_53 m e ltac:(lia) ltac:(lia)) as [Hlo Hhi].
  split; [split; [lia|]|].
  - apply Z.le_trans with (2 ^ 52); [apply pow2_le; lia | exact Hlo].
  - rewrite (digits_unique _ 53); [lia | lia | split; [exact Hlo | exact Hhi]].
Qed.

(** With at most 53 digits, a value of at least one compares above
    [1 = 2^52 * 2^-52] in the order of [SFcompare]. *)
Lemma atLeastOne_lex (m e : Z) :
  atLeastOne m e -> digits m <= 53 ->
  -52 < e \/ (e = -52 /\ 2 ^ 52 <= m).
Proof.
  intros [Hm He] Hd; pose proof (digits_bounds m ltac:(lia)) as [Hlo Hhi].
  destruct (Z.ltb_spec (-52) e); [left; assumption|right].
  assert (Hle : 2 ^ 52 <= 2 ^ (- e)) by (apply pow2_le; lia).
  assert (Hlt : 2 ^ (- e) < 2 ^ 53).
  { apply Z.le_lt_trans with m; [exact He|].
    apply Z.lt_le_trans with (2 ^ digits m); [exact Hhi | apply pow2_le; lia]. }
  apply Z.pow_lt_mono_r_iff in Hlt; lia.
Qed.

Lemma binary_round_aux_ge_one (m e : Z) (l : location) :
  atLeastOne m e ->
  SFleb SFone (binary_round_aux prec emax false m e l) = true.
Proof.
  intros H1.
  destruct (binary_round_aux_cases false m e l ltac:(destruct H1; lia))
    as (m1' & Hr & ->).
  destruct (shrZ_atLeastOne m e H1) as [[Hm1 He1] _].
  assert (H1' : atLeastOne m1' (snd (shrZ m e))) by (split; lia).
  destruct (shrZ_atLeastOne _ _ H1') as [H2 Hd2].
  pose proof (atLeastOne_lex _ _ H2 Hd2) as Hlex.
  destruct (shrZ m1' (snd (shrZ m e))) as [m2 e2]; simpl in *.
  destruct H2 as [Hm2 _].
  destruct m2 as [|p|p]; try lia.
  destruct (e2 <=? 971); [|reflexivity].
  unfold SFleb, SFone; rewrite SFcompare_finite.
  destruct (lexCompare (-52) 4503599627370496 e2 p) eqn:E; try reflexivity.
  apply lexCompare_Gt in E.
  change (Z.pos 4503599627370496) with (2 ^ 52) in E; lia.
Qed.

Lemma binary_round_aux_nonzero (s : bool) (m e : Z) (l : location) :
  1 <= m -> -1074 <= e ->
  signedNonzero s (binary_round_aux prec emax s m e l).
Proof.
  intros Hm He.
  destruct (binary_round_aux_cases s m e l ltac:(lia)) as (m1' & Hr & ->).
  destruct (shrZ_pos m e Hm He) as [Hm1 He1].
  destruct (shrZ_pos m1' (snd (shrZ m e)) ltac:(lia) He1) as [Hm2 He2].
  destruct (shrZ m1' (snd (shrZ m e))) as [m2 e2]; simpl in *.
  destruct m2 as [|p|p]; try lia.
  destruct (e2 <=? 971); reflexivity.
Qed.

Lemma binary_round_nonzero (s : bool) (m : positive) (e : Z) :
  -1074 <= e -> signedNonzero s (binary_round prec emax s m e).
Proof.
  intros He; unfold binary_round; rewrite fexp_64.
  destruct (Z.leb_spec (fexp64 (Z.pos (digits2_pos m) + e)) e) as [Hf|Hf].
  - rewrite shl_align_spec by exact Hf.
    apply binary_round_aux_nonzero; [|unfold fexp64; lia].
    rewrite Z2Pos.id; pose proof (pow2_pos (e - fexp64 (Z.pos (digits2_pos m) + e))
                                  ltac:(lia)); nia.
  - unfold shl_align.
    destruct (fexp64 (Z.pos (digits2_pos m) + e) - e) eqn:E; try lia.
    apply binary_round_aux_nonzero; lia.
Qed.

(** No rounding of a mantissa that is not negative gives NaN. *)
Lemma binary_round_aux_not_nan (s : bool) (m e : Z) (l : location) :
  0 <= m -> binary_round_aux prec emax s m e l <> S754_nan.
Proof.
  intros Hm.
  destruct (binary_round_aux_cases s m e l Hm) as (m1' & Hr & ->).
  assert (H1 : 0 <= fst (shrZ m e)).
  { unfold shrZ; destruct (Z.ltb_spec 0 (fexp64 (digits m + e) - e)); simpl;
      [apply Z.div_pos; [exact Hm | apply pow2_pos; lia] | exact Hm]. }
  assert (H2 : 0 <= fst (shrZ m1' (snd (shrZ m e)))).
  { set (e1 := snd (shrZ m e)).
    unfold shrZ; destruct (Z.ltb_spec 0 (fexp64 (digits m1' + e1) - e1)); simpl;
      [apply Z.div_pos; [lia | apply pow2_pos; lia] | lia]. }
  destruct (shrZ m1' (snd (shrZ m e))) as [m2 e2]; simpl in *.
  destruct m2 as [|p|p]; try lia; [discriminate|].
  destruct (e2 <=? 971); discriminate.
Qed.

(** **** Valid binary64 numbers *)

Lemma valid_finite (s : bool) (m : positive) (e : Z) :
  valid_binary (S754_finite s m e) = true -> canonical m e /\ e <= 971.
Proof.
  unfold SpecFloat.valid_binary, bounded, canonical_mantissa, canonical.
  rewrite andb_true_iff, Z.eqb_eq, Z.leb_le, fexp_64; auto.
Qed.

Lemma canonical_bounds (m : positive) (e : Z) :
  canonical m e ->
  -1074 <= e /\ Z.pos (digits2_pos m) <= 53
  /\ (-1074 < e -> Z.pos (digits2_pos m) = 53).
Proof. unfold canonical, fexp64; lia. Qed.

(** On valid numbers the order of [SFcompare] is the order of the values,
    here compared at the smaller of the two exponents. *)
Lemma canonical_lt (mx : positive) (ex : Z) (my : positive) (ey : Z) :
  canonical mx ex -> canonical my ey ->
  lexCompare ex mx ey my = Lt ->
  Z.pos mx * 2 ^ (ex - Z.min ex ey) < Z.pos my * 2 ^ (ey - Z.min ex ey).
Proof.
  intros Hx Hy Hlt; apply lexCompare_Lt in Hlt.
  destruct Hlt as [Hlt|[-> Hlt]].
  - rewrite Z.min_l, Z.sub_diag, Z.mul_1_r by lia.
    destruct (canonical_bounds _ _ Hx) as (Hex & Hdx & _).
    destruct (canonical_bounds _ _ Hy) as (_ & _ & Hdy).
    specialize (Hdy ltac:(lia)).
    pose proof (digits2_pos_bounds mx) as [_ Hmx].
    pose proof (digits2_pos_bounds my) as [Hmy _].
    rewrite Hdy in Hmy; change (2 ^ (53 - 1)) with (2 ^ 52) in Hmy.
    assert (Hmx' : Z.pos mx < 2 ^ 53).
    { apply Z.lt_le_trans with (1 := Hmx); apply pow2_le; lia. }
    pose proof (pow2_le 1 (ey - ex) ltac:(lia)) as Hp.
    change (2 ^ 1) with 2 in Hp.
    change (2 ^ 53) with (2 * 2 ^ 52) in Hmx'.
    nia.
  - rewrite Z.min_id, Z.sub_diag; lia.
Qed.

Lemma lexCompare_swap e1 m1 e2 m2 :
  lexCompare e1 m1 e2 m2 = Gt <-> lexCompare e2 m2 e1 m1 = Lt.
Proof. rewrite lexCompare_Gt, lexCompare_Lt; lia. Qed.

(** **** The sign of a difference *)

Lemma SFltb_zero (x : spec_float) : SFltb x (S754_zero false) = isNeg x.
Proof. destruct x as [s|s| |s m e]; try destruct s; reflexivity. Qed.

Lemma signedNonzero_isNeg (s : bool) (x : spec_float) :
  signedNonzero s x -> isNeg x = s.
Proof. destruct x as [s'|s'| |s' m e]; simpl; intros H; subst; try easy;
         destruct s; reflexivity. Qed.

Lemma binary_normalize_isNeg (D e : Z) :
  -1074 <= e -> isNeg (binary_normalize prec emax D e false) = (D <? 0).
Proof.
  intros He; destruct D as [|p|p]; simpl; try reflexivity;
    apply signedNonzero_isNeg, binary_round_nonzero; exact He.
Qed.

Lemma shl_align_fst (m : positive) (e e' : Z) :
  e' <= e -> Z.pos (fst (shl_align m e e')) = Z.pos m * 2 ^ (e - e').
Proof.
  intros He; rewrite shl_align_spec by exact He; cbn [fst].
  rewrite Z2Pos.id; [reflexivity|].
  pose proof (pow2_pos (e - e') ltac:(lia)); nia.
Qed.

Lemma SFsub_isNeg (x y : spec_float) :
  valid_binary x = true -> valid_binary y = true ->
  isNeg (SFsub prec emax x y) = SFltb x y.
Proof.
  destruct x as [sx|sx| |sx mx ex], y as [sy|sy| |sy my ey]; intros Vx Vy;
    try (destruct sx); try (destruct sy); try reflexivity.
  all: apply valid_finite in Vx; destruct Vx as [Cx _].
  all: apply valid_finite in Vy; destruct Vy as [Cy _].
  all: destruct (canonical_bounds _ _ Cx) as (Hex & _ & _).
  all: destruct (canonical_bounds _ _ Cy) as (Hey & _ & _).
  all: unfold SFsub, SFltb; rewrite SFcompare_finite.
  all: rewrite binary_normalize_isNeg by lia.
  all: rewrite !shl_align_fst by lia; unfold cond_Zopp.
  all: change (IntDef.Z.min ex ey) with (Z.min ex ey).
  all: change IntDef.Z.sub with Z.sub; change IntDef.Z.opp with Z.opp.
  all: pose proof (pow2_pos (ex - Z.min ex ey) ltac:(lia)).
  all: pose proof (pow2_pos (ey - Z.min ex ey) ltac:(lia)).
  - destruct (lexCompare ex mx ey my) eqn:E; cbn [CompOpp].
    + apply lexCompare_Eq in E; destruct E as [-> ->].
      apply Z.ltb_ge; lia.
    + pose proof (canonical_lt _ _ _ _ Cx Cy E); apply Z.ltb_ge; lia.
    + apply lexCompare_swap in E.
      pose proof (canonical_lt _ _ _ _ Cy Cx E) as Hlt.
      rewrite (Z.min_comm ey ex) in Hlt; apply Z.ltb_lt; lia.
  - apply Z.ltb_lt; nia.
  - apply Z.ltb_ge; nia.
  - destruct (lexCompare ex mx ey my) eqn:E.
    + apply lexCompare_Eq in E; destruct E as [-> ->].
      apply Z.ltb_ge; lia.
    + pose proof (canonical_lt _ _ _ _ Cx Cy E); apply Z.ltb_lt; lia.
    + apply lexCompare_swap in E.
      pose proof (canonical_lt _ _ _ _ Cy Cx E) as Hlt.
      rewrite (Z.min_comm ey ex) in Hlt; apply Z.ltb_ge; lia.
Qed.

Lemma Prim2SF_zero : Prim2SF 0%float = S754_zero false.
Proof. reflexivity. Qed.

(** The comparator [(a, b) => a - b] is negative exactly when [a < b]. *)
Lemma minusBefore_lt (a b : number) : minusBefore a b = lt a b.
Proof.
  unfold minusBefore, lt, sub.
  rewrite !ltb_spec, sub_spec, Prim2SF_zero, SFltb_zero.
  apply SFsub_isNeg; apply Prim2SF_valid.
Qed.

(** **** Quotients and square roots of at least one *)

Lemma SFdiv_core_spec (mx : positive) (ex : Z) (my : positive) (ey : Z) :
  let e' := Z.min (fexp64 (digits (Z.pos mx) + ex - (digits (Z.pos my) + ey)))
              (ex - ey) in
  exists l,
    SFdiv_core_binary prec emax (Z.pos mx) ex (Z.pos my) ey
    = (Z.pos mx * 2 ^ (ex - ey - e') / Z.pos my, e', l).
Proof.
  intros e'; unfold SFdiv_core_binary; rewrite fexp_64.
  change IntDef.Z.sub with Z.sub; change IntDef.Z.add with Z.add.
  change (IntDef.Z.min ?a ?b) with (Z.min a b).
  fold e'.
  assert (Hs : 0 <= ex - ey - e') by (unfold e'; lia).
  set (m' := match ex - ey - e' with
             | 0 => Z.pos mx
             | Z.pos _ => Z.shiftl (Z.pos mx) (ex - ey - e')
             | Z.neg _ => 0
             end).
  assert (Em : m' = Z.pos mx * 2 ^ (ex - ey - e')).
  { unfold m'; destruct (ex - ey - e') as [|p|p] eqn:Es; try lia.
    rewrite Z.shiftl_mul_pow2 by lia; reflexivity. }
  destruct (Z.div_eucl m' (Z.pos my)) as [q r] eqn:Ed.
  exists (new_location (Z.pos my) r); f_equal; f_equal.
  rewrite <- Em; unfold Z.div; rewrite Ed; reflexivity.
Qed.

Lemma SFdiv_ge_one (mx : positive) (ex : Z) (my : positive) (ey : Z) :
  canonical mx ex -> canonical my ey ->
  lexCompare ey my ex mx <> Gt ->
  SFleb SFone
    (SFdiv prec emax (S754_finite false mx ex) (S754_finite false my ey))
  = true.
Proof.
  intros Cx Cy Hle; unfold SFdiv.
  destruct (SFdiv_core_spec mx ex my ey) as (l & ->); cbn [xorb].
  apply binary_round_aux_ge_one.
  set (e' := Z.min _ _).
  assert (Hval : ey <= ex /\ Z.pos my <= Z.pos mx * 2 ^ (ex - ey)).
  { destruct (lexCompare ey my ex mx) eqn:E; [| |congruence].
    - apply lexCompare_Eq in E; destruct E as [-> ->].
      rewrite Z.sub_diag; lia.
    - pose proof (canonical_lt _ _ _ _ Cy Cx E) as Hlt.
      apply lexCompare_Lt in E.
      rewrite Z.min_l, Z.sub_diag in Hlt by lia; lia. }
  destruct Hval as [He Hv].
  pose proof (digits2_pos_bounds mx) as [Hmx _].
  pose proof (digits2_pos_bounds my) as [_ Hmy].
  assert (Hs : 0 <= ex - ey - e') by (unfold e'; lia).
  pose proof (pow2_pos _ Hs) as Hps.
  assert (Hq : Z.pos my <= Z.pos mx * 2 ^ (ex - ey - e')
               /\ Z.pos my * 2 ^ (- e') <= Z.pos mx * 2 ^ (ex - ey - e')).
  { destruct (Z.leb_spec e' 0) as [Hneg|Hpos].
    - assert (E : Z.pos mx * 2 ^ (ex - ey - e')
                  = Z.pos mx * 2 ^ (ex - ey) * 2 ^ (- e')).
      { rewrite <- Z.mul_assoc, <- Z.pow_add_r by lia.
        f_equal; f_equal; lia. }
      pose proof (pow2_pos (- e') ltac:(lia)).
      rewrite E; split; nia.
    - rewrite (Z.pow_neg_r 2 (- e')) by lia.
      split; [|lia].
      assert (Hd : digits (Z.pos my) + 52 <= digits (Z.pos mx) - 1 + (ex - ey - e')).
      { unfold e', fexp64 in *; simpl digits in *; lia. }
      simpl digits in Hd.
      apply Z.le_trans with (2 ^ (Z.pos (digits2_pos mx) - 1 + (ex - ey - e'))).
      + apply Z.le_trans with (2 ^ Z.pos (digits2_pos my)); [lia|].
        apply pow2_le; lia.
      + rewrite Z.pow_add_r by lia; nia. }
  destruct Hq as [Hq1 Hq2]; split.
  - apply Z.div_le_lower_bound; lia.
  - apply Z.div_le_lower_bound; lia.
Qed.

Lemma SFsqrt_core_spec (m : positive) (e : Z) :
  let e' := Z.min (fexp64 ((digits (Z.pos m) + e + 1) / 2)) (e / 2) in
  exists l,
    SFsqrt_core_binary prec emax (Z.pos m) e
    = (Z.sqrt (Z.pos m * 2 ^ (e - 2 * e')), e', l).
Proof.
  intros e'; unfold SFsqrt_core_binary; rewrite fexp_64.
  change IntDef.Z.sub with Z.sub; change IntDef.Z.add with Z.add.
  change IntDef.Z.mul with Z.mul; change IntDef.Z.div2 with Z.div2.
  change (IntDef.Z.min ?a ?b) with (Z.min a b).
  rewrite !Z.div2_div; fold e'.
  assert (Hs : 0 <= e - 2 * e').
  { pose proof (Z.mul_div_le e 2 ltac:(lia)); unfold e'; lia. }
  set (m' := match e - 2 * e' with
             | 0 => Z.pos m
             | Z.pos _ => Z.shiftl (Z.pos m) (e - 2 * e')
             | Z.neg _ => 0
             end).
  assert (Em : m' = Z.pos m * 2 ^ (e - 2 * e')).
  { unfold m'; destruct (e - 2 * e') as [|p|p] eqn:Es; try lia.
    rewrite Z.shiftl_mul_pow2 by lia; reflexivity. }
  change IntDef.Z.sqrtrem with Z.sqrtrem.
  pose proof (Z.sqrtrem_sqrt m') as Eq.
  destruct (Z.sqrtrem m') as [q r]; simpl in Eq.
  eexists; rewrite <- Em, <- Eq; reflexivity.
Qed.

Lemma SFsqrt_ge_one (m : positive) (e : Z) :
  canonical m e ->
  lexCompare (-52) 4503599627370496 e m <> Gt ->
  SFleb SFone (SFsqrt prec emax (S754_finite false m e)) = true.
Proof.
  intros Cm Hle; unfold SFsqrt.
  destruct (SFsqrt_core_spec m e) as (l & ->).
  apply binary_round_aux_ge_one.
  set (e' := Z.min _ _).
  assert (Hs : 0 <= e - 2 * e').
  { pose proof (Z.mul_div_le e 2 ltac:(lia)); unfold e'; lia. }
  pose proof (pow2_pos _ Hs) as Hps.
  assert (H1 : -52 < e \/ (e = -52 /\ 2 ^ 52 <= Z.pos m)).
  { rewrite lexCompare_Gt in Hle.
    change (Z.pos 4503599627370496) with (2 ^ 52) in Hle; lia. }
  assert (Hm : 2 ^ (- e) <= Z.pos m).
  { destruct (canonical_bounds _ _ Cm) as (_ & _ & Hd).
    pose proof (digits2_pos_bounds m) as [Hlo _].
    destruct H1 as [H1|[-> H1]]; [|exact H1].
    destruct (Z.leb_spec 0 e).
    - apply Z.le_trans with 1; [|lia].
      destruct (Z.eq_dec e 0) as [->|]; [simpl; lia|].
      rewrite Z.pow_neg_r by lia; lia.
    - rewrite Hd in Hlo by lia.
      apply Z.le_trans with (2 ^ (53 - 1)); [apply pow2_le; lia | exact Hlo]. }
  split.
  - change 1 with (Z.sqrt 1); apply Z.sqrt_le_mono; nia.
  - destruct (Z.leb_spec e' 0) as [Hneg|Hpos].
    + apply Z.sqrt_le_square; [nia | apply Z.pow_nonneg; lia|].
      rewrite <- Z.pow_add_r by lia.
      destruct (Z.leb_spec e 0).
      * apply Z.le_trans with (2 ^ (- e) * 2 ^ (e - 2 * e')); [|nia].
        rewrite <- Z.pow_add_r by lia; apply pow2_le; lia.
      * apply Z.le_trans with (1 * 2 ^ (e - 2 * e')); [|nia].
        rewrite Z.mul_1_l; apply pow2_le; lia.
    + rewrite Z.pow_neg_r by lia; apply Z.sqrt_nonneg.
Qed.

Lemma SFdiv_finite_not_nan sx mx ex sy my ey :
  SFdiv prec emax (S754_finite sx mx ex) (S754_finite sy my ey) <> S754_nan.
Proof.
  unfold SFdiv; destruct (SFdiv_core_spec mx ex my ey) as (l & ->).
  apply binary_round_aux_not_nan, Z.div_pos; [|lia].
  apply Z.mul_nonneg_nonneg; [lia | apply Z.pow_nonneg; lia].
Qed.

Lemma SFsqrt_finite_not_nan m e :
  SFsqrt prec emax (S754_finite false m e) <> S754_nan.
Proof.
  unfold SFsqrt; destruct (SFsqrt_core_spec m e) as (l & ->).
  apply binary_round_aux_not_nan, Z.sqrt_nonneg.
Qed.

(** **** Squares of opposite differences *)

Lemma binary_round_aux_abs s s' m e l :
  SFabs (binary_round_aux prec emax s m e l)
  = SFabs (binary_round_aux prec emax s' m e l).
Proof.
  unfold binary_round_aux.
  destruct (shr_fexp prec emax m e l) as [mrs' e'].
  destruct (shr_fexp prec emax _ e' loc_Exact) as [mrs'' e''].
  destruct (shr_m mrs''); try reflexivity.
  match goal with |- context [if ?b then _ else _] => destruct b end;
    reflexivity.
Qed.

Lemma binary_normalize_abs_opp (D e : Z) :
  SFabs (binary_normalize prec emax (- D) e false)
  = SFabs (binary_normalize prec emax D e false).
Proof.
  destruct D as [|p|p]; simpl; try reflexivity; unfold binary_round;
    destruct (shl_align p e _); apply binary_round_aux_abs.
Qed.

Lemma SFsub_abs_comm (x y : spec_float) :
  SFabs (SFsub prec emax x y) = SFabs (SFsub prec emax y x).
Proof.
  destruct x as [sx|sx| |sx mx ex], y as [sy|sy| |sy my ey];
    try (destruct sx); try (destruct sy); try reflexivity.
  all: unfold SFsub.
  all: change (IntDef.Z.min ?a ?b) with (Z.min a b).
  all: change IntDef.Z.sub with Z.sub.
  all: rewrite (Z.min_comm ey ex), <- binary_normalize_abs_opp.
  all: f_equal; f_equal; unfold cond_Zopp; change IntDef.Z.opp with Z.opp; lia.
Qed.

Lemma SFmul_self_abs (x y : spec_float) :
  SFabs x = SFabs y -> SFmul prec emax x x = SFmul prec emax y y.
Proof.
  destruct x as [sx|sx| |sx mx ex], y as [sy|sy| |sy my ey]; simpl;
    intros E; inversion E; subst; try reflexivity;
    destruct sx, sy; reflexivity.
Qed.

Lemma sq_sub_comm (a b : number) : sq (sub a b) = sq (sub b a).
Proof.
  unfold sq, sub; apply Prim2SF_inj.
  rewrite !mul_spec, !sub_spec.
  apply SFmul_self_abs, SFsub_abs_comm.
Qed.

Local Close Scope Z_scope.

(** **** The same facts on numbers *)

Lemma Prim2SF_one : Prim2SF 1%float = SFone.
Proof. reflexivity. Qed.

Lemma Prim2SF_infinity : Prim2SF infinity = S754_infinity false.
Proof. reflexivity. Qed.

Lemma isNaN_false (a : number) : isNaN a = false <-> Prim2SF a <> S754_nan.
Proof.
  rewrite <- isNaN_spec; destruct (isNaN a); split; congruence.
Qed.

(** What a number can be: zero, or finite and not zero. *)
Lemma isFinite_spec (a : number) :
  isFinite a = true ->
  (exists s, Prim2SF a = S754_zero s)
  \/ (exists s m e, Prim2SF a = S754_finite s m e /\ canonical m e).
Proof.
  unfold isFinite; rewrite ltb_spec, abs_spec, Prim2SF_infinity.
  pose proof (Prim2SF_valid a) as V.
  destruct (Prim2SF a) as [s|s| |s m e]; simpl; try discriminate; intros _.
  - left; eauto.
  - right; exists s, m, e; split; [reflexivity|].
    apply (valid_finite s m e V).
Qed.

Lemma is_zero_spec (a : number) :
  is_zero a = true <-> exists s, Prim2SF a = S754_zero s.
Proof.
  unfold is_zero; rewrite eqb_spec, Prim2SF_zero.
  destruct (Prim2SF a) as [s|s| |s m e]; simpl; split;
    try discriminate; try (intros [s' E]; discriminate); eauto;
    destruct s; discriminate.
Qed.

(** A number that is finite and not negative is zero or above zero. *)
Lemma nonneg_finite_cases (a : number) :
  nonneg a -> isFinite a = true ->
  (is_zero a = true /\ lt 0%float a = false)
  \/ (is_zero a = false /\ lt 0%float a = true
      /\ exists m e, Prim2SF a = S754_finite false m e /\ canonical m e).
Proof.
  intros Hn Hf.
  assert (Hz := is_zero_spec a).
  unfold nonneg in Hn; unfold lt; rewrite ltb_spec, Prim2SF_zero.
  destruct (isFinite_spec a Hf) as [[s E]|(s & m & e & E & C)];
    rewrite E in *; simpl in Hn; subst s.
  - left; split; [apply Hz; eauto | reflexivity].
  - right; split; [|split; [reflexivity | eauto]].
    destruct (is_zero a); [|reflexivity].
    destruct (proj1 Hz eq_refl) as [s E']; discriminate.
Qed.

Lemma le_total (a b : number) :
  isNaN a = false -> isNaN b = false -> lt b a = false -> le a b = true.
Proof.
  unfold le, lt; rewrite !isNaN_false, leb_spec, ltb_spec.
  intros Ha Hb; unfold SFleb, SFltb.
  destruct (Prim2SF a) as [sa|sa| |sa ma ea], (Prim2SF b) as [sb|sb| |sb mb eb];
    try congruence; try (destruct sa); try (destruct sb);
    try reflexivity; try discriminate;
    rewrite !SFcompare_finite; try reflexivity; try discriminate.
  - destruct (lexCompare eb mb ea ma) eqn:E; simpl; try discriminate; intros _.
    + apply lexCompare_Eq in E; destruct E as [-> ->].
      assert (E : lexCompare ea ma ea ma = Eq) by (apply lexCompare_Eq; auto).
      rewrite E; reflexivity.
    + apply lexCompare_swap in E; rewrite E; reflexivity.
  - destruct (lexCompare eb mb ea ma) eqn:E; simpl; try discriminate; intros _.
    + apply lexCompare_Eq in E; destruct E as [-> ->].
      assert (E : lexCompare ea ma ea ma = Eq) by (apply lexCompare_Eq; auto).
      rewrite E; reflexivity.
    + apply lexCompare_swap in E; rewrite E; reflexivity.
Qed.

Lemma lt_le (a b : number) : lt a b = true -> le a b = true.
Proof.
  unfold le, lt; rewrite leb_spec, ltb_spec; unfold SFleb, SFltb.
  destruct (SFcompare (Prim2SF a) (Prim2SF b)) as [[]|]; congruence.
Qed.

Lemma lt_not_NaN (a b : number) :
  lt a b = true -> isNaN a = false /\ isNaN b = false.
Proof.
  unfold lt; rewrite ltb_spec, !isNaN_false; unfold SFltb.
  destruct (Prim2SF a), (Prim2SF b); simpl; try discriminate;
    split; discriminate.
Qed.

Lemma isFinite_not_NaN (a : number) : isFinite a = true -> isNaN a = false.
Proof.
  intros Hf; apply isNaN_false.
  destruct (isFinite_spec a Hf) as [[s E]|(s & m & e & E & _)];
    rewrite E; discriminate.
Qed.

Lemma div_ge_one (a b : number) :
  lt 0%float b = true -> isFinite a = true -> le b a = true ->
  le 1%float (div a b) = true.
Proof.
  unfold lt, le, div.
  rewrite ltb_spec, !leb_spec, div_spec, Prim2SF_zero, Prim2SF_one.
  intros Hb Ha Hle.
  pose proof (Prim2SF_valid b) as Vb.
  destruct (isFinite_spec a Ha) as [[s Ea]|(s & ma & ea & Ea & Ca)];
    rewrite Ea in *;
    destruct (Prim2SF b) as [sb|sb| |sb mb eb]; try destruct sb;
    try discriminate; try (destruct s; discriminate).
  apply valid_finite in Vb; destruct Vb as [Cb _].
  unfold SFleb in Hle; rewrite SFcompare_finite in Hle.
  destruct s; [discriminate|].
  apply SFdiv_ge_one; try assumption.
  intros E; rewrite E in Hle; discriminate.
Qed.

Lemma sqrt_ge_one (a : number) :
  le 1%float a = true -> le 1%float (Math_sqrt a) = true.
Proof.
  unfold le, Math_sqrt; rewrite !leb_spec, sqrt_spec, Prim2SF_one.
  pose proof (Prim2SF_valid a) as Va.
  destruct (Prim2SF a) as [s|s| |s m e]; try destruct s; try discriminate;
    intros Hle; try reflexivity.
  apply valid_finite in Va; destruct Va as [Ca _].
  unfold SFleb, SFone in Hle; rewrite SFcompare_finite in Hle.
  apply SFsqrt_ge_one; [exact Ca|].
  intros E; rewrite E in Hle; discriminate.
Qed.

(** A quotient of finite numbers is NaN only as [0 / 0]. *)
Lemma div_NaN_iff (a b : number) :
  isFinite a = true -> isFinite b = true ->
  isNaN (div a b) = is_zero a && is_zero b.
Proof.
  intros Ha Hb.
  assert (Hza := is_zero_spec a); assert (Hzb := is_zero_spec b).
  assert (Hn := isNaN_spec (div a b)).
  unfold div in *; rewrite div_spec in Hn.
  destruct (isFinite_spec a Ha) as [[sa Ea]|(sa & ma & ea & Ea & _)];
    destruct (isFinite_spec b Hb) as [[sb Eb]|(sb & mb & eb & Eb & _)];
    rewrite Ea, Eb in *.
  - rewrite (proj2 Hza), (proj2 Hzb) by eauto; apply Hn; reflexivity.
  - replace (is_zero b) with false.
    + rewrite andb_false_r; apply not_true_is_false; intros E.
      apply Hn in E; discriminate.
    + destruct (is_zero b); [|reflexivity].
      destruct (proj1 Hzb eq_refl); discriminate.
  - replace (is_zero a) with false.
    + apply not_true_is_false; intros E; apply Hn in E; discriminate.
    + destruct (is_zero a); [|reflexivity].
      destruct (proj1 Hza eq_refl); discriminate.
  - replace (is_zero a) with false.
    + apply not_true_is_false; intros E; apply Hn in E.
      exact (SFdiv_finite_not_nan _ _ _ _ _ _ E).
    + destruct (is_zero a); [|reflexivity].
      destruct (proj1 Hza eq_refl); discriminate.
Qed.

(** A square root of a number that is not negative is NaN only of NaN. *)
Lemma sqrt_NaN_iff (a : number) :
  nonneg a -> isNaN (Math_sqrt a) = isNaN a.
Proof.
  intros Hn.
  assert (H1 := isNaN_spec (Math_sqrt a)); assert (H2 := isNaN_spec a).
  unfold Math_sqrt, nonneg in *; rewrite sqrt_spec in H1.
  destruct (Prim2SF a) as [s|s| |s m e]; simpl in Hn; subst.
  - transitivity false; [|symmetry]; apply not_true_is_false; intros E;
      [apply H1 in E | apply H2 in E]; discriminate.
  - transitivity false; [|symmetry]; apply not_true_is_false; intros E;
      [apply H1 in E | apply H2 in E]; discriminate.
  - rewrite (proj2 H1), (proj2 H2); reflexivity.
  - transitivity false; [|symmetry]; apply not_true_is_false; intros E;
      [apply H1 in E | apply H2 in E; discriminate].
    exact (SFsqrt_finite_not_nan _ _ E).
Qed.

End Float64.

(** *** The exception monad *)

Lemma bind_Ok {A B} (r : result A) (k : A -> result B) (b : B) :
  bind r k = Ok b -> exists a, r = Ok a /\ k a = Ok b.
Proof.
  destruct r as [a|e]; simpl; intros E; [exists a; auto | discriminate].
Qed.

Lemma mapM_Ok_length {A B} (f : A -> result B) (l : list A) (l' : list B) :
  mapM f l = Ok l' -> length l' = length l.
Proof.
  revert l'; induction l as [|x l IH]; simpl; intros l' E.
  - inversion E; reflexivity.
  - apply bind_Ok in E; destruct E as (y & _ & E).
    apply bind_Ok in E; destruct E as (ys & Eys & E).
    inversion E; subst; simpl; f_equal; auto.
Qed.

Lemma mapM_all_Ok {A B} (f : A -> result B) (g : A -> B) (l : list A) :
  (forall x, In x l -> f x = Ok (g x)) -> mapM f l = Ok (map g l).
Proof.
  induction l as [|x l IH]; simpl; intros Hf; [reflexivity|].
  rewrite (Hf x) by auto; simpl.
  rewrite IH by auto; reflexivity.
Qed.

Lemma mapM_In {A B} (f : A -> result B) (l : list A) (l' : list B) :
  mapM f l = Ok l' ->
  forall y, In y l' -> exists x, In x l /\ f x = Ok y.
Proof.
  revert l'; induction l as [|x l IH]; simpl; intros l' E y Hy.
  - inversion E; subst; contradiction.
  - apply bind_Ok in E; destruct E as (y0 & Ey0 & E).
    apply bind_Ok in E; destruct E as (ys & Eys & E).
    inversion E; subst; destruct Hy as [->|Hy].
    + exists x; auto.
    + destruct (IH _ Eys _ Hy) as (x' & Hx' & Ex'); exists x'; auto.
Qed.

Lemma elem_Ok {A} (arr : list A) (i : nat) (x : A) :
  elem arr i = Ok x <-> nth_error arr i = Some x.
Proof.
  unfold elem; destruct (nth_error arr i); split; intros E;
    inversion E; reflexivity.
Qed.

Lemma elem_in_range {A} (arr : list A) (i : nat) :
  i < length arr -> exists x, elem arr i = Ok x.
Proof.
  intros Hi; unfold elem.
  destruct (nth_error arr i) eqn:E; [eauto|].
  apply nth_error_None in E; lia.
Qed.

(** *** The tests of the module, on the embedding *)

(** "arranges a triplet of points" *)
Example arrangeTriplet_test :
  map (arrangeTriplet testSources)
    [(0, 1, 2); (2, 1, 0); (1, 2, 0); (2, 0, 1);
     (4, 5, 6); (6, 5, 4); (5, 6, 4); (6, 4, 5);
     (0, 1, 3); (3, 1, 0); (1, 3, 0); (3, 0, 1)]
  = [Ok (0, 1, 2); Ok (0, 1, 2); Ok (0, 1, 2); Ok (0, 1, 2);
     Ok (4, 5, 6); Ok (4, 5, 6); Ok (4, 5, 6); Ok (4, 5, 6);
     Ok (1, 0, 3); Ok (1, 0, 3); Ok (1, 0, 3); Ok (1, 0, 3)].
Proof. vm_compute; reflexivity. Qed.

(** "generates invariants": 29 of them, on the triangles of the solution. *)
Example generateInvariants_test :
  exists invariants,
    @generateInvariants bruteKDTree testSources
    = Ok (invariants, triangVrtxSolution)
    /\ length invariants = 29.
Proof. eexists; split; vm_compute; reflexivity. Qed.

(** The values of [minMatches] for 0 to 14 candidates. *)
Example minMatchesOf_values :
  map minMatchesOf (seq 0 15) = [1; 1; 1; 2; 3; 4; 4; 5; 6; 7; 8; 8; 9; 10; 10].
Proof. vm_compute; reflexivity. Qed.

(** *** generateInvariants on few points *)

Lemma combinations3_short (indx : list nat) :
  length indx < 3 -> combinations3 indx = [].
Proof.
  destruct indx as [|x [|y [|z l]]]; simpl; intros Hl;
    [reflexivity | reflexivity | reflexivity | lia].
Qed.

Lemma bruteKDTree_bounded : knn_bounded bruteKDTree.
Proof.
  intros pts q k; simpl; unfold bruteKnn.
  rewrite length_firstn; lia.
Qed.

Section FewPoints.
Context {K : KDTree}.
Hypothesis knn_ok : knn_bounded K.

Lemma asterismsOf_few (sources : list point) (asrc : point) :
  length sources < 3 -> asterismsOf sources asrc = Ok [].
Proof.
  intros Hl; unfold asterismsOf.
  rewrite combinations3_short; [reflexivity|].
  eapply Nat.le_lt_trans; [apply knn_ok|].
  apply Nat.le_lt_trans with (length sources); [apply Nat.le_min_l | exact Hl].
Qed.

Lemma allInvariants_few (sources : list point) :
  length sources < 3 -> allInvariants sources = Ok ([], []).
Proof.
  intros Hl; unfold allInvariants.
  rewrite (mapM_all_Ok _ (fun _ => (@nil descriptor, @nil triangle))).
  - simpl.
    assert (E : forall (A B : Type) (l : list A),
               concat (map (fun _ : A => @nil B) l) = []).
    { intros A B l; induction l; simpl; auto. }
    rewrite !map_map; simpl; rewrite !E; reflexivity.
  - intros asrc _; rewrite asterismsOf_few by exact Hl; reflexivity.
Qed.

(** C9: on fewer than three points [generateInvariants] returns the empty
    invariant set, both lists empty, and throws nothing. *)
Theorem generateInvariants_few_points (sources : list point) :
  length sources < 3 -> generateInvariants sources = Ok ([], []).
Proof.
  intros Hl; unfold generateInvariants.
  rewrite allInvariants_few by exact Hl; reflexivity.
Qed.
End FewPoints.

Lemma generateInvariants_few_points_witness :
  length [(0, 0); (1, 1)]%float < 3 /\
  @generateInvariants bruteKDTree [(0, 0); (1, 1)]%float = Ok ([], []).
Proof.
  split; [simpl; lia|].
  apply (generateInvariants_few_points bruteKDTree_bounded); simpl; lia.
Defined.

(** *** Truncation to maxControlPoints *)

Lemma slice_0 {A} (arr : list A) (n : nat) : slice arr 0 n = firstn n arr.
Proof. unfold slice; rewrite Nat.sub_0_r; reflexivity. Qed.

Lemma controlPoints_long (s : side) (rows : list point) (mcp : nat) :
  mcp < length rows ->
  controlPoints s (CoordinateList rows) mcp = Ok (firstn mcp rows).
Proof.
  destruct rows as [|row rows]; simpl; intros Hl; [lia|].
  rewrite slice_0; reflexivity.
Qed.

Section Truncation.
Context {K : KDTree} {N : Nudged}.

(** C10: a coordinate list longer than [maxControlPoints] contributes its
    first [maxControlPoints] rows as control points and nothing else: two
    lists that agree on these rows give the same result, as source and as
    target; the cut comes before the count check, so that with
    [maxControlPoints < 3] the call fails for too few reference stars
    however long the list is. *)
Theorem findTransform_uses_first_points
  (rows rows' : list point) (other : input) (mcp : nat) (rand : nat -> nat) :
  mcp < length rows -> mcp < length rows' ->
  firstn mcp rows = firstn mcp rows' ->
  (forall s, controlPoints s (CoordinateList rows) mcp = Ok (firstn mcp rows))
  /\ findTransform (CoordinateList rows) other mcp rand
     = findTransform (CoordinateList rows') other mcp rand
  /\ findTransform other (CoordinateList rows) mcp rand
     = findTransform other (CoordinateList rows') mcp rand
  /\ (forall targetControlP,
        controlPoints Target other mcp = Ok targetControlP ->
        findTransform (CoordinateList rows) other mcp rand
        = alignControlPoints (firstn mcp rows) targetControlP rand)
  /\ (mcp < 3 ->
      forall row rest, other = CoordinateList (row :: rest) ->
      findTransform (CoordinateList rows) other mcp rand
      = Throw (TooFewReferenceStars Source)).
Proof.
  intros Hl Hl' Hpre.
  split; [intros s; apply controlPoints_long; exact Hl|].
  unfold findTransform.
  rewrite !(fun s => controlPoints_long s rows mcp Hl),
    !(fun s => controlPoints_long s rows' mcp Hl').
  rewrite Hpre.
  split; [reflexivity|]. split; [reflexivity|]. split.
  - intros targetControlP ->; reflexivity.
  - intros Hm row rest ->; simpl.
    unfold alignControlPoints.
    assert (Hf : (length (firstn mcp rows') <? 3) = true).
    { apply Nat.ltb_lt; rewrite length_firstn; lia. }
    rewrite Hf; reflexivity.
Qed.
End Truncation.

Lemma findTransform_uses_first_points_witness :
  let rows := [(0, 0); (4, 0); (0, 3); (9, 9)]%float in
  let rows' := [(0, 0); (4, 0); (0, 3); (7, 1)]%float in
  @findTransform bruteKDTree translationNudged
    (CoordinateList rows) (CoordinateList rows) 3 (fun _ => 0)
  = @findTransform bruteKDTree translationNudged
      (CoordinateList rows') (CoordinateList rows) 3 (fun _ => 0).
Proof.
  intros rows rows'.
  refine (proj1 (proj2 (@findTransform_uses_first_points bruteKDTree
            translationNudged rows rows' (CoordinateList rows) 3 (fun _ => 0)
            _ _ _)));
    [simpl; lia | simpl; lia | reflexivity].
Defined.

(** *** ransac *)

Lemma setAt_length (l : list nat) (i v : nat) :
  length (setAt l i v) = length l.
Proof.
  revert i; induction l as [|x l IH]; intros [|i]; simpl; auto.
Qed.

Lemma swap_length (arr : list nat) (i j : nat) :
  length (swap arr i j) = length arr.
Proof. unfold swap; rewrite !setAt_length; reflexivity. Qed.

Lemma shuffleFrom_length (rand : nat -> nat) (i : nat) (arr : list nat) :
  length (shuffleFrom rand i arr) = length arr.
Proof.
  revert arr; induction i as [|i IH]; intros arr; simpl; [reflexivity|].
  rewrite IH, swap_length; reflexivity.
Qed.

Lemma shuffle_length (rand : nat -> nat) (arr : list nat) :
  length (shuffle rand arr) = length arr.
Proof. apply shuffleFrom_length. Qed.

Lemma setAt_same (l : list nat) (i : nat) : setAt l i (nth i l 0) = l.
Proof.
  revert i; induction l as [|x l IH]; intros [|i]; simpl; auto.
  rewrite IH; reflexivity.
Qed.

Lemma setAt_perm (l : list nat) (i v : nat) :
  i < length l -> Permutation (v :: l) (nth i l 0 :: setAt l i v).
Proof.
  revert i; induction l as [|x l IH]; intros [|i] Hi; simpl in *; try lia.
  - apply perm_swap.
  - rewrite perm_swap, (IH i) by lia.
    apply perm_swap.
Qed.

Lemma nth_setAt_other (l : list nat) (i j v : nat) :
  i <> j -> nth j (setAt l i v) 0 = nth j l 0.
Proof.
  revert i j; induction l as [|x l IH]; intros [|i] [|j] Hij; simpl; auto;
    try lia.
Qed.

Lemma swap_perm (arr : list nat) (i j : nat) :
  i < length arr -> j < length arr -> Permutation (swap arr i j) arr.
Proof.
  intros Hi Hj; unfold swap.
  destruct (Nat.eq_dec i j) as [<-|Hij].
  - rewrite !setAt_same; reflexivity.
  - pose proof (setAt_perm arr i (nth j arr 0) Hi) as P1.
    pose proof (setAt_perm (setAt arr i (nth j arr 0)) j (nth i arr 0)
                  ltac:(rewrite setAt_length; exact Hj)) as P2.
    rewrite nth_setAt_other in P2 by exact Hij.
    rewrite <- P1 in P2.
    symmetry; apply (Permutation_cons_inv P2).
Qed.

(** The shuffle is a permutation of [allIdxs]: every candidate is sampled
    once, and every index read from [allIdxs] is an index of [data]. *)
Lemma shuffle_perm (rand : nat -> nat) (arr : list nat) :
  Permutation (shuffle rand arr) arr.
Proof.
  unfold shuffle.
  assert (G : forall i l, i < length l \/ i = 0 ->
                Permutation (shuffleFrom rand i l) l).
  { induction i as [|i IH]; intros l Hi; simpl; [reflexivity|].
    destruct Hi as [Hi|Hi]; [|discriminate].
    rewrite IH by (rewrite swap_length; left; lia).
    apply swap_perm; [exact Hi|].
    unfold randomIndex.
    pose proof (Nat.mod_upper_bound (rand (S i)) (S (S i)) ltac:(lia)); lia. }
  apply G; destruct arr; simpl; [right; reflexivity | left; lia].
Qed.


Section RansacFacts.
Variables D T : Type.
Variable data : list D.
Variable model : Model D T.
Variable thresh : number.
Variable minMatches : nat.

Lemma search_rejected (allIdxs : list nat) (pre post : list nat) :
  Forall (rejectedAt data model thresh minMatches allIdxs) pre ->
  search data model thresh minMatches allIdxs (pre ++ post)
  = search data model thresh minMatches allIdxs post.
Proof.
  induction 1 as [|k pre (m & a & Et & Hlen) _ IH]; simpl; [reflexivity|].
  rewrite Et; simpl.
  destruct (Nat.leb_spec minMatches (length a)); [lia | exact IH].
Qed.



Lemma search_Some (allIdxs iters : list nat) (goodFit : T) :
  search data model thresh minMatches allIdxs iters = Ok (Some goodFit) ->
  exists iterI maybeInliers alsoInliers,
    In iterI iters
    /\ trial data model thresh allIdxs iterI = Ok (maybeInliers, alsoInliers)
    /\ minMatches <= length alsoInliers
    /\ fit model (maybeInliers ++ alsoInliers) = Ok goodFit.
Proof.
  induction iters as [|k iters IH]; simpl; intros E; [discriminate|].
  apply bind_Ok in E; destruct E as ((m, a) & Et & E).
  destruct (Nat.leb_spec minMatches (length a)) as [Hge|Hlt].
  - apply bind_Ok in E; destruct E as (g & Eg & E).
    inversion E; subst.
    exists k, m, a; auto.
  - destruct (IH E) as (k' & m' & a' & Hin & Hrest).
    exists k', m', a'; auto.
Qed.

Lemma ransac_unfold (rand : nat -> nat) :
  ransac data model thresh minMatches rand
  = (goodFit <- search data model thresh minMatches
                  (shuffle rand (seq 0 (length data))) (seq 0 (length data)) ;;
     match goodFit with
     | None => Throw MatchesExhausted
     | Some goodFit => refine3 data model thresh goodFit
     end).
Proof. reflexivity. Qed.


(** C7: when every sampled hypothesis has fewer than [minMatches]
    supporters, [ransac] throws the exhaustion error; no transform is
    returned. *)
Theorem ransac_exhausted (rand : nat -> nat) :
  (forall k, k < length data ->
             rejectedAt data model thresh minMatches (shuffle rand (seq 0 (length data))) k) ->
  ransac data model thresh minMatches rand = Throw MatchesExhausted.
Proof.
  intros Hrej; rewrite ransac_unfold.
  assert (Hall : Forall (rejectedAt data model thresh minMatches (shuffle rand (seq 0 (length data))))
                   (seq 0 (length data))).
  { apply Forall_forall; intros k Hk; apply in_seq in Hk.
    apply Hrej; lia. }
  rewrite <- (app_nil_r (seq 0 (length data))) at 2.
  rewrite (search_rejected _ _ _ Hall); reflexivity.
Qed.

(** A transform comes out of [ransac] only after some sampled hypothesis
    was accepted: there is no best-effort result. *)
Lemma ransac_Ok_accepted (rand : nat -> nat) (r : T * list nat) :
  ransac data model thresh minMatches rand = Ok r ->
  exists iterI maybeInliers alsoInliers,
    iterI < length data
    /\ trial data model thresh (shuffle rand (seq 0 (length data))) iterI
       = Ok (maybeInliers, alsoInliers)
    /\ minMatches <= length alsoInliers.
Proof.
  rewrite ransac_unfold; intros E.
  apply bind_Ok in E; destruct E as ([g|] & Es & E); [|discriminate].
  destruct (search_Some _ _ _ Es) as (k & m & a & Hin & Et & Hlen & _).
  apply in_seq in Hin.
  exists k, m, a; repeat split; auto; lia.
Qed.
End RansacFacts.



Lemma ransac_exhausted_witness :
  ransac [selfMatch (0, 1, 2)] selfModel PIXEL_TOL 1 (fun _ => 0)
  = Throw MatchesExhausted.
Proof.
  apply (ransac_exhausted _ _ [selfMatch (0, 1, 2)] selfModel PIXEL_TOL 1
           (fun _ => 0)).
  intros k Hk; simpl in Hk.
  destruct k as [|k]; [|lia].
  exists [selfMatch (0, 1, 2)], [].
  split; [vm_compute; reflexivity | simpl; lia].
Defined.

(** *** The single-candidate shortcut of findTransform *)

Lemma bind_notExhausted {A B} (r : result A) (k : A -> result B) :
  notExhausted r -> (forall a, notExhausted (k a)) -> notExhausted (bind r k).
Proof.
  unfold notExhausted; destruct r as [a|e]; simpl; intros Hr Hk.
  - apply Hk.
  - intros E; apply Hr; inversion E; reflexivity.
Qed.

Lemma Ok_notExhausted {A} (a : A) : notExhausted (Ok a).
Proof. discriminate. Qed.

Lemma elem_notExhausted {A} (arr : list A) (i : nat) : notExhausted (elem arr i).
Proof. unfold elem, notExhausted; destruct (nth_error arr i); discriminate. Qed.

Lemma mapM_notExhausted {A B} (f : A -> result B) (l : list A) :
  (forall x, notExhausted (f x)) -> notExhausted (mapM f l).
Proof.
  intros Hf; induction l as [|x l IH]; simpl; [apply Ok_notExhausted|].
  apply bind_notExhausted; [apply Hf|]; intros y.
  apply bind_notExhausted; [exact IH|]; intros ys; apply Ok_notExhausted.
Qed.

Create HintDb exh.
#[local] Hint Resolve Ok_notExhausted elem_notExhausted : exh.

Section Shortcut.
Context {K : KDTree} {N : Nudged}.

Lemma fit_notExhausted (s t : list point) (data : list candidate) :
  notExhausted (MatchTransform_fit s t data).
Proof.
  unfold MatchTransform_fit, sourcePointsOf, targetPointsOf.
  apply bind_notExhausted; [apply mapM_notExhausted; auto with exh|]; intros sp.
  apply bind_notExhausted; [apply mapM_notExhausted; auto with exh|]; intros tp.
  auto with exh.
Qed.

Lemma fillInlDict_notExhausted (s t : list point) (bestT : transform)
  (inlUnique : list (nat * nat)) (inlDict : obj (nat * number)) :
  notExhausted (fillInlDict s t bestT inlUnique inlDict).
Proof.
  revert inlDict; induction inlUnique as [|[sI tI] rest IH]; intros inlDict;
    simpl; [auto with exh|].
  apply bind_notExhausted; [|intros e; apply IH].
  unfold pairError.
  apply bind_notExhausted; [auto with exh|]; intros sv.
  apply bind_notExhausted; [auto with exh|]; intros tv; auto with exh.
Qed.

Lemma resolveInliers_notExhausted (s t : list point) (bestT : transform)
  (inl : list (nat * nat)) :
  notExhausted (resolveInliers s t bestT inl).
Proof.
  unfold resolveInliers.
  apply bind_notExhausted; [apply fillInlDict_notExhausted|].
  intros d; auto with exh.
Qed.

(** C2, as the code has it: when the candidate list has exactly one entry
    and the source or the target has exactly three control points, the
    transform is fitted on that candidate alone, the candidate is the
    inlier set, and [ransac] is not run: the result does not depend on the
    random source and is never the exhaustion error. *)
Theorem findTransform_single_candidate_shortcut
  (source target : input) (mcp : nat) (rand : nat -> nat)
  (sourceControlP targetControlP : list point) (m : candidate) :
  controlPoints Source source mcp = Ok sourceControlP ->
  controlPoints Target target mcp = Ok targetControlP ->
  3 <= length sourceControlP -> 3 <= length targetControlP ->
  length sourceControlP = 3 \/ length targetControlP = 3 ->
  matchTriangles sourceControlP targetControlP = Ok [m] ->
  findTransform source target mcp rand
  = directFit sourceControlP targetControlP m
  /\ notExhausted (findTransform source target mcp rand).
Proof.
  intros Es Et Hs Ht H3 Em.
  assert (E : findTransform source target mcp rand
              = directFit sourceControlP targetControlP m).
  { unfold findTransform; rewrite Es, Et; simpl.
    unfold alignControlPoints.
    destruct (Nat.ltb_spec (length sourceControlP) 3); [lia|].
    destruct (Nat.ltb_spec (length targetControlP) 3); [lia|].
    rewrite Em; simpl.
    assert (H3b : Nat.eqb (length sourceControlP) 3
                  || Nat.eqb (length targetControlP) 3 = true).
    { apply orb_true_iff.
      destruct H3 as [H3|H3]; [left|right]; apply Nat.eqb_eq; exact H3. }
    rewrite H3b; simpl.
    unfold directFit.
    destruct (MatchTransform_fit sourceControlP targetControlP [m])
      as [bestT|e]; simpl; [|reflexivity].
    destruct m as [[p1 p2] p3]; simpl; reflexivity. }
  split; [exact E|].
  rewrite E; unfold directFit.
  apply bind_notExhausted; [apply fit_notExhausted|]; intros bestT.
  apply bind_notExhausted; [apply resolveInliers_notExhausted|].
  intros out; auto with exh.
Qed.
End Shortcut.

(** C2 as stated fails: here the candidate list has exactly one entry, but
    neither set has exactly three points, so [ransac] runs on the single
    candidate, which has no supporter, and the call fails with exhaustion. *)
Lemma findTransform_single_candidate_exhausted :
  @matchTriangles bruteKDTree srcFour tgtFour = Ok [selfMatch (0, 1, 2)]
  /\ @findTransform bruteKDTree translationNudged
       (CoordinateList srcFour) (CoordinateList tgtFour) 50 (fun _ => 0)
     = Throw MatchesExhausted.
Proof. split; vm_compute; reflexivity. Qed.

Lemma findTransform_single_candidate_shortcut_witness :
  @findTransform bruteKDTree translationNudged
    (CoordinateList (firstn 3 srcFour)) (CoordinateList tgtFour) 50 (fun _ => 0)
  = @directFit translationNudged (firstn 3 srcFour) tgtFour (selfMatch (0, 1, 2)).
Proof.
  refine (proj1 (@findTransform_single_candidate_shortcut bruteKDTree
            translationNudged (CoordinateList (firstn 3 srcFour))
            (CoordinateList tgtFour) 50 (fun _ => 0)
            (firstn 3 srcFour) tgtFour (selfMatch (0, 1, 2)) _ _ _ _ _ _)).
  - reflexivity.
  - reflexivity.
  - simpl; lia.
  - simpl; lia.
  - left; reflexivity.
  - vm_compute; reflexivity.
Defined.

(** *** The correspondence resolver *)

Section ObjFacts.
Context {V : Type}.

Lemma obj_get_set_same (o : obj V) (k : nat) (v : V) :
  obj_get (obj_set o k v) k = Some v.
Proof.
  induction o as [|[k' v'] o IH]; simpl.
  - rewrite Nat.eqb_refl; reflexivity.
  - destruct (Nat.ltb_spec k k'); simpl.
    + rewrite Nat.eqb_refl; reflexivity.
    + destruct (Nat.eqb_spec k k') as [E|E]; simpl.
      * rewrite Nat.eqb_refl; reflexivity.
      * destruct (Nat.eqb_spec k k'); [contradiction | exact IH].
Qed.

Lemma obj_get_set_other (o : obj V) (k k0 : nat) (v : V) :
  k <> k0 -> obj_get (obj_set o k v) k0 = obj_get o k0.
Proof.
  intros Hk; induction o as [|[k' v'] o IH]; simpl.
  - destruct (Nat.eqb_spec k0 k); [congruence | reflexivity].
  - destruct (Nat.ltb_spec k k'); simpl.
    + destruct (Nat.eqb_spec k0 k); [congruence | reflexivity].
    + destruct (Nat.eqb_spec k k') as [E|E]; simpl.
      * subst k'; destruct (Nat.eqb_spec k0 k); [congruence | reflexivity].
      * rewrite IH; reflexivity.
Qed.

Lemma obj_set_keys (o : obj V) (k : nat) (v : V) (x : nat) :
  In x (map fst (obj_set o k v)) -> x = k \/ In x (map fst o).
Proof.
  induction o as [|[k' v'] o IH]; simpl.
  - intros [E|[]]; auto.
  - destruct (Nat.ltb_spec k k'); simpl.
    + intros [E|[E|E]]; auto.
    + destruct (Nat.eqb_spec k k'); simpl.
      * intros [E|E]; auto.
      * intros [E|E]; auto. destruct (IH E); auto.
Qed.

Lemma obj_set_sorted (o : obj V) (k : nat) (v : V) :
  keysSorted o -> keysSorted (obj_set o k v).
Proof.
  unfold keysSorted; induction o as [|[k' v'] o IH]; simpl; intros Hs.
  - constructor; constructor.
  - inversion Hs as [|a l Hs' Hall]; subst.
    destruct (Nat.ltb_spec k k'); simpl.
    + constructor; [exact Hs|].
      constructor; [exact H|].
      eapply Forall_impl; [|exact Hall]; simpl; intros; lia.
    + destruct (Nat.eqb_spec k k') as [E|E]; simpl.
      * subst k'; constructor; assumption.
      * constructor; [apply IH; exact Hs'|].
        apply Forall_forall; intros x Hx.
        destruct (obj_set_keys _ _ _ _ Hx) as [->|Hx']; [lia|].
        rewrite Forall_forall in Hall; apply Hall; exact Hx'.
Qed.

Lemma keysSorted_NoDup (o : obj V) : keysSorted o -> NoDup (map fst o).
Proof.
  unfold keysSorted; induction (map fst o) as [|k l IH]; intros Hs;
    constructor; inversion Hs as [|a l' Hs' Hall]; subst.
  - intros Hin; rewrite Forall_forall in Hall.
    specialize (Hall _ Hin); lia.
  - apply IH; exact Hs'.
Qed.

Lemma obj_get_In (o : obj V) (k : nat) (v : V) :
  obj_get o k = Some v -> In (k, v) o.
Proof.
  induction o as [|[k' v'] o IH]; simpl; [discriminate|].
  destruct (Nat.eqb_spec k k') as [E|E]; intros Hg.
  - inversion Hg; subst; left; reflexivity.
  - right; apply IH; exact Hg.
Qed.

Lemma obj_In_get (o : obj V) (k : nat) (v : V) :
  keysSorted o -> In (k, v) o -> obj_get o k = Some v.
Proof.
  unfold keysSorted; induction o as [|[k' v'] o IH]; simpl;
    intros Hs Hin; [contradiction|].
  inversion Hs as [|a l Hs' Hall]; subst.
  destruct Hin as [E|Hin].
  - inversion E; subst; rewrite Nat.eqb_refl; reflexivity.
  - destruct (Nat.eqb_spec k k') as [E|E]; [|apply IH; assumption].
    subst k'; rewrite Forall_forall in Hall.
    assert (Hk : In k (map fst o)) by (apply (in_map fst _ _ Hin)).
    specialize (Hall _ Hk); lia.
Qed.
End ObjFacts.

Lemma pairEq_spec (p q : nat * nat) : pairEq p q = true <-> p = q.
Proof.
  destruct p as [a b], q as [c d]; unfold pairEq; simpl.
  rewrite andb_true_iff, !Nat.eqb_eq; split; [intros []|intros E; inversion E];
    subst; auto.
Qed.

(** The duplicate removal through [inlUniqueDict] keeps the same pairs. *)
Lemma sobj_set_values (o : list ((nat * nat) * (nat * nat))) (p x : nat * nat) :
  (forall kv, In kv o -> fst kv = snd kv) ->
  (In x (Object_values (sobj_set pairEq o p p)) <->
   x = p \/ In x (Object_values o)).
Proof.
  unfold Object_values; induction o as [|[k v] o IH]; simpl; intros Hkv.
  - split; [intros [E|[]]|intros [E|[]]]; auto.
  - destruct (pairEq p k) eqn:E; simpl.
    + apply pairEq_spec in E; subst k.
      assert (v = p) by (symmetry; apply (Hkv (p, v)); auto); subst v.
      split; intros H; repeat destruct H as [H|H]; subst; auto.
    + rewrite IH by (intros kv Hin; apply Hkv; auto).
      split; intros H; repeat destruct H as [H|H]; subst; auto.
Qed.

Lemma sobj_set_diag (o : list ((nat * nat) * (nat * nat))) (p : nat * nat) :
  (forall kv, In kv o -> fst kv = snd kv) ->
  forall kv, In kv (sobj_set pairEq o p p) -> fst kv = snd kv.
Proof.
  induction o as [|[k v] o IH]; simpl; intros Hkv kv.
  - intros [<-|[]]; reflexivity.
  - destruct (pairEq p k); simpl.
    + intros [<-|Hin]; [reflexivity | apply Hkv; auto].
    + intros [<-|Hin]; [apply (Hkv (k, v)); auto|].
      apply IH; [intros kv' Hin'; apply Hkv; auto | exact Hin].
Qed.

Lemma inlUnique_In (l : list (nat * nat)) (x : nat * nat) :
  In x (Object_values (Object_fromEntries pairEq (map (fun m => (m, m)) l)))
  <-> In x l.
Proof.
  unfold Object_fromEntries.
  assert (G : forall o,
             (forall kv, In kv o -> fst kv = snd kv) ->
             (In x (Object_values
                      (fold_left (fun o kv => sobj_set pairEq o (fst kv) (snd kv))
                         (map (fun m => (m, m)) l) o))
              <-> In x (Object_values o) \/ In x l)).
  { induction l as [|p l IH]; simpl; intros o Ho; [tauto|].
    rewrite IH by (apply sobj_set_diag; exact Ho).
    rewrite sobj_set_values by exact Ho.
    split; intros H; repeat destruct H as [H|H]; subst; auto. }
  rewrite G by (intros kv []); simpl; tauto.
Qed.

Section Resolver.
Context {N : Nudged}.
Variables sourceControlP targetControlP : list point.
Variable bestT : transform.

Abbreviation errorOf := (pairError sourceControlP targetControlP bestT).

Lemma pairError_Ok (st : nat * nat) :
  inRange sourceControlP targetControlP st -> exists e, errorOf st = Ok e.
Proof.
  intros [Hs Ht]; unfold pairError.
  destruct (elem_in_range _ _ Hs) as (sv & ->).
  destruct (elem_in_range _ _ Ht) as (tv & ->).
  simpl; eauto.
Qed.

Lemma dictInv_empty : dictInv sourceControlP targetControlP bestT [] [].
Proof.
  split.
  - constructor.
  - simpl; discriminate.
  - intros sI tI [].
Qed.

Lemma dictInv_step (done : list (nat * nat)) (d : obj (nat * number))
  (sI tI : nat) (e : number) :
  dictInv sourceControlP targetControlP bestT done d -> errorOf (sI, tI) = Ok e ->
  dictInv sourceControlP targetControlP bestT (done ++ [(sI, tI)])
    (match obj_get d sI with
     | None => obj_set d sI (tI, e)
     | Some (_, e0) => if lt e e0 then obj_set d sI (tI, e) else d
     end).
Proof.
  intros [Hsort Hbest Hcover] He.
  assert (Hnew : forall k t, In (k, t) (done ++ [(sI, tI)]) ->
                             In (k, t) done \/ (k = sI /\ t = tI)).
  { intros k t Hin; apply in_app_or in Hin; destruct Hin as [Hin|[E|[]]];
      [left; exact Hin | right; inversion E; auto]. }
  assert (Hset : forall e0 : number,
             (forall tI' e', In (sI, tI') done -> errorOf (sI, tI') = Ok e' ->
                             lt e' e = false) ->
             dictInv sourceControlP targetControlP bestT (done ++ [(sI, tI)]) (obj_set d sI (tI, e))).
  { intros _ Hlow; split.
    - apply obj_set_sorted; exact Hsort.
    - intros k t e1 Hg.
      destruct (Nat.eq_dec sI k) as [<-|Hk].
      + rewrite obj_get_set_same in Hg; inversion Hg; subst t e1.
        split; [apply in_or_app; right; left; reflexivity|].
        split; [exact He|].
        intros tI' e' Hin He'.
        destruct (Hnew _ _ Hin) as [Hd|[_ ->]]; [eapply Hlow; eauto|].
        rewrite He in He'; inversion He'; subst; apply Float64.lt_irrefl.
      + rewrite obj_get_set_other in Hg by exact Hk.
        destruct (Hbest _ _ _ Hg) as (Hin & Herr & Hlow').
        split; [apply in_or_app; left; exact Hin|].
        split; [exact Herr|].
        intros tI' e' Hin' He'.
        destruct (Hnew _ _ Hin') as [Hd|[Ek _]]; [eapply Hlow'; eauto|].
        congruence.
    - intros k t Hin.
      destruct (Nat.eq_dec sI k) as [<-|Hk].
      + rewrite obj_get_set_same; discriminate.
      + rewrite obj_get_set_other by exact Hk.
        destruct (Hnew _ _ Hin) as [Hd|[Ek _]]; [eapply Hcover; eauto|].
        congruence. }
  destruct (obj_get d sI) as [[t0 e0]|] eqn:Hg.
  - destruct (Hbest _ _ _ Hg) as (Hin0 & Herr0 & Hlow0).
    destruct (lt e e0) eqn:Hlt.
    + apply (Hset e0); intros tI' e' Hin He'.
      destruct (lt e' e) eqn:Hlt'; [|reflexivity].
      rewrite <- (Hlow0 _ _ Hin He'); symmetry.
      apply (Float64.lt_trans e' e e0); assumption.
    + split.
      * exact Hsort.
      * intros k t e1 Hg1.
        destruct (Hbest _ _ _ Hg1) as (Hin & Herr & Hlow).
        split; [apply in_or_app; left; exact Hin|].
        split; [exact Herr|].
        intros tI' e' Hin' He'.
        destruct (Hnew _ _ Hin') as [Hd|[-> ->]]; [eapply Hlow; eauto|].
        rewrite Hg in Hg1; inversion Hg1; subst.
        rewrite He in He'; inversion He'; subst; exact Hlt.
      * intros k t Hin.
        destruct (Hnew _ _ Hin) as [Hd|[-> _]]; [eapply Hcover; eauto|].
        rewrite Hg; discriminate.
  - apply (Hset e); intros tI' e' Hin He'.
    exfalso; exact (Hcover _ _ Hin Hg).
Qed.

Lemma fillInlDict_inv (rest done : list (nat * nat)) (d : obj (nat * number)) :
  dictInv sourceControlP targetControlP bestT done d -> Forall (inRange sourceControlP targetControlP) rest ->
  exists d', fillInlDict sourceControlP targetControlP bestT rest d = Ok d'
             /\ dictInv sourceControlP targetControlP bestT (done ++ rest) d'.
Proof.
  revert done d; induction rest as [|[sI tI] rest IH]; intros done d Hinv Hr.
  - exists d; rewrite app_nil_r; auto.
  - inversion Hr as [|x l Hx Hr']; subst.
    destruct (pairError_Ok _ Hx) as (e & He).
    simpl; rewrite He; simpl.
    destruct (IH _ _ (dictInv_step _ _ _ _ _ Hinv He) Hr') as (d' & Ed' & Hinv').
    exists d'; split; [exact Ed'|].
    rewrite <- app_assoc in Hinv'; exact Hinv'.
Qed.

(** The error the loop computes for a pair is the residual, as [nudged]
    gives it, of the two control points at its indices. *)
Lemma pairError_residual (sI tI : nat) (sVertex tVertex : point) :
  nth_error sourceControlP sI = Some sVertex ->
  nth_error targetControlP tI = Some tVertex ->
  errorOf (sI, tI) = Ok (residual bestT sVertex tVertex).
Proof.
  intros Hs Ht; unfold pairError, elem; simpl.
  rewrite Hs, Ht; reflexivity.
Qed.

(** C6: the resolver returns, for in-range inlier pairs, a list in which
    each source index occurs at most once and in which every source index
    of the inliers occurs; every returned pair is an inlier pair, and its
    residual under [bestT], the residual of the source control point and
    the target control point at its indices, is the lowest among the inlier
    pairs of its source index: none of them has a strictly lower one. *)
Theorem resolveInliers_unique_lowest (triangleInliers : list (nat * nat)) :
  Forall (inRange sourceControlP targetControlP) triangleInliers ->
  exists inlArrUnique,
    resolveInliers sourceControlP targetControlP bestT triangleInliers
    = Ok inlArrUnique
    /\ NoDup (map fst inlArrUnique)
    /\ (forall sI tI, In (sI, tI) inlArrUnique -> In (sI, tI) triangleInliers)
    /\ (forall sI tI, In (sI, tI) triangleInliers ->
                      exists tI', In (sI, tI') inlArrUnique)
    /\ (forall sI tI,
          In (sI, tI) inlArrUnique ->
          exists sVertex tVertex,
            nth_error sourceControlP sI = Some sVertex
            /\ nth_error targetControlP tI = Some tVertex
            /\ forall tI' tVertex',
                 In (sI, tI') triangleInliers ->
                 nth_error targetControlP tI' = Some tVertex' ->
                 lt (residual bestT sVertex tVertex')
                    (residual bestT sVertex tVertex) = false).
Proof.
  intros Hr; unfold resolveInliers.
  set (inlUnique := Object_values _).
  assert (HU : forall x, In x inlUnique <-> In x triangleInliers)
    by (intros x; apply inlUnique_In).
  assert (Hr' : Forall (inRange sourceControlP targetControlP) inlUnique).
  { apply Forall_forall; intros x Hx; rewrite Forall_forall in Hr.
    apply Hr, HU, Hx. }
  destruct (fillInlDict_inv inlUnique [] [] dictInv_empty Hr')
    as (d & Ed & [Hsort Hbest Hcover]).
  simpl in Hbest, Hcover.
  rewrite Ed; simpl; unfold Object_entries.
  eexists; split; [reflexivity|].
  assert (Hout : forall sI tI,
             In (sI, tI) (map (fun kv => (fst kv, fst (snd kv))) d) ->
             exists e, obj_get d sI = Some (tI, e)).
  { intros sI tI Hin; apply in_map_iff in Hin.
    destruct Hin as ([k [t e]] & E & Hin); simpl in E; inversion E; subst.
    exists e; apply obj_In_get; assumption. }
  split; [|split; [|split]].
  - rewrite map_map; simpl.
    apply (keysSorted_NoDup d Hsort).
  - intros sI tI Hin; destruct (Hout _ _ Hin) as (e & Hg).
    apply HU; apply (Hbest _ _ _ Hg).
  - intros sI tI Hin; apply HU in Hin.
    destruct (obj_get d sI) as [[t e]|] eqn:Hg;
      [|exfalso; exact (Hcover _ _ Hin Hg)].
    exists t; apply in_map_iff; exists (sI, (t, e)); split; [reflexivity|].
    apply obj_get_In; exact Hg.
  - intros sI tI Hin.
    destruct (Hout _ _ Hin) as (e1 & Hg).
    destruct (Hbest _ _ _ Hg) as (Hin1 & Herr & Hlow).
    rewrite Forall_forall in Hr'.
    destruct (Hr' _ Hin1) as [Hs Ht]; simpl in Hs, Ht.
    destruct (nth_error sourceControlP sI) as [sVertex|] eqn:Es;
      [|apply nth_error_None in Es; lia].
    destruct (nth_error targetControlP tI) as [tVertex|] eqn:Et;
      [|apply nth_error_None in Et; lia].
    exists sVertex, tVertex; split; [reflexivity|]; split; [reflexivity|].
    intros tI' tVertex' Hin' Et'.
    rewrite (pairError_residual _ _ _ _ Es Et) in Herr; inversion Herr; subst e1.
    apply (Hlow tI'); [apply HU; exact Hin'|].
    apply pairError_residual; assumption.
Qed.
End Resolver.

Lemma resolveInliers_unique_lowest_witness :
  let triangleInliers := [(0, 3); (1, 2); (0, 2); (1, 2); (0, 3)] in
  exists inlArrUnique,
    @resolveInliers translationNudged fourPoints (rev fourPoints) (0, 0)%float
      triangleInliers
    = Ok inlArrUnique
    /\ NoDup (map fst inlArrUnique)
    /\ (forall sI tI, In (sI, tI) inlArrUnique -> In (sI, tI) triangleInliers)
    /\ (forall sI tI, In (sI, tI) triangleInliers ->
                      exists tI', In (sI, tI') inlArrUnique)
    /\ (forall sI tI,
          In (sI, tI) inlArrUnique ->
          exists sVertex tVertex,
            nth_error fourPoints sI = Some sVertex
            /\ nth_error (rev fourPoints) tI = Some tVertex
            /\ forall tI' tVertex',
                 In (sI, tI') triangleInliers ->
                 nth_error (rev fourPoints) tI' = Some tVertex' ->
                 lt (@residual translationNudged (0, 0)%float sVertex tVertex')
                    (@residual translationNudged (0, 0)%float sVertex tVertex)
                 = false).
Proof.
  apply (@resolveInliers_unique_lowest translationNudged fourPoints
           (rev fourPoints) (0, 0)%float
           [(0, 3); (1, 2); (0, 2); (1, 2); (0, 3)]).
  repeat constructor; simpl; lia.
Defined.

(** On these pairs the resolver keeps, for the source point 0, the target
    point 3 at residual 0 and drops the target point 2 at residual 4, which
    comes first. *)
Example resolveInliers_test :
  @resolveInliers translationNudged fourPoints (rev fourPoints) (0, 0)%float
    [(0, 2); (1, 2); (0, 3); (1, 2); (0, 2)]
  = Ok [(0, 3); (1, 2)]
  /\ nth_error fourPoints 0 = Some (0, 0)%float
  /\ nth_error (rev fourPoints) 2 = Some (4, 0)%float
  /\ nth_error (rev fourPoints) 3 = Some (0, 0)%float
  /\ @residual translationNudged (0, 0)%float (0, 0)%float (4, 0)%float
     = 4%float
  /\ @residual translationNudged (0, 0)%float (0, 0)%float (0, 0)%float
     = 0%float.
Proof. repeat split; vm_compute; reflexivity. Qed.

(** *** Array.prototype.sort *)

Section SortFacts.
Context {A : Type}.
Variable before : A -> A -> bool.

Lemma insert_perm (x : A) (l : list A) :
  Permutation (insert before x l) (x :: l).
Proof.
  induction l as [|y l IH]; simpl; [reflexivity|].
  destruct (before x y); [reflexivity|].
  rewrite IH; apply perm_swap.
Qed.

Lemma Array_sort_perm (l : list A) : Permutation (Array_sort before l) l.
Proof.
  unfold Array_sort.
  assert (G : forall acc,
             Permutation (fold_left (fun acc x => insert before x acc) l acc)
               (acc ++ l)).
  { induction l as [|x l IH]; intros acc; simpl.
    - rewrite app_nil_r; reflexivity.
    - rewrite IH, insert_perm; simpl.
      apply Permutation_middle. }
  apply (G []).
Qed.
End SortFacts.

(** *** The invariants and their duplicate removal *)

Lemma selectAt_app {A} (arr : list A) (idx idx' : list nat) :
  selectAt arr (idx ++ idx') = selectAt arr idx ++ selectAt arr idx'.
Proof. unfold selectAt; apply flat_map_app. Qed.

Lemma selectAt_shift {A} (x : A) (arr : list A) (idx : list nat) :
  selectAt (x :: arr) (map S idx) = selectAt arr idx.
Proof.
  unfold selectAt; induction idx as [|i idx IH]; simpl; [reflexivity|].
  rewrite IH; reflexivity.
Qed.

Lemma uniqIndFrom_S (pos : nat) (inv : list descriptor) :
  uniqIndFrom (S pos) inv = map S (uniqIndFrom pos inv).
Proof.
  revert pos; induction inv as [|elem rest IH]; intros pos; simpl;
    [reflexivity|].
  destruct (existsb _ rest); simpl; rewrite IH; reflexivity.
Qed.

Lemma selectAt_uniqInd (inv : list descriptor) :
  selectAt inv (uniqInd inv) = keepLast inv.
Proof.
  unfold uniqInd; induction inv as [|elem rest IH]; simpl; [reflexivity|].
  rewrite uniqIndFrom_S.
  destruct (existsb _ rest); simpl.
  - rewrite selectAt_shift; exact IH.
  - change (selectAt (elem :: rest) (0 :: map S (uniqIndFrom 0 rest)))
      with (elem :: selectAt (elem :: rest) (map S (uniqIndFrom 0 rest))).
    rewrite selectAt_shift, IH; reflexivity.
Qed.

Lemma uniqInd_bound (inv : list descriptor) (pos : nat) :
  In pos (uniqInd inv) -> pos < length inv.
Proof.
  unfold uniqInd; revert pos; induction inv as [|elem rest IH]; simpl;
    intros pos Hin; [contradiction|].
  rewrite uniqIndFrom_S in Hin.
  assert (H : pos = 0 \/ In pos (map S (uniqIndFrom 0 rest))).
  { destruct (existsb _ rest); [right; exact Hin|].
    destruct Hin as [<-|Hin]; auto. }
  destruct H as [->|H]; [lia|].
  apply in_map_iff in H; destruct H as (i & <- & Hi).
  apply IH in Hi; lia.
Qed.

Lemma selectAt_length {A} (arr : list A) (idx : list nat) :
  (forall i, In i idx -> i < length arr) ->
  length (selectAt arr idx) = length idx.
Proof.
  unfold selectAt; induction idx as [|i idx IH]; simpl; intros Hb;
    [reflexivity|].
  rewrite length_app, IH by auto.
  destruct (nth_error arr i) eqn:E; [reflexivity|].
  apply nth_error_None in E; specialize (Hb i (or_introl eq_refl)); lia.
Qed.

Lemma uniqInd_length (inv : list descriptor) :
  length (uniqInd inv) <= length inv.
Proof.
  unfold uniqInd; generalize 0.
  induction inv as [|elem rest IH]; intros pos; simpl; [lia|].
  destruct (existsb _ rest); simpl; specialize (IH (S pos)); lia.
Qed.

(** A position is kept exactly when no later position holds an equal
    descriptor. *)
Lemma uniqInd_spec (inv : list descriptor) (pos : nat) :
  In pos (uniqInd inv) <->
  exists elem, nth_error inv pos = Some elem
               /\ forall later item, pos < later ->
                    nth_error inv later = Some item ->
                    sameDescriptor item elem = false.
Proof.
  unfold uniqInd; revert pos; induction inv as [|e rest IH]; intros pos; simpl.
  - split; [contradiction|]. intros (elem & E & _).
    destruct pos; discriminate.
  - rewrite uniqIndFrom_S.
    assert (Hex : existsb (fun item => sameDescriptor item e) rest = false <->
                  forall later item, 0 < later ->
                    nth_error (e :: rest) later = Some item ->
                    sameDescriptor item e = false).
    { split.
      - intros Hn [|later] item Hl Hnth; [lia|]; simpl in Hnth.
        apply nth_error_In in Hnth.
        destruct (sameDescriptor item e) eqn:Es; [|reflexivity].
        rewrite <- Hn; symmetry; apply existsb_exists; eauto.
      - intros Hall; destruct (existsb _ rest) eqn:Ex; [|reflexivity].
        apply existsb_exists in Ex; destruct Ex as (item & Hin & Es).
        apply In_nth_error in Hin; destruct Hin as (i & Hi).
        rewrite <- (Hall (S i) item); [symmetry; exact Es | lia | exact Hi]. }
    assert (Htl : In pos (map S (uniqIndFrom 0 rest)) <->
                  exists p, pos = S p /\
                  exists elem, nth_error rest p = Some elem
                    /\ forall later item, p < later ->
                         nth_error rest later = Some item ->
                         sameDescriptor item elem = false).
    { rewrite in_map_iff; split.
      - intros (p & <- & Hp); exists p; split; [reflexivity|].
        apply IH; exact Hp.
      - intros (p & -> & Hp); exists p; split; [reflexivity|].
        apply IH; exact Hp. }
    split.
    + intros Hin.
      assert (H : (pos = 0 /\ existsb (fun item => sameDescriptor item e) rest
                               = false)
                  \/ In pos (map S (uniqIndFrom 0 rest))).
      { destruct (existsb _ rest); [right; exact Hin|].
        destruct Hin as [<-|Hin]; auto. }
      destruct H as [[-> Hn]|H].
      * exists e; split; [reflexivity|]; apply Hex; exact Hn.
      * apply Htl in H; destruct H as (p & -> & elem & Hnth & Hall).
        exists elem; split; [exact Hnth|].
        intros [|later] item Hl Hl'; [lia|]; simpl in Hl'.
        apply (Hall later); [lia | exact Hl'].
    + intros (elem & Hnth & Hall).
      destruct pos as [|p].
      * simpl in Hnth; inversion Hnth; subst elem.
        apply Hex in Hall; rewrite Hall; left; reflexivity.
      * assert (H : In (S p) (map S (uniqIndFrom 0 rest))).
        { apply Htl; exists p; split; [reflexivity|].
          exists elem; split; [exact Hnth|].
          intros later item Hl Hl'; apply (Hall (S later)); [lia | exact Hl']. }
        destruct (existsb _ rest); [exact H | right; exact H].
Qed.

Lemma sqDist_nonneg (p q : point) : nonneg (sqDist p q).
Proof. apply Float64.add_nonneg; apply Float64.sq_nonneg. Qed.

Lemma at3_In (l : list number) (i : nat) :
  i < length l -> In (at3 l i) l.
Proof. intros Hi; apply nth_In; exact Hi. Qed.

Lemma sortedSides_nonneg (a b c : number) (i : nat) :
  nonneg a -> nonneg b -> nonneg c -> i < 3 ->
  nonneg (at3 (Array_sort minusBefore [a; b; c]) i).
Proof.
  intros Ha Hb Hc Hi.
  pose proof (Array_sort_perm minusBefore [a; b; c]) as Hp.
  assert (Hin : In (at3 (Array_sort minusBefore [a; b; c]) i) [a; b; c]).
  { apply (Permutation_in _ Hp), at3_In.
    rewrite (Permutation_length Hp); exact Hi. }
  destruct Hin as [<-|[<-|[<-|[]]]]; assumption.
Qed.

Lemma invariantFeatures_regular (x1 x2 x3 : point) :
  regular (invariantFeatures x1 x2 x3).
Proof.
  unfold invariantFeatures, regular; simpl; split;
    apply Float64.sqrt_nonneg, Float64.div_nonneg;
    apply sortedSides_nonneg; auto using sqDist_nonneg.
Qed.

Lemma sameDescriptor_eq (d d' : descriptor) :
  regular d -> regular d' -> sameDescriptor d d' = true -> d = d'.
Proof.
  destruct d as [a b], d' as [a' b']; unfold regular, sameDescriptor; simpl.
  intros [Ha Hb] [Ha' Hb'] E; apply andb_true_iff in E; destruct E as [E1 E2].
  f_equal; apply Float64.strictEq_eq; assumption.
Qed.

Lemma sameDescriptor_refl (d : descriptor) :
  hasNaN d = false -> sameDescriptor d d = true.
Proof.
  unfold hasNaN, sameDescriptor; intros H; apply orb_false_iff in H.
  destruct H as [H1 H2]; rewrite !Float64.strictEq_refl by assumption.
  reflexivity.
Qed.

Lemma sameDescriptor_NaN (item elem : descriptor) :
  hasNaN elem = true -> sameDescriptor item elem = false.
Proof.
  unfold hasNaN, sameDescriptor; intros H; apply orb_true_iff in H.
  destruct H as [H|H]; rewrite (Float64.strictEq_NaN_r _ _ H);
    [reflexivity | apply andb_false_r].
Qed.

(** Without NaN the duplicate removal is [nodup]: one entry per distinct
    descriptor. *)
Lemma keepLast_nodup (inv : list descriptor) :
  (forall d, In d inv -> regular d /\ hasNaN d = false) ->
  keepLast inv = nodup descriptor_eq_dec inv.
Proof.
  induction inv as [|elem rest IH]; simpl; intros Hreg; [reflexivity|].
  rewrite IH by auto.
  destruct (in_dec descriptor_eq_dec elem rest) as [Hin|Hin].
  - assert (E : existsb (fun item => sameDescriptor item elem) rest = true).
    { apply existsb_exists; exists elem; split; [exact Hin|].
      apply sameDescriptor_refl, Hreg; auto. }
    rewrite E; reflexivity.
  - destruct (existsb _ rest) eqn:E; [|reflexivity].
    apply existsb_exists in E; destruct E as (item & Hitem & Es).
    exfalso; apply Hin.
    rewrite <- (sameDescriptor_eq item elem); auto; apply Hreg; auto.
Qed.

Section Dedup.
Context {K : KDTree}.

Lemma featuresOf_regular (sources : list point) (t : triangle) (d : descriptor) :
  featuresOf sources t = Ok d -> regular d.
Proof.
  destruct t as [[a b] c]; unfold featuresOf; intros E.
  apply bind_Ok in E; destruct E as (x1 & _ & E).
  apply bind_Ok in E; destruct E as (x2 & _ & E).
  apply bind_Ok in E; destruct E as (x3 & _ & E).
  inversion E; apply invariantFeatures_regular.
Qed.

Lemma allInvariants_shape (sources : list point)
  (inv : list descriptor) (tri : list triangle) :
  allInvariants sources = Ok (inv, tri) ->
  length inv = length tri /\ forall d, In d inv -> regular d.
Proof.
  unfold allInvariants; intros E.
  apply bind_Ok in E; destruct E as (perAnchor & Em & E).
  inversion E; subst; clear E.
  assert (Hall : Forall (fun p => length (fst p) = length (snd p)
                                  /\ forall d, In d (fst p) -> regular d)
                    perAnchor).
  { apply Forall_forall; intros [i t] Hin.
    destruct (mapM_In _ _ _ Em _ Hin) as (asrc & _ & Ea).
    apply bind_Ok in Ea; destruct Ea as (t' & _ & Ea).
    apply bind_Ok in Ea; destruct Ea as (i' & Ei & Ea).
    inversion Ea; subst; simpl; split.
    - apply (mapM_Ok_length _ _ _ Ei).
    - intros d Hd; destruct (mapM_In _ _ _ Ei _ Hd) as (x & _ & Ex).
      apply (featuresOf_regular _ _ _ Ex). }
  clear Em; induction Hall as [|[i t] l [Hlen Hreg] _ [IH1 IH2]]; simpl.
  - split; [reflexivity | contradiction].
  - simpl in Hlen, Hreg; split.
    + rewrite !length_app; congruence.
    + intros d Hd; apply in_app_or in Hd; destruct Hd; auto.
Qed.

(** X21: the duplicate removal: the invariant set is what is left of the
    candidates at the kept positions, never more than the candidates; a
    position is kept exactly when no later candidate has an equal ([===])
    descriptor, so of equal descriptors the earlier are discarded and the
    last one retained; and when no candidate descriptor has a NaN component
    the kept descriptors are the distinct descriptors, each once. *)
Theorem generateInvariants_dedup (sources : list point)
  (inv : list descriptor) (tri : list triangle) :
  allInvariants sources = Ok (inv, tri) ->
  generateInvariants sources
  = Ok (selectAt inv (uniqInd inv), selectAt tri (uniqInd inv))
  /\ length (selectAt inv (uniqInd inv)) = length (uniqInd inv)
  /\ length (selectAt tri (uniqInd inv)) = length (uniqInd inv)
  /\ length (uniqInd inv) <= length inv
  /\ (forall pos,
        In pos (uniqInd inv) <->
        exists elem, nth_error inv pos = Some elem
                     /\ forall later item, pos < later ->
                          nth_error inv later = Some item ->
                          sameDescriptor item elem = false)
  /\ ((forall d, In d inv -> hasNaN d = false) ->
      selectAt inv (uniqInd inv) = nodup descriptor_eq_dec inv
      /\ NoDup (selectAt inv (uniqInd inv))
      /\ (forall d, In d (selectAt inv (uniqInd inv)) <-> In d inv)).
Proof.
  intros E; destruct (allInvariants_shape _ _ _ E) as [Hlen Hreg].
  split; [unfold generateInvariants; rewrite E; reflexivity|].
  split; [apply selectAt_length, uniqInd_bound|].
  split; [apply selectAt_length; intros i Hi; rewrite <- Hlen;
          apply uniqInd_bound, Hi|].
  split; [apply uniqInd_length|].
  split; [apply uniqInd_spec|].
  intros Hnn.
  assert (Ed : selectAt inv (uniqInd inv) = nodup descriptor_eq_dec inv).
  { rewrite selectAt_uniqInd; apply keepLast_nodup; auto. }
  rewrite Ed; split; [reflexivity|]; split.
  - apply NoDup_nodup.
  - intros d; apply nodup_In.
Qed.

(** Three coincident points: whatever triple of their indices the tree
    names, the arranged triangle has the descriptor [(NaN, NaN)]. *)
Lemma featuresOf_coincident (i j k : nat) :
  i < 3 -> j < 3 -> k < 3 ->
  exists t,
    arrangeTriplet [(0, 0); (0, 0); (0, 0)]%float (i, j, k) = Ok t
    /\ featuresOf [(0, 0); (0, 0); (0, 0)]%float t = Ok (nan, nan).
Proof.
  intros Hi Hj Hk.
  destruct i as [|[|[|i]]]; [| | |lia];
    (destruct j as [|[|[|j]]]; [| | |lia]);
    (destruct k as [|[|[|k]]]; [| | |lia]);
    eexists; split; vm_compute; reflexivity.
Qed.

Lemma asterismsOf_coincident (asrc : point) :
  knn_in_range K ->
  length (kd_knn [(0, 0); (0, 0); (0, 0)]%float asrc 3) = 3 ->
  exists t,
    asterismsOf [(0, 0); (0, 0); (0, 0)]%float asrc = Ok [t]
    /\ featuresOf [(0, 0); (0, 0); (0, 0)]%float t = Ok (nan, nan).
Proof.
  intros Hr Hl; unfold asterismsOf.
  change (Nat.min (length [(0, 0); (0, 0); (0, 0)]%float) NUM_NEAREST_NEIGHBORS)
    with 3.
  pose proof (Hr [(0, 0); (0, 0); (0, 0)]%float asrc 3) as Hin.
  destruct (kd_knn [(0, 0); (0, 0); (0, 0)]%float asrc 3)
    as [|i [|j [|k [|x l]]]]; try discriminate.
  destruct (featuresOf_coincident i j k) as (t & Ea & Ef);
    try (apply Hin; simpl; auto).
  exists t; split; [|exact Ef].
  change (combinations3 [i; j; k]) with [(i, j, k)].
  cbn [mapM]; rewrite Ea; reflexivity.
Qed.

(** C5: the duplicate removal misses the descriptors with a NaN component.
    Three coincident points give three candidate triangles, one for each
    anchor, with the one descriptor [(NaN, NaN)]; [generateInvariants]
    returns all three, where one distinct descriptor is among them. This
    holds with every kd-tree that answers [knn(q, 3)] on these three points
    with three of their indices. *)
Theorem generateInvariants_coincident_not_unique :
  let sources := [(0, 0); (0, 0); (0, 0)]%float in
  let inv := [(nan, nan); (nan, nan); (nan, nan)] in
  knn_in_range K ->
  (forall q, length (kd_knn sources q 3) = 3) ->
  (exists t1 t2 t3,
     allInvariants sources = Ok (inv, [t1; t2; t3])
     /\ generateInvariants sources = Ok (inv, [t1; t2; t3]))
  /\ length (nodup descriptor_eq_dec inv) = 1.
Proof.
  intros sources inv Hr Hl; split.
  - destruct (asterismsOf_coincident (0, 0)%float Hr (Hl _))
      as (t & Ea & Ef).
    assert (E : allInvariants sources = Ok (inv, [t; t; t])).
    { unfold allInvariants, sources; simpl mapM.
      rewrite Ea; simpl; rewrite Ef; simpl; reflexivity. }
    exists t, t, t; split; [exact E|].
    unfold generateInvariants; rewrite E; reflexivity.
  - unfold inv; simpl.
    repeat match goal with
           | |- context [in_dec ?d ?x ?l] => destruct (in_dec d x l) as [H|H]
           end; simpl in *; try reflexivity; exfalso; auto.
Qed.
End Dedup.

Lemma generateInvariants_dedup_witness :
  let sources := [(0, 0); (4, 0); (0, 3)]%float in
  let inv := [(1.25, 0x1.5555555555555p+0); (1.25, 0x1.5555555555555p+0);
              (1.25, 0x1.5555555555555p+0)]%float in
  let tri := [(0, 1, 2); (0, 1, 2); (0, 1, 2)] in
  @generateInvariants bruteKDTree sources
  = Ok (selectAt inv (uniqInd inv), selectAt tri (uniqInd inv))
  /\ selectAt inv (uniqInd inv) = nodup descriptor_eq_dec inv
  /\ NoDup (selectAt inv (uniqInd inv)).
Proof.
  intros sources inv tri.
  destruct (@generateInvariants_dedup bruteKDTree sources inv tri)
    as (E & _ & _ & _ & _ & Hreg).
  - vm_compute; reflexivity.
  - split; [exact E|].
    destruct Hreg as (Ed & Hnd & _); [|split; assumption].
    intros d Hd; simpl in Hd.
    repeat destruct Hd as [<-|Hd]; try (vm_compute; reflexivity).
    contradiction.
Defined.

(** *** The descriptor of a triangle *)

Lemma insert_ext {A} (f g : A -> A -> bool) (x : A) (l : list A) :
  (forall x y, f x y = g x y) -> insert f x l = insert g x l.
Proof.
  intros E; induction l as [|y l IH]; simpl; [reflexivity|].
  rewrite E, IH; reflexivity.
Qed.

Lemma Array_sort_ext {A} (f g : A -> A -> bool) (l : list A) :
  (forall x y, f x y = g x y) -> Array_sort f l = Array_sort g l.
Proof.
  intros E; unfold Array_sort; generalize (@nil A).
  induction l as [|x l IH]; intros acc; simpl; [reflexivity|].
  rewrite (insert_ext f g x acc E); apply IH.
Qed.

(** Three numbers, none NaN, come out of [sides.sort((a, b) => a - b)] in
    ascending order. *)
Lemma sort3_sorted (a b c : number) :
  isNaN a = false -> isNaN b = false -> isNaN c = false ->
  exists s0 s1 s2,
    Array_sort minusBefore [a; b; c] = [s0; s1; s2]
    /\ Permutation [s0; s1; s2] [a; b; c]
    /\ le s0 s1 = true /\ le s1 s2 = true.
Proof.
  intros Ha Hb Hc.
  pose proof (Array_sort_perm minusBefore [a; b; c]) as P.
  rewrite (Array_sort_ext minusBefore lt) in * by apply Float64.minusBefore_lt.
  unfold Array_sort in *; cbn [fold_left insert] in *.
  destruct (lt b a) eqn:Eba; cbn [insert] in *.
  - destruct (lt c b) eqn:Ecb; cbn [insert] in *.
    + exists c, b, a; auto using Float64.lt_le.
    + destruct (lt c a) eqn:Eca.
      * exists b, c, a; auto using Float64.lt_le, Float64.le_total.
      * exists b, a, c; auto using Float64.lt_le, Float64.le_total.
  - destruct (lt c a) eqn:Eca; cbn [insert] in *.
    + exists c, a, b; auto using Float64.lt_le, Float64.le_total.
    + destruct (lt c b) eqn:Ecb.
      * exists a, c, b; auto using Float64.lt_le, Float64.le_total.
      * exists a, b, c; auto 6 using Float64.lt_le, Float64.le_total.
Qed.

(** C8, as the code has it: when the three squared side lengths, as
    computed, are finite and not zero, the descriptor is
    [(sqrt(S3 / S2), sqrt(S2 / S1))] for the squared side lengths sorted as
    [S1 <= S2 <= S3], the square roots being taken of the ratios, and both
    components are at least 1. *)
Theorem invariantFeatures_ratios (x1 x2 x3 : point) :
  (forall s, In s [sqDist x1 x2; sqDist x2 x3; sqDist x1 x3] ->
             is_zero s = false /\ isFinite s = true) ->
  exists S1 S2 S3,
    Permutation [S1; S2; S3] [sqDist x1 x2; sqDist x2 x3; sqDist x1 x3]
    /\ le S1 S2 = true /\ le S2 S3 = true
    /\ invariantFeatures x1 x2 x3
       = (Math_sqrt (div S3 S2), Math_sqrt (div S2 S1))
    /\ le 1%float (Math_sqrt (div S3 S2)) = true
    /\ le 1%float (Math_sqrt (div S2 S1)) = true.
Proof.
  intros Hs.
  assert (Hpos : forall s,
             In s [sqDist x1 x2; sqDist x2 x3; sqDist x1 x3] ->
             lt 0%float s = true /\ isFinite s = true).
  { intros s Hin; destruct (Hs s Hin) as [Hz Hf]; split; [|exact Hf].
    assert (Hn : nonneg s).
    { destruct Hin as [<-|[<-|[<-|[]]]]; apply sqDist_nonneg. }
    destruct (Float64.nonneg_finite_cases s Hn Hf) as [[E _]|[_ [E _]]];
      congruence. }
  assert (HnN : forall s,
             In s [sqDist x1 x2; sqDist x2 x3; sqDist x1 x3] -> isNaN s = false).
  { intros s Hin; apply Float64.isFinite_not_NaN, Hpos, Hin. }
  destruct (sort3_sorted (sqDist x1 x2) (sqDist x2 x3) (sqDist x1 x3))
    as (S1 & S2 & S3 & Esort & P & H12 & H23);
    try (apply HnN; simpl; auto).
  assert (Hin : forall s, In s [S1; S2; S3] ->
                          lt 0%float s = true /\ isFinite s = true).
  { intros s Hi; apply Hpos, (Permutation_in _ P), Hi. }
  destruct (Hin S1) as [P1 F1]; [simpl; auto|].
  destruct (Hin S2) as [P2 F2]; [simpl; auto|].
  destruct (Hin S3) as [P3 F3]; [simpl; auto|].
  exists S1, S2, S3; repeat split; try assumption.
  - unfold invariantFeatures; rewrite Esort; reflexivity.
  - apply Float64.sqrt_ge_one, Float64.div_ge_one; assumption.
  - apply Float64.sqrt_ge_one, Float64.div_ge_one; assumption.
Qed.

(** C8 as stated fails: three pairwise distinct points so close that the
    squared distances underflow to zero have the descriptor [(NaN, NaN)],
    whose components are not at least 1. *)
Lemma invariantFeatures_underflow :
  let x1 := (0, 0)%float in
  let x2 := (0x1p-600, 0)%float in
  let x3 := (0, 0x1p-600)%float in
  x1 <> x2 /\ x2 <> x3 /\ x1 <> x3
  /\ invariantFeatures x1 x2 x3 = (nan, nan)
  /\ le 1%float (fst (invariantFeatures x1 x2 x3)) = false
  /\ le 1%float (snd (invariantFeatures x1 x2 x3)) = false.
Proof.
  assert (Hd : 0%float <> 0x1p-600%float).
  { intros E; apply (f_equal (fun x => strictEq x 0%float)) in E.
    vm_compute in E; discriminate. }
  repeat split; try (vm_compute; reflexivity);
    intros E; inversion E; auto.
Qed.

Lemma invariantFeatures_ratios_witness :
  exists S1 S2 S3,
    Permutation [S1; S2; S3] [16; 25; 9]%float
    /\ invariantFeatures (0, 0)%float (4, 0)%float (0, 3)%float
       = (Math_sqrt (div S3 S2), Math_sqrt (div S2 S1)).
Proof.
  destruct (invariantFeatures_ratios (0, 0)%float (4, 0)%float (0, 3)%float)
    as (S1 & S2 & S3 & P & _ & _ & E & _).
  - intros s [<-|[<-|[<-|[]]]]; split; vm_compute; reflexivity.
  - exists S1, S2, S3; split; [exact P | exact E].
Defined.

Lemma le_zero (a b : number) :
  nonneg a -> isFinite a = true ->
  le a b = true -> is_zero b = true -> is_zero a = true.
Proof.
  intros Hn Hf Hle Hz.
  destruct (Float64.nonneg_finite_cases a Hn Hf)
    as [[E _]|(_ & _ & m & e & E & _)]; [exact E|].
  apply Float64.is_zero_spec in Hz; destruct Hz as [s Eb].
  unfold le in Hle; rewrite leb_spec, E, Eb in Hle; discriminate.
Qed.

Lemma Permutation_filter_length {A} (f : A -> bool) (l l' : list A) :
  Permutation l l' -> length (filter f l) = length (filter f l').
Proof.
  induction 1 as [|x l l' _ IH|x y l|l l' l'' _ IH1 _ IH2]; simpl.
  - reflexivity.
  - destruct (f x); simpl; congruence.
  - destruct (f x), (f y); reflexivity.
  - congruence.
Qed.

(** C4, as the code has it: nothing is raised and nothing is filtered; for
    finite squared side lengths the descriptor has a NaN component exactly
    when at least two of the three squared side lengths are zero, as for
    three coincident vertices. *)
Theorem invariantFeatures_NaN_iff (x1 x2 x3 : point) :
  (forall s, In s [sqDist x1 x2; sqDist x2 x3; sqDist x1 x3] ->
             isFinite s = true) ->
  (hasNaN (invariantFeatures x1 x2 x3) = true <->
   2 <= length (filter is_zero [sqDist x1 x2; sqDist x2 x3; sqDist x1 x3])).
Proof.
  intros Hf.
  assert (Hn : forall s,
             In s [sqDist x1 x2; sqDist x2 x3; sqDist x1 x3] ->
             nonneg s).
  { intros s [<-|[<-|[<-|[]]]]; apply sqDist_nonneg. }
  destruct (sort3_sorted (sqDist x1 x2) (sqDist x2 x3) (sqDist x1 x3))
    as (S1 & S2 & S3 & Esort & P & H12 & H23);
    try (apply Float64.isFinite_not_NaN, Hf; simpl; auto).
  rewrite <- (Permutation_filter_length is_zero _ _ P).
  assert (Hin : forall s, In s [S1; S2; S3] ->
                          nonneg s /\ isFinite s = true).
  { intros s Hi; apply (Permutation_in _ P) in Hi; auto. }
  destruct (Hin S1) as [N1 F1]; [simpl; auto|].
  destruct (Hin S2) as [N2 F2]; [simpl; auto|].
  destruct (Hin S3) as [N3 F3]; [simpl; auto|].
  unfold invariantFeatures, hasNaN; rewrite Esort; cbn [fst snd at3 nth].
  rewrite !Float64.sqrt_NaN_iff by (apply Float64.div_nonneg; assumption).
  rewrite !Float64.div_NaN_iff by assumption.
  pose proof (le_zero S1 S2 N1 F1 H12) as Z21.
  pose proof (le_zero S2 S3 N2 F2 H23) as Z32.
  cbn [filter].
  destruct (is_zero S1), (is_zero S2), (is_zero S3); simpl; split;
    intros H; try reflexivity; try discriminate; try lia;
    try (specialize (Z21 eq_refl); discriminate);
    try (specialize (Z32 eq_refl); discriminate).
Qed.

Lemma sub_self (a : number) : isFinite a = true -> sub a a = 0%float.
Proof.
  intros Hf; unfold sub; apply Prim2SF_inj.
  rewrite sub_spec, Float64.Prim2SF_zero.
  destruct (Float64.isFinite_spec a Hf) as [[s E]|(s & m & e & E & _)];
    rewrite E; [destruct s; reflexivity|].
  unfold SF64sub, SFsub.
  change IntDef.Z.sub with Z.sub; rewrite Z.sub_diag; reflexivity.
Qed.

(** Three coincident vertices: the descriptor is [(NaN, NaN)]. *)
Lemma invariantFeatures_coincident (p : point) :
  isFinite (fst p) = true -> isFinite (snd p) = true ->
  invariantFeatures p p p = (nan, nan).
Proof.
  intros H1 H2; unfold invariantFeatures, sqDist.
  rewrite (sub_self _ H1), (sub_self _ H2); reflexivity.
Qed.

(** C4 as stated fails: of four points, three of them coincident, the
    triangle of the coincident points gets the descriptor [(NaN, NaN)];
    nothing is raised, and the invariant set returned holds such entries. *)
Lemma generateInvariants_returns_NaN :
  let sources := [(1, 1); (1, 1); (1, 1); (5, 2)]%float in
  invariantFeatures (1, 1)%float (1, 1)%float (1, 1)%float = (nan, nan)
  /\ @generateInvariants bruteKDTree sources
     = Ok ([(nan, nan); (nan, nan); (nan, nan); (1%float, infinity);
            (nan, nan)],
           [(1, 2, 0); (1, 2, 0); (1, 2, 0); (1, 3, 2); (1, 2, 0)]).
Proof. split; vm_compute; reflexivity. Qed.

Lemma invariantFeatures_NaN_iff_witness :
  hasNaN (invariantFeatures (0, 0)%float (4, 0)%float (4, 0)%float) = true <->
  2 <= length (filter is_zero [16; 0; 16]%float).
Proof.
  apply (invariantFeatures_NaN_iff (0, 0)%float (4, 0)%float (4, 0)%float).
  intros s [<-|[<-|[<-|[]]]]; vm_compute; reflexivity.
Defined.

(** *** arrangeTriplet *)

Lemma sqDist_sym (p q : point) : sqDist p q = sqDist q p.
Proof.
  unfold sqDist.
  rewrite (Float64.sq_sub_comm (fst p)), (Float64.sq_sub_comm (snd p)).
  reflexivity.
Qed.

Lemma sideLength_sym (p q : point) : sideLength p q = sideLength q p.
Proof. unfold sideLength; rewrite sqDist_sym; reflexivity. Qed.

(** The two ways two sides of a triangle follow each other in
    [[...sideInd[s], ...sideInd[t]]]: the vertex they share is counted
    twice and comes first in [mostCommon]. *)
Ltac nat_cases :=
  repeat (cbn -[Nat.ltb Nat.eqb];
          match goal with
          | |- context [Nat.eqb ?a ?b] =>
              destruct (Nat.eqb_spec a b); try lia
          | |- context [Nat.ltb ?a ?b] =>
              destruct (Nat.ltb_spec a b); try lia
          end).

Lemma mostCommon_mid (u v w : nat) :
  u <> v -> v <> w -> u <> w ->
  parseInt_entries (mostCommon [u; v; v; w]) = v.
Proof.
  intros Huv Hvw Huw.
  unfold mostCommon, countItems, Object_entries, Array_sort.
  nat_cases; reflexivity.
Qed.

Lemma mostCommon_ends (u v w : nat) :
  u <> v -> v <> w -> u <> w ->
  parseInt_entries (mostCommon [v; u; w; v]) = v.
Proof.
  intros Huv Hvw Huw.
  unfold mostCommon, countItems, Object_entries, Array_sort.
  nat_cases; reflexivity.
Qed.

(** The side positions in ascending order of length. *)
Lemma sortedIndices3 (L0 L1 L2 : number) :
  map snd
    (Array_sort (fun a b => minusBefore (fst a) (fst b))
       (combine [L0; L1; L2] [0; 1; 2]))
  = if lt L1 L0
    then if lt L2 L1 then [2; 1; 0]
         else if lt L2 L0 then [1; 2; 0] else [1; 0; 2]
    else if lt L2 L0 then [2; 0; 1]
         else if lt L2 L1 then [0; 2; 1] else [0; 1; 2].
Proof.
  rewrite (Array_sort_ext _ (fun a b : number * nat => lt (fst a) (fst b)))
    by (intros; apply Float64.minusBefore_lt).
  unfold Array_sort; cbn [combine fold_left insert fst].
  destruct (lt L1 L0); cbn [insert fst].
  - destruct (lt L2 L1); [reflexivity|].
    destruct (lt L2 L0); reflexivity.
  - destruct (lt L2 L0); [reflexivity|].
    destruct (lt L2 L1); reflexivity.
Qed.

Lemma distinctLengths_cases (a b : number) :
  distinctLengths a b = true ->
  (lt a b = true /\ lt b a = false) \/ (lt a b = false /\ lt b a = true).
Proof.
  unfold distinctLengths; intros H; apply orb_true_iff in H.
  destruct H as [H|H]; [left|right]; split; auto using Float64.lt_asym.
Qed.

(** Two lengths that are numbers and are not equal are told apart. *)
Lemma distinctLengths_of_neq (a b : number) :
  isNaN a = false -> isNaN b = false -> strictEq a b = false ->
  distinctLengths a b = true.
Proof.
  intros Ha Hb Hne; unfold distinctLengths.
  destruct (lt b a) eqn:Eba; [apply orb_true_r|].
  pose proof (Float64.le_total a b Ha Hb Eba) as Hle.
  unfold le, lt, strictEq in *.
  rewrite leb_spec in Hle; rewrite ltb_spec; rewrite eqb_spec in Hne.
  unfold SFleb, SFltb, SFeqb in *.
  destruct (SFcompare (Prim2SF a) (Prim2SF b)) as [[]|]; try discriminate.
  reflexivity.
Qed.

Section OrderVertices.
Variables A B C : number.
Variables i j k : nat.
Hypothesis HAB : distinctLengths A B = true.
Hypothesis HBC : distinctLengths B C = true.
Hypothesis HAC : distinctLengths A C = true.
Hypothesis Hij : i <> j.
Hypothesis Hjk : j <> k.
Hypothesis Hik : i <> k.

Ltac eval_order :=
  unfold orderVertices; rewrite !sortedIndices3;
  repeat match goal with
         | H : lt _ _ = _ |- _ => rewrite !H
         end;
  cbn [nth app];
  repeat first [ rewrite mostCommon_mid by lia
               | rewrite mostCommon_ends by lia ];
  reflexivity.

(** With side lengths [A] of [{i, j}], [B] of [{j, k}] and [C] of [{k, i}],
    each of the six orders in which the vertices can be given has its own
    list of side lengths; the arranged triple is the same for all. *)
Lemma orderVertices_permutations :
  orderVertices [B; C; A] j k i = orderVertices [A; B; C] i j k
  /\ orderVertices [C; A; B] k i j = orderVertices [A; B; C] i j k
  /\ orderVertices [A; C; B] j i k = orderVertices [A; B; C] i j k
  /\ orderVertices [C; B; A] i k j = orderVertices [A; B; C] i j k
  /\ orderVertices [B; A; C] k j i = orderVertices [A; B; C] i j k.
Proof.
  destruct (distinctLengths_cases _ _ HAB) as [[AB BA]|[AB BA]];
    destruct (distinctLengths_cases _ _ HBC) as [[BC CB]|[BC CB]];
    destruct (distinctLengths_cases _ _ HAC) as [[AC CA]|[AC CA]].
  - repeat split; eval_order.
  - pose proof (Float64.lt_trans _ _ _ AB BC); congruence.
  - repeat split; eval_order.
  - repeat split; eval_order.
  - repeat split; eval_order.
  - repeat split; eval_order.
  - pose proof (Float64.lt_trans _ _ _ CB BA); congruence.
  - repeat split; eval_order.
Qed.
End OrderVertices.

(** C3, as the code has it: for three distinct indices into the point set
    whose three side lengths, as computed, are pairwise different, the six
    orders in which the indices can be given are arranged into one and the
    same triple. *)
Theorem arrangeTriplet_permutation_invariant
  (sources : list point) (i j k : nat) (xi xj xk : point) :
  nth_error sources i = Some xi ->
  nth_error sources j = Some xj ->
  nth_error sources k = Some xk ->
  i <> j -> j <> k -> i <> k ->
  distinctLengths (sideLength xi xj) (sideLength xj xk) = true ->
  distinctLengths (sideLength xj xk) (sideLength xk xi) = true ->
  distinctLengths (sideLength xi xj) (sideLength xk xi) = true ->
  exists t,
    arrangeTriplet sources (i, j, k) = Ok t
    /\ arrangeTriplet sources (j, k, i) = Ok t
    /\ arrangeTriplet sources (k, i, j) = Ok t
    /\ arrangeTriplet sources (j, i, k) = Ok t
    /\ arrangeTriplet sources (i, k, j) = Ok t
    /\ arrangeTriplet sources (k, j, i) = Ok t.
Proof.
  intros Ei Ej Ek Hij Hjk Hik HAB HBC HAC.
  apply elem_Ok in Ei, Ej, Ek.
  destruct (orderVertices_permutations _ _ _ i j k HAB HBC HAC Hij Hjk Hik)
    as (P1 & P2 & P3 & P4 & P5).
  eexists; unfold arrangeTriplet; rewrite Ei, Ej, Ek; cbn [bind].
  rewrite (sideLength_sym xj xi), (sideLength_sym xk xj), (sideLength_sym xi xk).
  rewrite P1, P2, P3, P4, P5.
  repeat split; reflexivity.
Qed.

(** C3 as stated fails: on a triangle with two sides of equal length the
    stable sort leaves the tied sides in the order they were given, and two
    orders of the same three indices are arranged differently. *)
Lemma arrangeTriplet_tie_depends_on_order :
  arrangeTriplet isosceles (0, 1, 2) = Ok (1, 2, 0)
  /\ arrangeTriplet isosceles (0, 2, 1) = Ok (0, 2, 1).
Proof. split; vm_compute; reflexivity. Qed.

Lemma arrangeTriplet_permutation_invariant_witness :
  exists t,
    arrangeTriplet fourPoints (0, 1, 2) = Ok t
    /\ arrangeTriplet fourPoints (1, 2, 0) = Ok t
    /\ arrangeTriplet fourPoints (2, 0, 1) = Ok t
    /\ arrangeTriplet fourPoints (1, 0, 2) = Ok t
    /\ arrangeTriplet fourPoints (0, 2, 1) = Ok t
    /\ arrangeTriplet fourPoints (2, 1, 0) = Ok t.
Proof.
  apply (arrangeTriplet_permutation_invariant fourPoints 0 1 2
           (0, 0)%float (4, 0)%float (0, 3)%float);
    try reflexivity; try lia; vm_compute; reflexivity.
Defined.

(** *** generateInvariants returns *)

Lemma mapM_total {A B} (f : A -> result B) (l : list A) :
  (forall x, In x l -> exists y, f x = Ok y) -> exists l', mapM f l = Ok l'.
Proof.
  induction l as [|x l IH]; simpl; intros Hf; [eauto|].
  destruct (Hf x (or_introl eq_refl)) as (y & ->).
  destruct IH as (ys & ->); [auto|]; simpl; eauto.
Qed.

Lemma countItems_keys (arr : list nat) (x : nat) :
  In x (map fst (countItems arr)) -> In x arr.
Proof.
  unfold countItems.
  assert (G : forall o,
             In x (map fst (fold_left
                              (fun count item =>
                                 obj_set count item
                                   (match obj_get count item with
                                    | Some n => n
                                    | None => 0
                                    end + 1)) arr o)) ->
             In x (map fst o) \/ In x arr).
  { induction arr as [|y arr IH]; simpl; intros o Hin; [auto|].
    destruct (IH _ Hin) as [H|H]; [|auto].
    destruct (obj_set_keys _ _ _ _ H) as [->|H']; auto. }
  intros Hin; destruct (G [] Hin) as [[]|H]; exact H.
Qed.

Lemma countItems_nonempty (y : nat) (arr : list nat) :
  countItems (y :: arr) <> [].
Proof.
  unfold countItems; simpl.
  assert (G : forall l (o : obj nat), o <> [] ->
             fold_left
               (fun count item =>
                  obj_set count item
                    (match obj_get count item with
                     | Some n => n
                     | None => 0
                     end + 1)) l o <> []).
  { induction l as [|z l IH]; simpl; intros o Ho; [exact Ho|].
    apply IH; destruct o as [|[k v] o]; [congruence|]; simpl.
    destruct (z <? k); [discriminate|].
    destruct (z =? k); discriminate. }
  apply G; discriminate.
Qed.

(** The vertex [mostCommon] puts first is one of the vertices it counted. *)
Lemma mostCommon_In (y : nat) (arr : list nat) :
  In (parseInt_entries (mostCommon (y :: arr))) (y :: arr).
Proof.
  apply countItems_keys.
  unfold mostCommon, Object_entries.
  pose proof (Array_sort_perm (fun a b : nat * nat => snd b <? snd a)
                (countItems (y :: arr))) as P.
  destruct (Array_sort _ (countItems (y :: arr))) as [|[k c] l] eqn:E.
  - apply Permutation_nil in P.
    exfalso; exact (countItems_nonempty y arr P).
  - simpl; apply (Permutation_in _ (Permutation_map fst P)); left; reflexivity.
Qed.

Lemma orderVertices_In (L0 L1 L2 : number) (i j k : nat) :
  let '(a, b, c) := orderVertices [L0; L1; L2] i j k in
  In a [i; j; k] /\ In b [i; j; k] /\ In c [i; j; k].
Proof.
  unfold orderVertices; rewrite sortedIndices3.
  destruct (lt L1 L0), (lt L2 L1), (lt L2 L0); cbn [nth app];
    repeat split;
    match goal with
    | |- In (parseInt_entries (mostCommon (?y :: ?arr))) _ =>
        pose proof (mostCommon_In y arr) as H; simpl in H |- *; tauto
    end.
Qed.

Lemma combinations3_In (indx : list nat) (x y z : nat) :
  In (x, y, z) (combinations3 indx) -> In x indx /\ In y indx /\ In z indx.
Proof.
  assert (P : forall x0 l, In (x, y, z) (pairsFrom x0 l) ->
                           x = x0 /\ In y l /\ In z l).
  { intros x0 l; induction l as [|y0 l IH]; simpl; [contradiction|].
    intros Hin; apply in_app_or in Hin; destruct Hin as [Hin|Hin].
    - apply in_map_iff in Hin; destruct Hin as (z0 & E & Hz).
      inversion E; subst; auto.
    - destruct (IH Hin) as (? & ? & ?); auto. }
  induction indx as [|x0 l IH]; simpl; [contradiction|].
  intros Hin; apply in_app_or in Hin; destruct Hin as [Hin|Hin].
  - destruct (P _ _ Hin) as (-> & ? & ?); auto.
  - destruct (IH Hin) as (? & ? & ?); auto.
Qed.

Section Returns.
Context {K : KDTree}.
Hypothesis knn_ok : knn_in_range K.

Lemma arrangeTriplet_in_range (sources : list point) (i j k : nat) :
  i < length sources -> j < length sources -> k < length sources ->
  exists a b c,
    arrangeTriplet sources (i, j, k) = Ok (a, b, c)
    /\ a < length sources /\ b < length sources /\ c < length sources.
Proof.
  intros Hi Hj Hk; unfold arrangeTriplet.
  destruct (elem_in_range _ _ Hi) as (x1 & ->).
  destruct (elem_in_range _ _ Hj) as (x2 & ->).
  destruct (elem_in_range _ _ Hk) as (x3 & ->); cbn [bind].
  pose proof (orderVertices_In (sideLength x1 x2) (sideLength x2 x3)
                (sideLength x3 x1) i j k) as H.
  destruct (orderVertices _ i j k) as [[a b] c].
  exists a, b, c; split; [reflexivity|].
  simpl in H; destruct H as (Ha & Hb & Hc).
  repeat split;
    match goal with
    | H : _ \/ _ |- ?v < _ =>
        match type of H with context [v] =>
          destruct H as [<-|[<-|[<-|[]]]]; assumption
        end
    end.
Qed.

(** With a kd-tree that answers with indices of its points,
    [generateInvariants] throws nothing. *)
Lemma generateInvariants_returns (sources : list point) :
  exists inv tri,
    allInvariants sources = Ok (inv, tri)
    /\ generateInvariants sources
       = Ok (selectAt inv (uniqInd inv), selectAt tri (uniqInd inv)).
Proof.
  assert (H : exists r, allInvariants sources = Ok r).
  { unfold allInvariants.
    destruct (mapM_total
                (fun asrc =>
                   tri <- asterismsOf sources asrc ;;
                   inv <- mapM (featuresOf sources) tri ;;
                   Ok (inv, tri)) sources) as (perAnchor & ->);
      [|simpl; eauto].
    intros asrc _; unfold asterismsOf.
    set (indx := kd_knn sources asrc _).
    assert (Hin : forall t, In t (combinations3 indx) ->
                    exists a b c,
                      arrangeTriplet sources t = Ok (a, b, c)
                      /\ a < length sources /\ b < length sources
                      /\ c < length sources).
    { intros [[x y] z] Ht; apply combinations3_In in Ht.
      destruct Ht as (Hx & Hy & Hz).
      apply arrangeTriplet_in_range; eapply knn_ok; eassumption. }
    destruct (mapM_total (arrangeTriplet sources) (combinations3 indx))
      as (tri & Etri).
    { intros t Ht; destruct (Hin t Ht) as (a & b & c & E & _); eauto. }
    rewrite Etri; cbn [bind].
    destruct (mapM_total (featuresOf sources) tri) as (inv & ->);
      [|simpl; eauto].
    intros [[a b] c] Ht.
    destruct (mapM_In _ _ _ Etri _ Ht) as (t0 & Ht0 & E0).
    destruct (Hin t0 Ht0) as (a' & b' & c' & E & Ha & Hb & Hc).
    rewrite E in E0; inversion E0; subst.
    unfold featuresOf.
    destruct (elem_in_range _ _ Ha) as (x1 & ->).
    destruct (elem_in_range _ _ Hb) as (x2 & ->).
    destruct (elem_in_range _ _ Hc) as (x3 & ->); simpl; eauto. }
  destruct H as ([inv tri] & E); exists inv, tri; split; [exact E|].
  unfold generateInvariants; rewrite E; reflexivity.
Qed.
End Returns.

Lemma In_firstn {A} (n : nat) (l : list A) (x : A) :
  In x (firstn n l) -> In x l.
Proof.
  intros Hin; rewrite <- (firstn_skipn n l); apply in_or_app; left; exact Hin.
Qed.

Lemma bruteKDTree_in_range : knn_in_range bruteKDTree.
Proof.
  intros pts q k i Hin; simpl in Hin; unfold bruteKnn in Hin.
  apply In_firstn in Hin.
  apply in_map_iff in Hin; destruct Hin as ([i' p] & <- & Hin).
  apply (Permutation_in _ (Array_sort_perm _ _)) in Hin.
  unfold indexed in Hin; apply in_combine_l in Hin.
  apply in_seq in Hin; simpl; lia.
Qed.

Lemma generateInvariants_coincident_not_unique_witness :
  (exists t1 t2 t3,
     @allInvariants bruteKDTree [(0, 0); (0, 0); (0, 0)]%float
     = Ok ([(nan, nan); (nan, nan); (nan, nan)], [t1; t2; t3])
     /\ @generateInvariants bruteKDTree [(0, 0); (0, 0); (0, 0)]%float
        = Ok ([(nan, nan); (nan, nan); (nan, nan)], [t1; t2; t3]))
  /\ length (nodup descriptor_eq_dec [(nan, nan); (nan, nan); (nan, nan)]) = 1.
Proof.
  apply (@generateInvariants_coincident_not_unique bruteKDTree).
  - apply bruteKDTree_in_range.
  - intros q; unfold kd_knn, bruteKDTree, bruteKnn.
    rewrite length_firstn, length_map.
    rewrite (Permutation_length (Array_sort_perm _ _)).
    reflexivity.
Defined.

(** ** Further properties of the module *)

(** *** More on the comparison of numbers *)

Module NumberOrder.

Local Open Scope Z_scope.

Lemma binary_round_not_nan (s : bool) (m : positive) (e : Z) :
  binary_round prec emax s m e <> S754_nan.
Proof.
  unfold binary_round; destruct (shl_align m e _) as [mz ez].
  apply Float64.binary_round_aux_not_nan; lia.
Qed.

Lemma binary_normalize_not_nan (m e : Z) (sz : bool) :
  binary_normalize prec emax m e sz <> S754_nan.
Proof.
  destruct m as [|p|p]; simpl; try discriminate; apply binary_round_not_nan.
Qed.

Local Close Scope Z_scope.

Lemma sub_finite_not_NaN (a b : number) :
  isFinite a = true -> isFinite b = true -> isNaN (sub a b) = false.
Proof.
  intros Ha Hb; apply Float64.isNaN_false; unfold sub; rewrite sub_spec.
  destruct (Float64.isFinite_spec a Ha) as [[sa Ea]|(sa & ma & ea & Ea & _)];
    destruct (Float64.isFinite_spec b Hb) as [[sb Eb]|(sb & mb & eb & Eb & _)];
    rewrite Ea, Eb; unfold SF64sub, SFsub.
  - destruct sa, sb; discriminate.
  - discriminate.
  - discriminate.
  - apply binary_normalize_not_nan.
Qed.

Lemma sq_not_NaN (a : number) : isNaN a = false -> isNaN (sq a) = false.
Proof.
  rewrite !Float64.isNaN_false; unfold sq; rewrite mul_spec.
  destruct (Prim2SF a) as [s|s| |s m e]; intros H; simpl; try discriminate;
    [congruence|].
  apply Float64.binary_round_aux_not_nan; lia.
Qed.

Lemma add_nonneg_not_NaN (a b : number) :
  nonneg a -> nonneg b -> isNaN a = false -> isNaN b = false ->
  isNaN (add a b) = false.
Proof.
  unfold nonneg; rewrite !Float64.isNaN_false; unfold add; rewrite add_spec.
  destruct (Prim2SF a) as [sa|sa| |sa ma ea], (Prim2SF b) as [sb|sb| |sb mb eb];
    simpl; intros Na Nb Ha Hb; subst; simpl; try discriminate; try congruence.
  apply binary_round_not_nan.
Qed.

Lemma lexCompare_opp e1 m1 e2 m2 :
  lexCompare e2 m2 e1 m1 = CompOpp (lexCompare e1 m1 e2 m2).
Proof.
  destruct (lexCompare e1 m1 e2 m2) eqn:E; simpl.
  - apply Float64.lexCompare_Eq in E; destruct E as [-> ->].
    apply Float64.lexCompare_Eq; auto.
  - apply Float64.lexCompare_swap; exact E.
  - apply Float64.lexCompare_swap in E; exact E.
Qed.

Lemma SFcompare_swap (x y : spec_float) :
  SFcompare y x = option_map CompOpp (SFcompare x y).
Proof.
  destruct x as [sx|sx| |sx mx ex], y as [sy|sy| |sy my ey];
    rewrite ?Float64.SFcompare_finite;
    try (destruct sx); try (destruct sy); try reflexivity; simpl;
    rewrite (lexCompare_opp ex mx ey my); try reflexivity.
Qed.

(** Two numbers that compare equal compare alike with every number. *)
Lemma SFcompare_Eq_l (x y z : spec_float) :
  SFcompare x y = Some Eq -> SFcompare x z = SFcompare y z.
Proof.
  destruct x as [sx|sx| |sx mx ex], y as [sy|sy| |sy my ey];
    rewrite ?Float64.SFcompare_finite;
    try (destruct sx); try (destruct sy); try discriminate; intros E;
    try (destruct z as [sz|sz| |sz mz ez]; reflexivity).
  - inversion E as [E']; apply CompOpp_iff in E'; simpl in E'.
    apply Float64.lexCompare_Eq in E'; destruct E' as [-> ->]; reflexivity.
  - inversion E as [E'].
    apply Float64.lexCompare_Eq in E'; destruct E' as [-> ->]; reflexivity.
Qed.

Lemma SFcompare_Eq_r (x y z : spec_float) :
  SFcompare x y = Some Eq -> SFcompare z x = SFcompare z y.
Proof.
  intros E; rewrite (SFcompare_swap x z), (SFcompare_swap y z).
  rewrite (SFcompare_Eq_l x y z E); reflexivity.
Qed.

Lemma strictEq_lt_l (a b c : number) :
  strictEq a b = true -> lt a c = lt b c.
Proof.
  unfold strictEq, lt; rewrite eqb_spec, !ltb_spec; unfold SFeqb, SFltb.
  destruct (SFcompare (Prim2SF a) (Prim2SF b)) as [[]|] eqn:E;
    try discriminate; intros _.
  rewrite (SFcompare_Eq_l _ _ (Prim2SF c) E); reflexivity.
Qed.

Lemma strictEq_lt_r (a b c : number) :
  strictEq a b = true -> lt c a = lt c b.
Proof.
  unfold strictEq, lt; rewrite eqb_spec, !ltb_spec; unfold SFeqb, SFltb.
  destruct (SFcompare (Prim2SF a) (Prim2SF b)) as [[]|] eqn:E;
    try discriminate; intros _.
  rewrite (SFcompare_Eq_r _ _ (Prim2SF c) E); reflexivity.
Qed.

Lemma le_cases (a b : number) :
  le a b = lt a b || strictEq a b.
Proof.
  unfold le, lt, strictEq; rewrite leb_spec, ltb_spec, eqb_spec.
  unfold SFleb, SFltb, SFeqb.
  destruct (SFcompare (Prim2SF a) (Prim2SF b)) as [[]|]; reflexivity.
Qed.

Lemma strictEq_sym (a b : number) : strictEq a b = strictEq b a.
Proof.
  unfold strictEq; rewrite !eqb_spec; unfold SFeqb.
  rewrite (SFcompare_swap (Prim2SF a) (Prim2SF b)).
  destruct (SFcompare (Prim2SF a) (Prim2SF b)) as [[]|]; reflexivity.
Qed.

(** Numbers that are neither above nor below each other are [===]. *)
Lemma strictEq_of_not_lt (a b : number) :
  isNaN a = false -> isNaN b = false ->
  lt a b = false -> lt b a = false -> strictEq a b = true.
Proof.
  intros Ha Hb Hab Hba.
  pose proof (Float64.le_total a b Ha Hb Hba) as Hle.
  rewrite le_cases, Hab in Hle; exact Hle.
Qed.

Lemma le_trans (a b c : number) :
  le a b = true -> le b c = true -> le a c = true.
Proof.
  rewrite !le_cases, !orb_true_iff; intros [Hab|Hab] [Hbc|Hbc].
  - left; apply (Float64.lt_trans a b c); assumption.
  - left; rewrite <- (strictEq_lt_r b c a Hbc); exact Hab.
  - left; rewrite (strictEq_lt_l a b c Hab); exact Hbc.
  - right; unfold strictEq in *; rewrite eqb_spec in *; unfold SFeqb in *.
    destruct (SFcompare (Prim2SF a) (Prim2SF b)) as [[]|] eqn:E;
      try discriminate.
    rewrite (SFcompare_Eq_l _ _ _ E); exact Hbc.
Qed.

Lemma le_antisym (a b : number) :
  nonneg a -> nonneg b -> le a b = true -> le b a = true -> a = b.
Proof.
  intros Na Nb Hab Hba; apply Float64.strictEq_eq; try assumption.
  rewrite le_cases in Hab, Hba.
  destruct (strictEq a b) eqn:E; [reflexivity|].
  rewrite strictEq_sym, E in Hba; rewrite !orb_false_r in *.
  rewrite (Float64.lt_asym _ _ Hab) in Hba; discriminate.
Qed.

Lemma lt_NaN_l (a t : number) : isNaN a = true -> lt a t = false.
Proof.
  intros Ha; destruct (lt a t) eqn:E; [|reflexivity].
  destruct (Float64.lt_not_NaN _ _ E); congruence.
Qed.

(** [Math.max(a, b)] is below a bound exactly when [a] and [b] are. *)
Lemma lt_max2 (a b t : number) : lt (max2 a b) t = lt a t && lt b t.
Proof.
  unfold max2.
  assert (Hnan : lt nan t = false) by (apply lt_NaN_l; reflexivity).
  destruct (isNaN a) eqn:Na; simpl.
  { rewrite (lt_NaN_l a t Na), Hnan; reflexivity. }
  destruct (isNaN b) eqn:Nb; simpl.
  { rewrite (lt_NaN_l b t Nb), andb_false_r, Hnan; reflexivity. }
  destruct (lt a b) eqn:Eab.
  { destruct (lt b t) eqn:Ebt; [|apply eq_sym, andb_false_r].
    rewrite (Float64.lt_trans a b t Eab Ebt); reflexivity. }
  destruct (lt b a) eqn:Eba.
  { destruct (lt a t) eqn:Eat; [|reflexivity].
    rewrite (Float64.lt_trans b a t Eba Eat); reflexivity. }
  pose proof (strictEq_of_not_lt a b Na Nb Eab Eba) as E.
  destruct (get_sign a); rewrite (strictEq_lt_l a b t E);
    destruct (lt b t); reflexivity.
Qed.

Lemma lt_neg_infinity (a t : number) :
  lt a t = true -> lt neg_infinity t = true.
Proof.
  unfold lt; rewrite !ltb_spec.
  change (Prim2SF neg_infinity) with (S754_infinity true).
  unfold SFltb.
  destruct (Prim2SF a) as [sa|sa| |sa ma ea], (Prim2SF t) as [st|st| |st mt et];
    simpl; try discriminate; try reflexivity;
    destruct sa, st; simpl; try discriminate; reflexivity.
Qed.

Lemma lt_fold_max2 (l : list number) (acc t : number) :
  lt (fold_left max2 l acc) t = lt acc t && forallb (fun r => lt r t) l.
Proof.
  revert acc; induction l as [|x l IH]; intros acc; simpl.
  - rewrite andb_true_r; reflexivity.
  - rewrite IH, lt_max2, andb_assoc; reflexivity.
Qed.

(** [Math.max(...r)] of at least one number is below a bound exactly when
    every one of the numbers is. *)
Lemma lt_Math_max (x : number) (l : list number) (t : number) :
  lt (Math_max (x :: l)) t = forallb (fun r => lt r t) (x :: l).
Proof.
  unfold Math_max; rewrite lt_fold_max2; simpl.
  destruct (lt x t) eqn:E; [|apply andb_false_r].
  rewrite (lt_neg_infinity x t E); reflexivity.
Qed.

End NumberOrder.

(** The squared distance of two points with finite coordinates is a number:
    it may overflow to [Infinity], it is never NaN. *)
Lemma sqDist_finite_not_NaN (p q : point) :
  finitePoint p = true -> finitePoint q = true -> isNaN (sqDist p q) = false.
Proof.
  unfold finitePoint; intros Hp Hq.
  apply andb_true_iff in Hp, Hq; destruct Hp as [Hp1 Hp2], Hq as [Hq1 Hq2].
  unfold sqDist; apply NumberOrder.add_nonneg_not_NaN;
    try apply Float64.sq_nonneg; apply NumberOrder.sq_not_NaN, NumberOrder.sub_finite_not_NaN; assumption.
Qed.

Lemma sideLength_finite_not_NaN (p q : point) :
  finitePoint p = true -> finitePoint q = true ->
  isNaN (sideLength p q) = false.
Proof.
  intros Hp Hq; unfold sideLength.
  rewrite Float64.sqrt_NaN_iff by apply sqDist_nonneg.
  apply sqDist_finite_not_NaN; assumption.
Qed.

(** *** The descriptor does not depend on the order of the vertices *)

Ltac perm3 :=
  solve [ reflexivity
        | apply perm_swap
        | apply perm_skip, perm_swap
        | eapply perm_trans; [apply perm_swap | apply perm_skip, perm_swap]
        | eapply perm_trans; [apply perm_skip, perm_swap | apply perm_swap]
        | eapply perm_trans;
          [apply perm_swap
          | eapply perm_trans; [apply perm_skip, perm_swap | apply perm_swap]] ].

(** An ascending list of numbers that are not negative is determined by
    its elements. *)
Lemma sorted_perm_eq (l l' : list number) :
  (forall x, In x l -> nonneg x) ->
  StronglySorted (fun a b => le a b = true) l ->
  StronglySorted (fun a b => le a b = true) l' ->
  Permutation l l' -> l = l'.
Proof.
  revert l'; induction l as [|a l IH]; intros l' Hn Hs Hs' P.
  - apply Permutation_nil in P; subst; reflexivity.
  - destruct l' as [|a' l'];
      [apply Permutation_sym, Permutation_nil in P; discriminate|].
    inversion Hs as [|? ? Hs1 Ha]; inversion Hs' as [|? ? Hs1' Ha']; subst.
    rewrite Forall_forall in Ha, Ha'.
    assert (E : a = a').
    { assert (H1 : In a (a' :: l')) by (apply (Permutation_in _ P); left; auto).
      assert (H2 : In a' (a :: l))
        by (apply (Permutation_in _ (Permutation_sym P)); left; auto).
      destruct H1 as [H1|H1]; [auto|].
      destruct H2 as [H2|H2]; [auto|].
      apply NumberOrder.le_antisym; auto.
      - apply Hn; left; reflexivity.
      - apply Hn; right; exact H2. }
    subst a'; f_equal.
    apply IH; auto.
    + intros x Hx; apply Hn; right; exact Hx.
    + apply (Permutation_cons_inv P).
Qed.

(** Three numbers, neither negative nor NaN, are sorted into the same array
    in whatever order they are given. *)
Lemma sort3_perm (a b c a' b' c' : number) :
  (forall x, In x [a; b; c] -> nonneg x /\ isNaN x = false) ->
  Permutation [a'; b'; c'] [a; b; c] ->
  Array_sort minusBefore [a'; b'; c'] = Array_sort minusBefore [a; b; c].
Proof.
  intros Hx P.
  assert (Hx' : forall x, In x [a'; b'; c'] -> nonneg x /\ isNaN x = false).
  { intros x Hin; apply Hx, (Permutation_in _ P), Hin. }
  destruct (sort3_sorted a b c) as (s0 & s1 & s2 & E & Ps & H01 & H12);
    try (apply Hx; simpl; auto).
  destruct (sort3_sorted a' b' c') as (t0 & t1 & t2 & E' & Pt & G01 & G12);
    try (apply Hx'; simpl; auto).
  rewrite E, E'.
  assert (S3 : forall u v w, le u v = true -> le v w = true ->
                 StronglySorted (fun a b => le a b = true) [u; v; w]).
  { intros u v w Huv Hvw; repeat constructor; auto.
    apply (NumberOrder.le_trans u v w); assumption. }
  apply sorted_perm_eq; auto.
  - intros x Hin; apply Hx', (Permutation_in _ Pt), Hin.
  - rewrite Pt, P, <- Ps; reflexivity.
Qed.

Lemma invariantFeatures_sides (x1 x2 x3 y1 y2 y3 : point) :
  (forall s, In s [sqDist x1 x2; sqDist x2 x3; sqDist x1 x3] ->
             isNaN s = false) ->
  Permutation [sqDist y1 y2; sqDist y2 y3; sqDist y1 y3]
    [sqDist x1 x2; sqDist x2 x3; sqDist x1 x3] ->
  invariantFeatures y1 y2 y3 = invariantFeatures x1 x2 x3.
Proof.
  intros Hn P; unfold invariantFeatures.
  rewrite (fun H => sort3_perm _ _ _ _ _ _ H P); [reflexivity|].
  intros s Hs; split; [|apply Hn, Hs].
  destruct Hs as [<-|[<-|[<-|[]]]]; apply sqDist_nonneg.
Qed.

(** X1: the descriptor of a triangle does not depend on the order in which
    its three vertices are given, when their coordinates are finite. *)
Theorem invariantFeatures_symmetric (x1 x2 x3 : point) :
  finitePoint x1 = true -> finitePoint x2 = true -> finitePoint x3 = true ->
  invariantFeatures x2 x3 x1 = invariantFeatures x1 x2 x3
  /\ invariantFeatures x3 x1 x2 = invariantFeatures x1 x2 x3
  /\ invariantFeatures x2 x1 x3 = invariantFeatures x1 x2 x3
  /\ invariantFeatures x1 x3 x2 = invariantFeatures x1 x2 x3
  /\ invariantFeatures x3 x2 x1 = invariantFeatures x1 x2 x3.
Proof.
  intros F1 F2 F3.
  assert (Hn : forall s, In s [sqDist x1 x2; sqDist x2 x3; sqDist x1 x3] ->
                         isNaN s = false).
  { intros s [<-|[<-|[<-|[]]]]; apply sqDist_finite_not_NaN; assumption. }
  repeat split; apply invariantFeatures_sides; try exact Hn;
    rewrite ?(sqDist_sym x2 x1), ?(sqDist_sym x3 x2), ?(sqDist_sym x3 x1);
    perm3.
Qed.

Lemma invariantFeatures_symmetric_witness :
  invariantFeatures (4, 0)%float (0, 3)%float (0, 0)%float
  = invariantFeatures (0, 0)%float (4, 0)%float (0, 3)%float.
Proof.
  refine (proj1 (invariantFeatures_symmetric (0, 0)%float (4, 0)%float
                   (0, 3)%float _ _ _)); reflexivity.
Defined.

(** *** mostCommon *)

Lemma obj_get_set {V} (o : obj V) (k k0 : nat) (v : V) :
  obj_get (obj_set o k v) k0 = if Nat.eqb k0 k then Some v else obj_get o k0.
Proof.
  destruct (Nat.eqb_spec k0 k) as [->|Hk].
  - apply obj_get_set_same.
  - apply obj_get_set_other; auto.
Qed.

(** The counting object holds, for every item met, the number of times it
    was met. *)
Lemma countItems_get (arr : list nat) (k : nat) :
  obj_get (countItems arr) k
  = if in_dec Nat.eq_dec k arr then Some (count_occ Nat.eq_dec arr k) else None.
Proof.
  unfold countItems.
  assert (G : forall o,
             obj_get
               (fold_left
                  (fun count item =>
                     obj_set count item
                       (match obj_get count item with
                        | Some n => n
                        | None => 0
                        end + 1)) arr o) k
             = match obj_get o k with
               | Some c => Some (c + count_occ Nat.eq_dec arr k)
               | None => if in_dec Nat.eq_dec k arr
                         then Some (count_occ Nat.eq_dec arr k) else None
               end).
  { induction arr as [|x arr IH]; intros o; cbn [fold_left].
    - simpl; destruct (obj_get o k); [f_equal; lia | reflexivity].
    - rewrite IH, obj_get_set; cbn [count_occ].
      destruct (Nat.eqb_spec k x) as [->|Hk].
      + destruct (Nat.eq_dec x x) as [_|]; [|congruence].
        destruct (in_dec Nat.eq_dec x (x :: arr)) as [_|Hn];
          [|exfalso; apply Hn; left; reflexivity].
        destruct (obj_get o x); f_equal; lia.
      + destruct (Nat.eq_dec x k) as [E|_]; [congruence|].
        destruct (obj_get o k); [reflexivity|].
        destruct (in_dec Nat.eq_dec k arr) as [Hi|Hi],
                 (in_dec Nat.eq_dec k (x :: arr)) as [Hj|Hj];
          try reflexivity; exfalso.
        * apply Hj; right; exact Hi.
        * destruct Hj as [E|Hj]; [congruence | exact (Hi Hj)]. }
  apply (G []).
Qed.

Lemma countItems_sorted (arr : list nat) : keysSorted (countItems arr).
Proof.
  unfold countItems.
  assert (G : forall o : obj nat, keysSorted o ->
             keysSorted
               (fold_left
                  (fun count item =>
                     obj_set count item
                       (match obj_get count item with
                        | Some n => n
                        | None => 0
                        end + 1)) arr o)).
  { induction arr as [|x arr IH]; intros o Ho; cbn [fold_left]; [exact Ho|].
    apply IH, obj_set_sorted, Ho. }
  apply G; constructor.
Qed.

Lemma countItems_entries (arr : list nat) (k c : nat) :
  In (k, c) (countItems arr)
  <-> In k arr /\ c = count_occ Nat.eq_dec arr k.
Proof.
  pose proof (countItems_get arr k) as Hg.
  split.
  - intros Hin; apply (obj_In_get _ _ _ (countItems_sorted arr)) in Hin.
    rewrite Hin in Hg.
    destruct (in_dec Nat.eq_dec k arr); inversion Hg; auto.
  - intros [Hin ->]; apply obj_get_In; rewrite Hg.
    destruct (in_dec Nat.eq_dec k arr); [reflexivity | contradiction].
Qed.

Abbreviation byCount := (fun a b : nat * nat => Nat.ltb (snd b) (snd a)).

Lemma insert_moreCommon (x : nat * nat) (acc : list (nat * nat)) :
  StronglySorted moreCommon acc ->
  (forall y, In y acc -> fst y < fst x) ->
  StronglySorted moreCommon (insert byCount x acc).
Proof.
  induction 1 as [|y l Hs IH Hy]; intros Hk; simpl.
  - repeat constructor.
  - rewrite Forall_forall in Hy.
    destruct (Nat.ltb_spec (snd y) (snd x)) as [Hlt|Hge].
    + constructor; [constructor; [exact Hs | apply Forall_forall; exact Hy]|].
      apply Forall_forall; intros z [<-|Hz]; [left; exact Hlt|].
      destruct (Hy z Hz) as [H|[H _]]; left; lia.
    + constructor; [apply IH; intros z Hz; apply Hk; right; exact Hz|].
      apply Forall_forall; intros z Hz.
      apply (Permutation_in _ (insert_perm byCount x l)) in Hz.
      destruct Hz as [<-|Hz]; [|apply Hy, Hz].
      specialize (Hk y (or_introl eq_refl)).
      unfold moreCommon; lia.
Qed.

Lemma sort_moreCommon (l acc : list (nat * nat)) :
  StronglySorted Nat.lt (map fst l) ->
  StronglySorted moreCommon acc ->
  (forall y x, In y acc -> In x l -> fst y < fst x) ->
  StronglySorted moreCommon
    (fold_left (fun acc x => insert byCount x acc) l acc).
Proof.
  revert acc; induction l as [|x l IH]; intros acc Hl Hacc Hk; simpl;
    [exact Hacc|].
  inversion Hl as [|? ? Hl' Hx]; subst.
  apply IH; [exact Hl' | |].
  - apply insert_moreCommon; [exact Hacc|].
    intros y Hy; apply Hk; [exact Hy | left; reflexivity].
  - intros y z Hy Hz.
    apply (Permutation_in _ (insert_perm byCount x acc)) in Hy.
    destruct Hy as [<-|Hy]; [|apply Hk; [exact Hy | right; exact Hz]].
    rewrite Forall_forall in Hx; apply Hx, in_map, Hz.
Qed.

(** X2: [mostCommon] counts: it lists every item of the array once, with
    the number of its occurrences, by decreasing count and, among equal
    counts, by ascending item; so the item [parseInt] reads off its result is
    an item that occurs most often, the smallest such item. *)
Theorem mostCommon_counts (arr : list nat) :
  (forall k c, In (k, c) (mostCommon arr)
               <-> In k arr /\ c = count_occ Nat.eq_dec arr k)
  /\ NoDup (map fst (mostCommon arr))
  /\ StronglySorted moreCommon (mostCommon arr)
  /\ (arr <> [] ->
      let v := parseInt_entries (mostCommon arr) in
      In v arr
      /\ forall x, In x arr ->
           count_occ Nat.eq_dec arr x < count_occ Nat.eq_dec arr v
           \/ (count_occ Nat.eq_dec arr x = count_occ Nat.eq_dec arr v
               /\ v <= x)).
Proof.
  pose proof (Array_sort_perm byCount (countItems arr)) as P.
  assert (Hin : forall k c, In (k, c) (mostCommon arr)
                            <-> In k arr /\ c = count_occ Nat.eq_dec arr k).
  { intros k c; rewrite <- countItems_entries.
    unfold mostCommon, Object_entries; split; apply Permutation_in;
      [exact P | symmetry; exact P]. }
  assert (Hs : StronglySorted moreCommon (mostCommon arr)).
  { unfold mostCommon, Object_entries, Array_sort.
    apply sort_moreCommon; [apply countItems_sorted | constructor|].
    intros y x []. }
  split; [exact Hin|]. split; [|split; [exact Hs|]].
  - unfold mostCommon, Object_entries.
    apply (Permutation_NoDup (Permutation_map fst (Permutation_sym P))).
    apply keysSorted_NoDup, countItems_sorted.
  - intros Hne v.
    destruct (mostCommon arr) as [|[k c] rest] eqn:E.
    { destruct arr as [|y arr]; [congruence|].
      assert (Hy : In (y, count_occ Nat.eq_dec (y :: arr) y) [])
        by (apply Hin; split; [left|]; reflexivity).
      destruct Hy. }
    subst v; cbn [parseInt_entries].
    destruct (proj1 (Hin k c) (or_introl eq_refl)) as [Hk Hc].
    split; [exact Hk|].
    intros x Hx.
    assert (Hxe : In (x, count_occ Nat.eq_dec arr x) ((k, c) :: rest))
      by (apply Hin; auto).
    inversion Hs as [|? ? _ Hhead]; subst.
    rewrite Forall_forall in Hhead.
    destruct Hxe as [Hxe|Hxe].
    + inversion Hxe; subst; right; split; [reflexivity | lia].
    + specialize (Hhead _ Hxe); unfold moreCommon in Hhead; simpl in Hhead.
      lia.
Qed.

(** *** arrangeTriplet puts the vertices in order *)

Lemma orderVertices_cases (L0 L1 L2 : number) (i j k : nat) :
  i <> j -> j <> k -> i <> k ->
  orderVertices [L0; L1; L2] i j k
  = if lt L1 L0
    then if lt L2 L1 then (k, j, i)
         else if lt L2 L0 then (k, i, j) else (j, i, k)
    else if lt L2 L0 then (i, j, k)
         else if lt L2 L1 then (i, k, j) else (j, k, i).
Proof.
  intros Hij Hjk Hik.
  unfold orderVertices; rewrite sortedIndices3.
  destruct (lt L1 L0), (lt L2 L1), (lt L2 L0); cbn [nth app];
    repeat first [ rewrite mostCommon_mid by lia
                 | rewrite mostCommon_ends by lia ];
    reflexivity.
Qed.


(** Whatever the side lengths, the arranged triple holds the three
    vertices. *)
Lemma orderVertices_Permutation (L0 L1 L2 : number) (i j k : nat) :
  i <> j -> j <> k -> i <> k ->
  exists a b c,
    orderVertices [L0; L1; L2] i j k = (a, b, c)
    /\ Permutation [a; b; c] [i; j; k].
Proof.
  intros Hij Hjk Hik; rewrite orderVertices_cases by assumption.
  destruct (lt _ _); [destruct (lt _ _); [|destruct (lt _ _)]
                     |destruct (lt _ _); [|destruct (lt _ _)]];
    do 3 eexists; (split; [reflexivity | perm3]).
Qed.

(** X3: [arrangeTriplet] keeps the three vertices: for three distinct
    indices of the point set the arranged triple is a permutation of them,
    whatever the side lengths are (ties and NaN included). *)
Theorem arrangeTriplet_permutes (sources : list point) (i j k : nat) :
  i < length sources -> j < length sources -> k < length sources ->
  i <> j -> j <> k -> i <> k ->
  exists a b c,
    arrangeTriplet sources (i, j, k) = Ok (a, b, c)
    /\ Permutation [a; b; c] [i; j; k].
Proof.
  intros Hi Hj Hk Hij Hjk Hik; unfold arrangeTriplet.
  destruct (elem_in_range _ _ Hi) as (x1 & ->).
  destruct (elem_in_range _ _ Hj) as (x2 & ->).
  destruct (elem_in_range _ _ Hk) as (x3 & ->); cbn [bind].
  destruct (orderVertices_Permutation (sideLength x1 x2) (sideLength x2 x3)
              (sideLength x3 x1) i j k Hij Hjk Hik) as (a & b & c & -> & P).
  exists a, b, c; split; [reflexivity | exact P].
Qed.

Lemma arrangeTriplet_permutes_witness :
  exists a b c,
    arrangeTriplet isosceles (0, 2, 1) = Ok (a, b, c)
    /\ Permutation [a; b; c] [0; 2; 1].
Proof.
  apply (arrangeTriplet_permutes isosceles 0 2 1); simpl; lia.
Defined.

(** X4: the order [arrangeTriplet] gives: in the arranged triple [(a, b, c)]
    of three distinct vertices with finite coordinates, the side from [c] to
    [a] is the shortest, the side from [a] to [b] the middle one and the side
    from [b] to [c] the longest, lengths being compared as computed. *)
Theorem arrangeTriplet_orders_sides
  (sources : list point) (i j k : nat) (xi xj xk : point) :
  nth_error sources i = Some xi ->
  nth_error sources j = Some xj ->
  nth_error sources k = Some xk ->
  i <> j -> j <> k -> i <> k ->
  finitePoint xi = true -> finitePoint xj = true -> finitePoint xk = true ->
  exists a b c xa xb xc,
    arrangeTriplet sources (i, j, k) = Ok (a, b, c)
    /\ nth_error sources a = Some xa
    /\ nth_error sources b = Some xb
    /\ nth_error sources c = Some xc
    /\ le (sideLength xc xa) (sideLength xa xb) = true
    /\ le (sideLength xa xb) (sideLength xb xc) = true.
Proof.
  intros Ei Ej Ek Hij Hjk Hik Fi Fj Fk.
  pose proof (sideLength_finite_not_NaN xi xj Fi Fj) as N0.
  pose proof (sideLength_finite_not_NaN xj xk Fj Fk) as N1.
  pose proof (sideLength_finite_not_NaN xk xi Fk Fi) as N2.
  unfold arrangeTriplet.
  rewrite (proj2 (elem_Ok _ _ _) Ei), (proj2 (elem_Ok _ _ _) Ej),
    (proj2 (elem_Ok _ _ _) Ek); cbn [bind].
  rewrite orderVertices_cases by assumption.
  destruct (lt (sideLength xj xk) (sideLength xi xj)) eqn:E10;
    destruct (lt (sideLength xk xi) (sideLength xj xk)) eqn:E21;
    destruct (lt (sideLength xk xi) (sideLength xi xj)) eqn:E20;
    do 6 eexists;
    (split; [reflexivity|]);
    (split; [eassumption|]); (split; [eassumption|]); (split; [eassumption|]);
    rewrite ?(sideLength_sym xj xi), ?(sideLength_sym xk xj),
      ?(sideLength_sym xi xk);
    split;
    first [ apply Float64.lt_le; assumption
          | apply Float64.le_total; assumption ].
Qed.

Lemma arrangeTriplet_orders_sides_witness :
  exists a b c xa xb xc,
    arrangeTriplet isosceles (0, 1, 2) = Ok (a, b, c)
    /\ nth_error isosceles a = Some xa
    /\ nth_error isosceles b = Some xb
    /\ nth_error isosceles c = Some xc
    /\ le (sideLength xc xa) (sideLength xa xb) = true
    /\ le (sideLength xa xb) (sideLength xb xc) = true.
Proof.
  apply (arrangeTriplet_orders_sides isosceles 0 1 2
           (0, 0)%float (2, 0)%float (1, 5)%float);
    try reflexivity; lia.
Defined.

(** *** The triple loop *)

Lemma pairsFrom_In (x0 : nat) (l : list nat) (x y z : nat) :
  NoDup l -> In (x, y, z) (pairsFrom x0 l) ->
  x = x0 /\ In y l /\ In z l /\ y <> z.
Proof.
  induction l as [|y0 l IH]; simpl; [contradiction|].
  intros Hnd Hin; inversion Hnd as [|? ? Hy0 Hnd']; subst.
  apply in_app_or in Hin; destruct Hin as [Hin|Hin].
  - apply in_map_iff in Hin; destruct Hin as (z0 & E & Hz).
    inversion E; subst; repeat split; auto.
    intros ->; contradiction.
  - destruct (IH Hnd' Hin) as (? & ? & ? & ?); auto.
Qed.

(** The triples of the triple loop have three different entries when the
    neighbour list has no index twice. *)
Lemma combinations3_distinct (indx : list nat) (x y z : nat) :
  NoDup indx -> In (x, y, z) (combinations3 indx) ->
  x <> y /\ y <> z /\ x <> z.
Proof.
  induction indx as [|x0 l IH]; simpl; [contradiction|].
  intros Hnd Hin; inversion Hnd as [|? ? Hx0 Hnd']; subst.
  apply in_app_or in Hin; destruct Hin as [Hin|Hin]; [|auto].
  destruct (pairsFrom_In _ _ _ _ _ Hnd' Hin) as (-> & Hy & Hz & Hyz).
  repeat split; auto; intros ->; contradiction.
Qed.

Lemma pairsFrom_length (x : nat) (l : list nat) :
  2 * length (pairsFrom x l) = length l * (length l - 1).
Proof.
  induction l as [|y l IH]; [reflexivity|].
  cbn [pairsFrom length]; rewrite length_app, length_map.
  unfold triangle in *; revert IH; generalize (length (pairsFrom x l)); generalize (length l).
  intros [|n] p IH; [simpl in *; lia|].
  replace (S n - 1) with n in * by lia.
  replace (S (S n) - 1) with (S n) by lia.
  nia.
Qed.

(** The triple loop makes one triple of every three positions. *)
Lemma combinations3_length (indx : list nat) :
  6 * length (combinations3 indx)
  = length indx * (length indx - 1) * (length indx - 2).
Proof.
  induction indx as [|x l IH]; [reflexivity|].
  cbn [combinations3 length]; rewrite length_app.
  pose proof (pairsFrom_length x l) as H.
  unfold triangle in *; revert IH H; generalize (length (pairsFrom x l));
    generalize (length (combinations3 l)); generalize (length l).
  intros [|[|n]] c p IH H.
  - simpl in *; lia.
  - simpl in *; lia.
  - replace (S (S n) - 1) with (S n) in * by lia.
    replace (S (S n) - 2) with n in * by lia.
    replace (S (S (S n)) - 1) with (S (S n)) by lia.
    replace (S (S (S n)) - 2) with (S n) by lia.
    nia.
Qed.

Lemma pairsFrom_positions (x0 : nat) (l : list nat) (x y z : nat) :
  In (x, y, z) (pairsFrom x0 l) <->
  x = x0 /\ exists j k, j < k /\ nth_error l j = Some y
                        /\ nth_error l k = Some z.
Proof.
  induction l as [|y0 l IH]; simpl.
  - split; [contradiction|].
    intros (_ & j & k & _ & Hj & _); destruct j; discriminate.
  - rewrite in_app_iff, IH, in_map_iff; split.
    + intros [(z0 & E & Hz)|(-> & j & k & Hjk & Hj & Hk)].
      * inversion E; subst; split; [reflexivity|].
        apply In_nth_error in Hz; destruct Hz as (k & Hk).
        exists 0, (S k); repeat split; [lia | exact Hk].
      * split; [reflexivity|].
        exists (S j), (S k); repeat split; [lia | exact Hj | exact Hk].
    + intros (-> & j & k & Hjk & Hj & Hk).
      destruct k as [|k]; [lia|]; simpl in Hk.
      destruct j as [|j]; simpl in Hj.
      * inversion Hj; subst; left; exists z; split; [reflexivity|].
        apply (nth_error_In _ _ Hk).
      * right; split; [reflexivity|].
        exists j, k; repeat split; [lia | exact Hj | exact Hk].
Qed.

(** X5: the triple loop of [generateInvariants] makes one triple of every
    three positions [i < j < k] of the neighbour list, in this order of the
    entries, and no other triple: a list of [n] neighbours gives
    [n (n - 1) (n - 2) / 6] triples. *)
Theorem combinations3_positions (indx : list nat) :
  (forall x y z,
     In (x, y, z) (combinations3 indx) <->
     exists i j k,
       i < j /\ j < k
       /\ nth_error indx i = Some x
       /\ nth_error indx j = Some y
       /\ nth_error indx k = Some z)
  /\ 6 * length (combinations3 indx)
     = length indx * (length indx - 1) * (length indx - 2).
Proof.
  split; [|apply combinations3_length].
  induction indx as [|x0 l IH]; intros x y z; simpl.
  - split; [contradiction|].
    intros (i & j & k & _ & _ & Hi & _); destruct i; discriminate.
  - rewrite in_app_iff, IH, pairsFrom_positions; split.
    + intros [(-> & j & k & Hjk & Hj & Hk)|(i & j & k & Hij & Hjk & Hi & Hj & Hk)].
      * exists 0, (S j), (S k); repeat split; try lia; assumption.
      * exists (S i), (S j), (S k); repeat split; try lia; assumption.
    + intros (i & j & k & Hij & Hjk & Hi & Hj & Hk).
      destruct j as [|j]; [lia|]; destruct k as [|k]; [lia|].
      simpl in Hj, Hk.
      destruct i as [|i]; simpl in Hi.
      * inversion Hi; subst; left; split; [reflexivity|].
        exists j, k; repeat split; [lia | exact Hj | exact Hk].
      * right; exists i, j, k; repeat split; try lia; assumption.
Qed.

(** *** What generateInvariants returns *)

Lemma mapM_Forall2 {A B} (f : A -> result B) (l : list A) (l' : list B) :
  mapM f l = Ok l' -> Forall2 (fun x y => f x = Ok y) l l'.
Proof.
  revert l'; induction l as [|x l IH]; simpl; intros l' E.
  - inversion E; constructor.
  - apply bind_Ok in E; destruct E as (y & Ey & E).
    apply bind_Ok in E; destruct E as (ys & Eys & E).
    inversion E; subst; constructor; auto.
Qed.

Lemma Forall2_nth_error {A B} (R : A -> B -> Prop) (l : list A) (l' : list B)
  (i : nat) :
  Forall2 R l l' ->
  match nth_error l i, nth_error l' i with
  | Some x, Some y => R x y
  | None, None => True
  | _, _ => False
  end.
Proof.
  intros H; revert i; induction H as [|x y l l' Hxy _ IH]; intros [|i]; simpl;
    auto.
  apply IH.
Qed.

Lemma selectAt_Forall2 {A B} (R : A -> B -> Prop) (l : list A) (l' : list B)
  (idx : list nat) :
  Forall2 R l l' -> Forall2 R (selectAt l idx) (selectAt l' idx).
Proof.
  intros H; unfold selectAt; induction idx as [|i idx IH]; simpl;
    [constructor|].
  pose proof (Forall2_nth_error R l l' i H) as Hi.
  destruct (nth_error l i), (nth_error l' i); try contradiction; simpl; auto.
Qed.

Lemma selectAt_In {A} (arr : list A) (idx : list nat) (x : A) :
  In x (selectAt arr idx) -> In x arr.
Proof.
  unfold selectAt; rewrite in_flat_map; intros (i & _ & Hx).
  destruct (nth_error arr i) eqn:E; [|contradiction].
  destruct Hx as [<-|[]]; apply (nth_error_In _ _ E).
Qed.

Lemma concat_length_le {A} (ls : list (list A)) (n : nat) :
  Forall (fun l => length l <= n) ls -> length (concat ls) <= n * length ls.
Proof.
  induction 1 as [|l ls Hl _ IH]; simpl; [lia|].
  rewrite length_app; nia.
Qed.

Lemma NoDup_firstn {A} (n : nat) (l : list A) : NoDup l -> NoDup (firstn n l).
Proof.
  revert n; induction l as [|x l IH]; intros [|n] Hnd; simpl;
    try constructor; inversion Hnd; subst; auto.
  intros Hin; apply In_firstn in Hin; contradiction.
Qed.

Lemma map_fst_combine {A B} (l : list A) (l' : list B) :
  length l = length l' -> map fst (combine l l') = l.
Proof.
  revert l'; induction l as [|x l IH]; intros [|y l'] E; simpl in *;
    try discriminate; [reflexivity|].
  rewrite IH by lia; reflexivity.
Qed.

Lemma bruteKDTree_distinct : knn_distinct bruteKDTree.
Proof.
  intros pts q k; simpl; unfold bruteKnn.
  apply NoDup_firstn.
  eapply Permutation_NoDup;
    [apply Permutation_sym, Permutation_map, Array_sort_perm|].
  unfold indexed; rewrite map_fst_combine;
    [apply seq_NoDup | rewrite length_seq; reflexivity].
Qed.

Section Output.
Context {K : KDTree}.

Lemma allInvariants_Forall2 (sources : list point)
  (inv : list descriptor) (tri : list triangle) :
  allInvariants sources = Ok (inv, tri) ->
  Forall2 (fun t d => featuresOf sources t = Ok d) tri inv.
Proof.
  unfold allInvariants; intros E.
  apply bind_Ok in E; destruct E as (perAnchor & Em & E).
  inversion E; subst; clear E.
  assert (Hall : Forall (fun p => Forall2 (fun t d => featuresOf sources t = Ok d)
                                    (snd p) (fst p)) perAnchor).
  { apply Forall_forall; intros [i t] Hin.
    destruct (mapM_In _ _ _ Em _ Hin) as (asrc & _ & Ea).
    apply bind_Ok in Ea; destruct Ea as (t' & _ & Ea).
    apply bind_Ok in Ea; destruct Ea as (i' & Ei & Ea).
    inversion Ea; subst; simpl.
    apply mapM_Forall2; exact Ei. }
  clear Em; induction Hall as [|[i t] l Hit _ IH]; simpl; [constructor|].
  apply Forall2_app; assumption.
Qed.

(** Every triangle counted before the duplicate removal is an arranged
    triple of three of the neighbours found for one of the points. *)
Lemma allInvariants_triangles (sources : list point)
  (inv : list descriptor) (tri : list triangle) (t : triangle) :
  allInvariants sources = Ok (inv, tri) -> In t tri ->
  exists asrc t0,
    In asrc sources
    /\ In t0 (combinations3
                (kd_knn sources asrc
                   (Nat.min (length sources) NUM_NEAREST_NEIGHBORS)))
    /\ arrangeTriplet sources t0 = Ok t.
Proof.
  unfold allInvariants; intros E Ht.
  apply bind_Ok in E; destruct E as (perAnchor & Em & E).
  inversion E; subst; clear E.
  apply in_concat in Ht; destruct Ht as (ts & Hts & Ht).
  apply in_map_iff in Hts; destruct Hts as ([i' t'] & <- & Hin).
  destruct (mapM_In _ _ _ Em _ Hin) as (asrc & Hasrc & Ea).
  apply bind_Ok in Ea; destruct Ea as (t'' & Et & Ea).
  apply bind_Ok in Ea; destruct Ea as (i'' & Ei & Ea).
  inversion Ea; subst; simpl in Ht.
  unfold asterismsOf in Et.
  destruct (mapM_In _ _ _ Et _ Ht) as (t0 & Ht0 & E0).
  exists asrc, t0; auto.
Qed.

(** X6: the two arrays [generateInvariants] returns go together: they have
    the same length, and the descriptor at a position is [invariantFeatures]
    of the three points the triangle at that position names. *)
Theorem generateInvariants_aligned (sources : list point)
  (inv : list descriptor) (tri : list triangle) :
  generateInvariants sources = Ok (inv, tri) ->
  length inv = length tri
  /\ Forall2 (fun t d =>
                let '(a, b, c) := t in
                exists x1 x2 x3,
                  nth_error sources a = Some x1
                  /\ nth_error sources b = Some x2
                  /\ nth_error sources c = Some x3
                  /\ d = invariantFeatures x1 x2 x3) tri inv.
Proof.
  unfold generateInvariants; intros E.
  apply bind_Ok in E; destruct E as ([inv0 tri0] & E0 & E).
  inversion E; subst; clear E.
  pose proof (allInvariants_Forall2 _ _ _ E0) as H.
  apply (selectAt_Forall2 _ _ _ (uniqInd inv0)) in H.
  split; [symmetry; apply (Forall2_length H)|].
  eapply Forall2_impl; [|exact H].
  intros [[a b] c] d Ef; unfold featuresOf in Ef.
  apply bind_Ok in Ef; destruct Ef as (x1 & E1 & Ef).
  apply bind_Ok in Ef; destruct Ef as (x2 & E2 & Ef).
  apply bind_Ok in Ef; destruct Ef as (x3 & E3 & Ef).
  apply elem_Ok in E1, E2, E3; inversion Ef; subst.
  exists x1, x2, x3; auto.
Qed.

(** X7: with a kd-tree that answers [knn] with indices of its points, none
    twice, [generateInvariants] throws nothing, and every triangle it
    returns has three different vertices, all indices of [sources]. *)
Theorem generateInvariants_triangles (sources : list point) :
  knn_in_range K -> knn_distinct K ->
  exists inv tri,
    generateInvariants sources = Ok (inv, tri)
    /\ forall a b c, In (a, b, c) tri ->
         a < length sources /\ b < length sources /\ c < length sources
         /\ a <> b /\ b <> c /\ a <> c.
Proof.
  intros Hr Hd.
  destruct (generateInvariants_returns Hr sources) as (inv0 & tri0 & E0 & E).
  exists (selectAt inv0 (uniqInd inv0)), (selectAt tri0 (uniqInd inv0)).
  split; [exact E|].
  intros a b c Hin; apply selectAt_In in Hin.
  destruct (allInvariants_triangles _ _ _ _ E0 Hin)
    as (asrc & [[x y] z] & _ & Ht0 & Ea).
  destruct (combinations3_In _ _ _ _ Ht0) as (Hx & Hy & Hz).
  apply Hr in Hx, Hy, Hz.
  destruct (combinations3_distinct _ _ _ _ (Hd _ _ _) Ht0) as (Hxy & Hyz & Hxz).
  assert (P : Permutation [a; b; c] [x; y; z]).
  { unfold arrangeTriplet in Ea.
    apply bind_Ok in Ea; destruct Ea as (x1 & _ & Ea).
    apply bind_Ok in Ea; destruct Ea as (x2 & _ & Ea).
    apply bind_Ok in Ea; destruct Ea as (x3 & _ & Ea).
    destruct (orderVertices_Permutation (sideLength x1 x2) (sideLength x2 x3)
                (sideLength x3 x1) x y z Hxy Hyz Hxz)
      as (a' & b' & c' & Eo & P).
    rewrite Eo in Ea; inversion Ea; subst; exact P. }
  assert (Hin3 : forall v, In v [a; b; c] -> v < length sources).
  { intros v Hv; apply (Permutation_in _ P) in Hv.
    destruct Hv as [<-|[<-|[<-|[]]]]; assumption. }
  assert (Hnd : NoDup [a; b; c]).
  { apply (Permutation_NoDup (Permutation_sym P)).
    repeat constructor; simpl; intuition. }
  inversion Hnd as [|? ? Ha Hnd']; inversion Hnd' as [|? ? Hb _]; subst.
  simpl in Ha, Hb.
  repeat split; try (apply Hin3; simpl; auto); intuition.
Qed.

(** X8: at most ten triangles are made for each point: with a kd-tree that
    answers [knn(q, k)] with at most [k] indices, the arrays returned hold
    at most [10 * sources.length] entries. *)
Theorem generateInvariants_count (sources : list point)
  (inv : list descriptor) (tri : list triangle) :
  knn_bounded K ->
  generateInvariants sources = Ok (inv, tri) ->
  length tri <= 10 * length sources /\ length inv <= 10 * length sources.
Proof.
  intros Hb E; unfold generateInvariants in E.
  apply bind_Ok in E; destruct E as ([inv0 tri0] & E0 & E).
  inversion E; subst; clear E.
  destruct (allInvariants_shape _ _ _ E0) as [Hlen0 _].
  assert (Hlen : length (selectAt inv0 (uniqInd inv0))
                 = length (selectAt tri0 (uniqInd inv0))).
  { rewrite !selectAt_length; auto using uniqInd_bound.
    intros i Hi; rewrite <- Hlen0; apply uniqInd_bound, Hi. }
  rewrite Hlen.
  cut (length (selectAt tri0 (uniqInd inv0)) <= 10 * length sources);
    [tauto|].
  assert (H1 : length (selectAt tri0 (uniqInd inv0)) <= length tri0).
  { rewrite selectAt_length.
    - rewrite <- Hlen0; apply uniqInd_length.
    - intros i Hi; rewrite <- Hlen0; apply uniqInd_bound, Hi. }
  apply Nat.le_trans with (1 := H1).
  unfold allInvariants in E0.
  apply bind_Ok in E0; destruct E0 as (perAnchor & Em & E0).
  inversion E0; subst; clear E0.
  rewrite <- (mapM_Ok_length _ _ _ Em), <- (length_map snd perAnchor).
  apply concat_length_le, Forall_forall; intros ts Hts.
  apply in_map_iff in Hts; destruct Hts as ([i t] & <- & Hin).
  destruct (mapM_In _ _ _ Em _ Hin) as (asrc & _ & Ea).
  apply bind_Ok in Ea; destruct Ea as (t' & Et & Ea).
  apply bind_Ok in Ea; destruct Ea as (i' & _ & Ea).
  inversion Ea; subst; simpl.
  unfold asterismsOf in Et; apply mapM_Ok_length in Et; rewrite Et.
  set (indx := kd_knn _ _ _).
  assert (Hl : length indx <= 5).
  { unfold indx; eapply Nat.le_trans; [apply Hb|].
    unfold NUM_NEAREST_NEIGHBORS; apply Nat.le_min_r. }
  pose proof (combinations3_length indx) as H6.
  destruct (length indx) as [|[|[|[|[|[|n]]]]]]; simpl in H6; lia.
Qed.

End Output.

Lemma generateInvariants_aligned_witness :
  length [(1.25, 0x1.5555555555555p+0)%float] = length [(0, 1, 2)].
Proof.
  refine (proj1 (@generateInvariants_aligned bruteKDTree
                   [(0, 0); (4, 0); (0, 3)]%float
                   [(1.25, 0x1.5555555555555p+0)%float] [(0, 1, 2)] _)).
  vm_compute; reflexivity.
Defined.

Lemma generateInvariants_triangles_witness :
  exists inv tri,
    @generateInvariants bruteKDTree testSources = Ok (inv, tri)
    /\ forall a b c, In (a, b, c) tri ->
         a < length testSources /\ b < length testSources
         /\ c < length testSources /\ a <> b /\ b <> c /\ a <> c.
Proof.
  apply (@generateInvariants_triangles bruteKDTree testSources
           bruteKDTree_in_range bruteKDTree_distinct).
Defined.

Lemma generateInvariants_count_witness :
  length [(0, 1, 2)] <= 10 * 3.
Proof.
  refine (proj1 (@generateInvariants_count bruteKDTree
                   [(0, 0); (4, 0); (0, 3)]%float
                   [(1.25, 0x1.5555555555555p+0)%float] [(0, 1, 2)]
                   bruteKDTree_bounded _)).
  vm_compute; reflexivity.
Defined.

(** *** The threshold test of a candidate *)

Section Threshold.
Context {N : Nudged}.
Variables source target : list point.

(** X9: [getError] gives one number for each candidate, and a candidate
    passes the test [testErr[i] < thresh] exactly when the residual of each
    of its three vertex pairs is below [thresh]. *)
Theorem getError_threshold (data : list candidate) (approxT : transform)
  (thresh : number) (testErr : list number) :
  MatchTransform_getError source target data approxT = Ok testErr ->
  length testErr = length data
  /\ forall i s1 t1 s2 t2 s3 t3,
       nth_error data i = Some ((s1, t1), (s2, t2), (s3, t3)) ->
       exists p1 q1 p2 q2 p3 q3,
         nth_error source s1 = Some p1 /\ nth_error target t1 = Some q1
         /\ nth_error source s2 = Some p2 /\ nth_error target t2 = Some q2
         /\ nth_error source s3 = Some p3 /\ nth_error target t3 = Some q3
         /\ belowAt testErr thresh i
            = lt (residual approxT p1 q1) thresh
              && lt (residual approxT p2 q2) thresh
              && lt (residual approxT p3 q3) thresh.
Proof.
  unfold MatchTransform_getError; intros E.
  split; [apply (mapM_Ok_length _ _ _ E)|].
  apply mapM_Forall2 in E.
  intros i s1 t1 s2 t2 s3 t3 Hi.
  pose proof (Forall2_nth_error _ _ _ i E) as H; rewrite Hi in H.
  unfold belowAt; destruct (nth_error testErr i) as [e|]; [|contradiction].
  unfold sourcePointsOf, targetPointsOf in H; simpl in H.
  apply bind_Ok in H; destruct H as (ps & Eps & H).
  apply bind_Ok in Eps; destruct Eps as (p1 & E1 & Eps).
  apply bind_Ok in Eps; destruct Eps as (ps1 & Eps1 & Eps).
  apply bind_Ok in Eps1; destruct Eps1 as (p2 & E2 & Eps1).
  apply bind_Ok in Eps1; destruct Eps1 as (ps2 & Eps2 & Eps1).
  apply bind_Ok in Eps2; destruct Eps2 as (p3 & E3 & Eps2).
  inversion Eps2; inversion Eps1; inversion Eps; subst; clear Eps Eps1 Eps2.
  apply bind_Ok in H; destruct H as (qs & Eqs & H).
  apply bind_Ok in Eqs; destruct Eqs as (q1 & F1 & Eqs).
  apply bind_Ok in Eqs; destruct Eqs as (qs1 & Eqs1 & Eqs).
  apply bind_Ok in Eqs1; destruct Eqs1 as (q2 & F2 & Eqs1).
  apply bind_Ok in Eqs1; destruct Eqs1 as (qs2 & Eqs2 & Eqs1).
  apply bind_Ok in Eqs2; destruct Eqs2 as (q3 & F3 & Eqs2).
  inversion Eqs2; inversion Eqs1; inversion Eqs; subst; clear Eqs Eqs1 Eqs2.
  inversion H; subst; clear H.
  apply elem_Ok in E1, E2, E3, F1, F2, F3.
  exists p1, q1, p2, q2, p3, q3; repeat (split; [assumption|]).
  unfold residuals; cbn [combine map fst snd].
  rewrite NumberOrder.lt_Math_max; simpl; rewrite andb_true_r, andb_assoc; reflexivity.
Qed.

End Threshold.

Lemma getError_threshold_witness :
  length [0%float; 0%float] = length twoMatches.
Proof.
  refine (proj1 (@getError_threshold translationNudged fourPoints fourPoints
                   twoMatches (0, 0)%float PIXEL_TOL [0%float; 0%float] _)).
  vm_compute; reflexivity.
Defined.

(** *** ransac *)

Lemma filter_StronglySorted {A} (R : A -> A -> Prop) (f : A -> bool)
  (l : list A) :
  StronglySorted R l -> StronglySorted R (filter f l).
Proof.
  induction 1 as [|x l Hs IH Hx]; simpl; [constructor|].
  destruct (f x); [|exact IH].
  constructor; [exact IH|].
  rewrite Forall_forall in *; intros y Hy.
  apply filter_In in Hy; apply Hx, Hy.
Qed.

Lemma seq_StronglySorted (start len : nat) :
  StronglySorted Nat.lt (seq start len).
Proof.
  revert start; induction len as [|len IH]; intros start; simpl;
    constructor; [apply IH|].
  apply Forall_forall; intros y Hy; apply in_seq in Hy; lia.
Qed.

Lemma filterByPos_length (keep : nat -> bool) (pos : nat) (idxs : list nat) :
  length (filterByPos keep pos idxs) <= length idxs.
Proof.
  revert pos; induction idxs as [|x idxs IH]; intros pos; simpl; [lia|].
  destruct (keep pos); simpl; specialize (IH (S pos)); lia.
Qed.

Section RansacResult.
Variables D T : Type.
Variable data : list D.
Variable model : Model D T.
Variable thresh : number.
Variable minMatches : nat.

Lemma refine_Ok (betterFit bestFit : T) (idxs : list nat) :
  refine data model thresh betterFit = Ok (bestFit, idxs) ->
  exists testErr betterData,
    getError model data betterFit = Ok testErr
    /\ idxs = filter (belowAt testErr thresh) (seq 0 (length data))
    /\ pick data idxs = Ok betterData
    /\ fit model betterData = Ok bestFit.
Proof.
  unfold refine; intros E.
  apply bind_Ok in E; destruct E as (testErr & Ee & E).
  apply bind_Ok in E; destruct E as (betterData & Ed & E).
  apply bind_Ok in E; destruct E as (fit' & Ef & E).
  inversion E; subst; eauto 6.
Qed.


(** What [ransac] returns is what the last of the three refinement passes
    returns. *)
Lemma ransac_Ok_refine (rand : nat -> nat) (bestFit : T)
  (bestInlierIdxs : list nat) :
  ransac data model thresh minMatches rand = Ok (bestFit, bestInlierIdxs) ->
  exists betterFit,
    refine data model thresh betterFit = Ok (bestFit, bestInlierIdxs).
Proof.
  rewrite ransac_unfold; intros E.
  apply bind_Ok in E; destruct E as ([goodFit|] & _ & E); [|discriminate].
  unfold refine3 in E.
  apply bind_Ok in E; destruct E as ([f1 i1] & _ & E).
  apply bind_Ok in E; destruct E as ([f2 i2] & _ & E).
  apply bind_Ok in E; destruct E as ([f3 i3] & E3 & E).
  inversion E; subst; eauto.
Qed.

Lemma ransac_Ok_in_range (rand : nat -> nat) (bestFit : T)
  (bestInlierIdxs : list nat) :
  ransac data model thresh minMatches rand = Ok (bestFit, bestInlierIdxs) ->
  forall i, In i bestInlierIdxs -> i < length data.
Proof.
  intros E i Hi.
  destruct (ransac_Ok_refine _ _ _ E) as (f & Ef).
  destruct (refine_Ok _ _ _ Ef) as (testErr & _ & _ & -> & _).
  apply filter_In in Hi; destruct Hi as [Hi _].
  apply in_seq in Hi; lia.
Qed.

Lemma trial_supporters (allIdxs : list nat) (iterI : nat)
  (maybeInliers alsoInliers : list D) :
  iterI < length allIdxs ->
  trial data model thresh allIdxs iterI = Ok (maybeInliers, alsoInliers) ->
  length alsoInliers < length allIdxs.
Proof.
  intros Hi Et; unfold trial in Et.
  apply bind_Ok in Et; destruct Et as (m & _ & Et).
  apply bind_Ok in Et; destruct Et as (tp & _ & Et).
  apply bind_Ok in Et; destruct Et as (mm & _ & Et).
  apply bind_Ok in Et; destruct Et as (te & _ & Et).
  apply bind_Ok in Et; destruct Et as (al & Eal & Et).
  inversion Et; subst.
  apply mapM_Ok_length in Eal; rewrite Eal.
  eapply Nat.le_lt_trans; [apply filterByPos_length|].
  unfold slice; rewrite length_app, length_firstn, !length_skipn; lia.
Qed.


(** The supporters of a sample are fewer than the candidates. *)
Lemma ransac_few_candidates (rand : nat -> nat) (r : T * list nat) :
  length data <= minMatches ->
  ransac data model thresh minMatches rand <> Ok r.
Proof.
  intros Hle E.
  destruct (ransac_Ok_accepted _ _ _ _ _ _ _ _ E) as (k & m & a & Hk & Et & Ha).
  apply trial_supporters in Et;
    rewrite shuffle_length, length_seq in *; lia.
Qed.

(** X10: the sample does not support itself: when [minMatches] is not
    below the number of candidates [ransac] returns no transform, it
    throws; and on no candidate at all what it throws is the exhaustion
    error. *)
Theorem ransac_needs_supporters (rand : nat -> nat) :
  length data <= minMatches ->
  (exists e, ransac data model thresh minMatches rand = Throw e)
  /\ (data = [] ->
      ransac data model thresh minMatches rand = Throw MatchesExhausted).
Proof.
  intros Hle; split.
  - pose proof (fun r => ransac_few_candidates rand r Hle) as Hno.
    destruct (ransac data model thresh minMatches rand) as [r|e];
      [destruct (Hno r eq_refl) | eauto].
  - intros ->; reflexivity.
Qed.

Lemma refine_refinedFrom (betterFit bestFit : T) (idxs : list nat) :
  refine data model thresh betterFit = Ok (bestFit, idxs) ->
  refinedFrom data model thresh betterFit idxs bestFit.
Proof.
  intros E.
  destruct (refine_Ok _ _ _ E) as (testErr & betterData & Ee & Ei & Ed & Ef).
  exists testErr, betterData.
  split; [exact Ee|].
  split; [rewrite Ei; apply filter_StronglySorted, seq_StronglySorted|].
  split; [|split; assumption].
  intros i; rewrite Ei, filter_In, in_seq; simpl; intuition lia.
Qed.

(** X11: what [ransac] returns, through the three refinement passes: the
    transform [goodFit] of the accepted sample and its supporters is
    refined into [fit1], [fit1] into [fit2] and [fit2] into the transform
    returned; at each pass the inliers are the candidates whose error under
    the transform of the pass before is below the threshold, and the new
    transform is their fit. So the inlier indices returned are indices of
    [data], in ascending order and none twice, they are the candidates
    below the threshold under [fit2], and the transform returned is the fit
    of the candidates at these indices, in this order. *)
Theorem ransac_result (rand : nat -> nat) (bestFit : T)
  (bestInlierIdxs : list nat) :
  ransac data model thresh minMatches rand = Ok (bestFit, bestInlierIdxs) ->
  StronglySorted Nat.lt bestInlierIdxs
  /\ (forall i, In i bestInlierIdxs -> i < length data)
  /\ (exists goodFit fit1 fit2 idxs1 idxs2,
        (exists iterI maybeInliers alsoInliers,
           iterI < length data
           /\ trial data model thresh (shuffle rand (seq 0 (length data)))
                iterI = Ok (maybeInliers, alsoInliers)
           /\ minMatches <= length alsoInliers
           /\ fit model (maybeInliers ++ alsoInliers) = Ok goodFit)
        /\ refinedFrom data model thresh goodFit idxs1 fit1
        /\ refinedFrom data model thresh fit1 idxs2 fit2
        /\ refinedFrom data model thresh fit2 bestInlierIdxs bestFit).
Proof.
  intros E.
  assert (Hchain : exists goodFit fit1 fit2 idxs1 idxs2,
             search data model thresh minMatches
               (shuffle rand (seq 0 (length data))) (seq 0 (length data))
             = Ok (Some goodFit)
             /\ refine data model thresh goodFit = Ok (fit1, idxs1)
             /\ refine data model thresh fit1 = Ok (fit2, idxs2)
             /\ refine data model thresh fit2 = Ok (bestFit, bestInlierIdxs)).
  { rewrite ransac_unfold in E.
    apply bind_Ok in E; destruct E as ([goodFit|] & Es & E); [|discriminate].
    unfold refine3 in E.
    apply bind_Ok in E; destruct E as ([f1 i1] & E1 & E).
    apply bind_Ok in E; destruct E as ([f2 i2] & E2 & E).
    apply bind_Ok in E; destruct E as ([f3 i3] & E3 & E).
    inversion E; subst.
    exists goodFit, f1, f2, i1, i2; auto. }
  destruct Hchain as (goodFit & fit1 & fit2 & idxs1 & idxs2
                      & Es & E1 & E2 & E3).
  pose proof (refine_refinedFrom _ _ _ E3) as R3.
  split; [|split].
  - destruct R3 as (te & bd & _ & Hs & _); exact Hs.
  - destruct R3 as (te & bd & _ & _ & Hin & _).
    intros i Hi; apply Hin, Hi.
  - exists goodFit, fit1, fit2, idxs1, idxs2.
    split; [|repeat split; try apply refine_refinedFrom; assumption].
    destruct (search_Some _ _ _ _ _ _ _ _ _ Es)
      as (k & m & a & Hin & Et & Hlen & Ef).
    apply in_seq in Hin.
    exists k, m, a; repeat split; auto; lia.
Qed.

End RansacResult.

(** X12: every candidate is the sample of one pass of the search loop and is
    tested in all the others: the shuffled [allIdxs] is a permutation of the
    indices of [data], and at each [iterI] it is split into the one index
    sampled and the indices tested. *)
Theorem ransac_samples_partition (rand : nat -> nat) (nData iterI : nat) :
  iterI < nData ->
  let allIdxs := shuffle rand (seq 0 nData) in
  let maybeIdxs := slice allIdxs iterI (iterI + 1) in
  let testIdxs := slice allIdxs 0 iterI ++ skipn (iterI + 1) allIdxs in
  Permutation allIdxs (seq 0 nData)
  /\ maybeIdxs = [nth iterI allIdxs 0]
  /\ Permutation (maybeIdxs ++ testIdxs) (seq 0 nData).
Proof.
  intros Hi allIdxs maybeIdxs testIdxs.
  assert (P : Permutation allIdxs (seq 0 nData)) by apply shuffle_perm.
  assert (Hl : iterI < length allIdxs)
    by (rewrite (Permutation_length P), length_seq; exact Hi).
  assert (Es : skipn iterI allIdxs
               = nth iterI allIdxs 0 :: skipn (iterI + 1) allIdxs).
  { clearbody allIdxs; clear P maybeIdxs testIdxs Hi.
    revert iterI Hl; induction allIdxs as [|x l IH]; intros [|i] Hl;
      simpl in *; try lia; [reflexivity|].
    apply IH; lia. }
  assert (Em : maybeIdxs = [nth iterI allIdxs 0]).
  { unfold maybeIdxs, slice.
    replace (iterI + 1 - iterI) with 1 by lia.
    rewrite Es; reflexivity. }
  split; [exact P|]. split; [exact Em|].
  rewrite Em; unfold testIdxs, slice; rewrite Nat.sub_0_r; simpl.
  pose proof (firstn_skipn iterI allIdxs) as F; rewrite Es in F.
  apply Permutation_trans
    with (firstn iterI allIdxs
            ++ nth iterI allIdxs 0 :: skipn (iterI + 1) allIdxs);
    [apply Permutation_middle | rewrite F; exact P].
Qed.

Lemma ransac_samples_partition_witness :
  Permutation (shuffle (fun i => i + 2) (seq 0 4)) (seq 0 4).
Proof.
  refine (proj1 (ransac_samples_partition (fun i => i + 2) 4 1 _)); lia.
Defined.


Lemma ransac_needs_supporters_witness :
  exists e, ransac twoMatches selfModel PIXEL_TOL 2 (fun _ => 0) = Throw e.
Proof.
  refine (proj1 (ransac_needs_supporters _ _ twoMatches selfModel
            PIXEL_TOL 2 (fun _ => 0) _)).
  simpl; lia.
Defined.

Lemma ransac_result_witness :
  StronglySorted Nat.lt [0; 1]
  /\ (forall i, In i [0; 1] -> i < length twoMatches)
  /\ (exists goodFit fit1 fit2 idxs1 idxs2,
        (exists iterI maybeInliers alsoInliers,
           iterI < length twoMatches
           /\ trial twoMatches selfModel PIXEL_TOL
                (shuffle (fun _ => 0) (seq 0 (length twoMatches))) iterI
              = Ok (maybeInliers, alsoInliers)
           /\ 1 <= length alsoInliers
           /\ fit selfModel (maybeInliers ++ alsoInliers) = Ok goodFit)
        /\ refinedFrom twoMatches selfModel PIXEL_TOL goodFit idxs1 fit1
        /\ refinedFrom twoMatches selfModel PIXEL_TOL fit1 idxs2 fit2
        /\ refinedFrom twoMatches selfModel PIXEL_TOL fit2 [0; 1]
             (0, 0)%float).
Proof.
  apply (ransac_result _ _ twoMatches selfModel PIXEL_TOL 1 (fun _ => 0)
           (0, 0)%float [0; 1]).
  vm_compute; reflexivity.
Defined.

(** *** minMatches *)

(** X13: the number of supporters [findTransform] asks of [ransac] is between
    1 and 10, and it is below the number of candidates exactly when there
    are at least two candidates. *)
Theorem minMatchesOf_bounds (nInvariants : nat) :
  1 <= minMatchesOf nInvariants <= 10
  /\ (minMatchesOf nInvariants < nInvariants <-> 2 <= nInvariants).
Proof.
  assert (H : 1 <= minMatchesOf nInvariants <= 10) by (unfold minMatchesOf; lia).
  split; [exact H|].
  destruct (Nat.le_gt_cases nInvariants 11) as [Hn|Hn]; [|lia].
  do 12 (destruct nInvariants as [|nInvariants];
         [vm_compute; split; intros; lia|]).
  lia.
Qed.

(** *** The candidates of findTransform *)

Lemma mapM_Ok_each {A B} (f : A -> result B) (l : list A) (l' : list B)
  (x : A) :
  mapM f l = Ok l' -> In x l -> exists y, f x = Ok y /\ In y l'.
Proof.
  revert l'; induction l as [|x0 l IH]; simpl; intros l' E Hx;
    [contradiction|].
  apply bind_Ok in E; destruct E as (y0 & Ey0 & E).
  apply bind_Ok in E; destruct E as (ys & Eys & E).
  inversion E; subst; destruct Hx as [->|Hx].
  - exists y0; split; [exact Ey0 | left; reflexivity].
  - destruct (IH _ Eys Hx) as (y & Ey & Hy).
    exists y; split; [exact Ey | right; exact Hy].
Qed.

Lemma indexed_In {A} (l : list A) (i : nat) (x : A) :
  In (i, x) (indexed l) <-> nth_error l i = Some x.
Proof.
  unfold indexed.
  assert (G : forall start, In (i, x) (combine (seq start (length l)) l) <->
                            start <= i /\ nth_error l (i - start) = Some x).
  { induction l as [|y l IH]; intros start; simpl.
    - split; [contradiction|]. intros [_ H]; destruct (i - start); discriminate.
    - rewrite IH; split.
      + intros [E|[Hle Hn]].
        * inversion E; subst; rewrite Nat.sub_diag; auto.
        * split; [lia|].
          replace (i - start) with (S (i - S start)) by lia; exact Hn.
      + intros [Hle Hn].
        destruct (Nat.eq_dec start i) as [->|Hne].
        * rewrite Nat.sub_diag in Hn; inversion Hn; auto.
        * right; split; [lia|].
          replace (i - start) with (S (i - S start)) in Hn by lia; exact Hn. }
  rewrite G, Nat.sub_0_r; intuition lia.
Qed.

Section Candidates.
Context {K : KDTree}.

(** X14: the candidates are the pairs of a source triangle and a target
    triangle that the radius query finds for the source triangle's
    descriptor, no others and each of them; a candidate pairs the vertices
    of the two triangles in their arranged order, first with first, second
    with second, third with third. *)
Theorem matchTriangles_candidates (sourceControlP targetControlP : list point)
  (sourceInvariants targetInvariants : list descriptor)
  (sourceAsterisms targetAsterisms : list triangle)
  (matches : list candidate) :
  generateInvariants sourceControlP = Ok (sourceInvariants, sourceAsterisms) ->
  generateInvariants targetControlP = Ok (targetInvariants, targetAsterisms) ->
  matchTriangles sourceControlP targetControlP = Ok matches ->
  forall m,
    In m matches <->
    exists i sourceInv a b c t2Idx a' b' c',
      nth_error sourceInvariants i = Some sourceInv
      /\ nth_error sourceAsterisms i = Some (a, b, c)
      /\ In t2Idx (kd_rnn targetInvariants sourceInv matchRadius)
      /\ nth_error targetAsterisms t2Idx = Some (a', b', c')
      /\ m = ((a, a'), (b, b'), (c, c')).
Proof.
  intros Es Et; unfold matchTriangles; rewrite Es, Et; cbn [bind].
  set (matchesList := map (fun sourceInv =>
                             kd_rnn targetInvariants sourceInv matchRadius)
                        sourceInvariants).
  intros E; apply bind_Ok in E; destruct E as (perSource & Em & E).
  inversion E; subst; clear E.
  assert (Hml : forall i t2List,
             elem matchesList i = Ok t2List <->
             exists sourceInv,
               nth_error sourceInvariants i = Some sourceInv
               /\ t2List = kd_rnn targetInvariants sourceInv matchRadius).
  { intros i t2List; rewrite elem_Ok; unfold matchesList.
    rewrite nth_error_map; unfold descriptor in *.
    destruct (nth_error sourceInvariants i) as [d|]; simpl; split.
    - intros H; exists d; split; [reflexivity | congruence].
    - intros (d' & H & ->); inversion H; reflexivity.
    - discriminate.
    - intros (d' & H & _); discriminate. }
  intros m; split.
  - intros Hm; apply in_concat in Hm; destruct Hm as (ms & Hms & Hm).
    destruct (mapM_In _ _ _ Em _ Hms) as ([i [[a b] c]] & Hit & Ei).
    apply indexed_In in Hit.
    apply bind_Ok in Ei; destruct Ei as (t2List & Et2 & Ei).
    apply Hml in Et2; destruct Et2 as (sourceInv & Hsi & ->).
    destruct (mapM_In _ _ _ Ei _ Hm) as (t2Idx & Ht2 & E2).
    apply bind_Ok in E2; destruct E2 as ([[a' b'] c'] & Eta & E2).
    apply elem_Ok in Eta; inversion E2; subst.
    exists i, sourceInv, a, b, c, t2Idx, a', b', c'; repeat split; auto.
  - intros (i & sourceInv & a & b & c & t2Idx & a' & b' & c'
            & Hsi & Hsa & Ht2 & Hta & ->).
    assert (Hit : In (i, (a, b, c)) (indexed sourceAsterisms))
      by (apply indexed_In; exact Hsa).
    destruct (mapM_Ok_each _ _ _ _ Em Hit) as (ms & Ems & Hms).
    rewrite (proj2 (Hml i _) (ex_intro _ sourceInv (conj Hsi eq_refl))) in Ems.
    cbn [bind] in Ems.
    destruct (mapM_Ok_each _ _ _ _ Ems Ht2) as (m & Em' & Hm).
    rewrite (proj2 (elem_Ok _ _ _) Hta) in Em'; inversion Em'; subst.
    apply in_concat; exists ms; auto.
Qed.

End Candidates.


Lemma matchTriangles_candidates_witness :
  In (selfMatch (0, 1, 2)) [selfMatch (0, 1, 2)] <->
  exists i sourceInv a b c t2Idx a' b' c',
    nth_error [(1.25, 0x1.5555555555555p+0)%float] i = Some sourceInv
    /\ nth_error [(0, 1, 2)] i = Some (a, b, c)
    /\ In t2Idx (@kd_rnn bruteKDTree [(1.25, 0x1.5555555555555p+0)%float]
                   sourceInv matchRadius)
    /\ nth_error [(0, 1, 2)] t2Idx = Some (a', b', c')
    /\ selfMatch (0, 1, 2) = ((a, a'), (b, b'), (c, c')).
Proof.
  apply (@matchTriangles_candidates bruteKDTree
           (firstn 3 srcFour) (firstn 3 tgtFour)
           [(1.25, 0x1.5555555555555p+0)%float]
           [(1.25, 0x1.5555555555555p+0)%float]
           [(0, 1, 2)] [(0, 1, 2)] [selfMatch (0, 1, 2)]);
    vm_compute; reflexivity.
Defined.

(** *** The exceptions of findTransform *)

Lemma bind_throwsOnly {A B} (P : exn -> Prop) (r : result A)
  (k : A -> result B) :
  throwsOnly P r -> (forall a, throwsOnly P (k a)) -> throwsOnly P (bind r k).
Proof. destruct r as [a|e]; simpl; auto. Qed.

Lemma mapM_throwsOnly {A B} (P : exn -> Prop) (f : A -> result B)
  (l : list A) :
  (forall x, throwsOnly P (f x)) -> throwsOnly P (mapM f l).
Proof.
  intros Hf; induction l as [|x l IH]; simpl; [exact I|].
  apply bind_throwsOnly; [apply Hf|]; intros y.
  apply bind_throwsOnly; [exact IH|]; intros ys; exact I.
Qed.

Lemma elem_throwsOnly {A} (P : exn -> Prop) (arr : list A) (i : nat) :
  P UndefinedRead -> throwsOnly P (elem arr i).
Proof. intros HP; unfold elem; destruct (nth_error arr i); simpl; auto. Qed.

Section RansacThrows.
Variables D T : Type.
Variable data : list D.
Variable model : Model D T.
Variable thresh : number.
Variable minMatches : nat.
Variable P : exn -> Prop.
Hypothesis P_undefined : P UndefinedRead.
Hypothesis P_exhausted : P MatchesExhausted.
Hypothesis fit_P : forall l, throwsOnly P (fit model l).
Hypothesis err_P : forall l t, throwsOnly P (getError model l t).

Lemma pick_throwsOnly (idxs : list nat) : throwsOnly P (pick data idxs).
Proof. unfold pick; apply mapM_throwsOnly; intros i; apply elem_throwsOnly, P_undefined. Qed.

Lemma trial_throwsOnly (allIdxs : list nat) (iterI : nat) :
  throwsOnly P (trial data model thresh allIdxs iterI).
Proof.
  unfold trial.
  apply bind_throwsOnly; [apply pick_throwsOnly|]; intros m.
  apply bind_throwsOnly; [apply pick_throwsOnly|]; intros tp.
  apply bind_throwsOnly; [apply fit_P|]; intros mm.
  apply bind_throwsOnly; [apply err_P|]; intros te.
  apply bind_throwsOnly; [apply pick_throwsOnly|]; intros al; exact I.
Qed.

Lemma search_throwsOnly (allIdxs iters : list nat) :
  throwsOnly P (search data model thresh minMatches allIdxs iters).
Proof.
  induction iters as [|k iters IH]; simpl; [exact I|].
  apply bind_throwsOnly; [apply trial_throwsOnly|]; intros [m a].
  destruct (minMatches <=? length a); [|exact IH].
  apply bind_throwsOnly; [apply fit_P|]; intros g; exact I.
Qed.

Lemma refine_throwsOnly (betterFit : T) :
  throwsOnly P (refine data model thresh betterFit).
Proof.
  unfold refine.
  apply bind_throwsOnly; [apply err_P|]; intros te.
  apply bind_throwsOnly; [apply pick_throwsOnly|]; intros bd.
  apply bind_throwsOnly; [apply fit_P|]; intros f; exact I.
Qed.

Lemma ransac_throwsOnly (rand : nat -> nat) :
  throwsOnly P (ransac data model thresh minMatches rand).
Proof.
  unfold ransac.
  apply bind_throwsOnly; [apply search_throwsOnly|]; intros [g|];
    [|exact P_exhausted].
  apply bind_throwsOnly; [apply refine_throwsOnly|]; intros [f1 i1].
  apply bind_throwsOnly; [apply refine_throwsOnly|]; intros [f2 i2].
  apply bind_throwsOnly; [apply refine_throwsOnly|]; intros [f3 i3]; exact I.
Qed.

End RansacThrows.

Section Throws.
Context {K : KDTree} {N : Nudged}.
Variable P : exn -> Prop.
Hypothesis P_undefined : P UndefinedRead.

Lemma arrangeTriplet_throwsOnly (sources : list point) (t : triangle) :
  throwsOnly P (arrangeTriplet sources t).
Proof.
  destruct t as [[a b] c]; unfold arrangeTriplet.
  repeat (apply bind_throwsOnly; [apply elem_throwsOnly, P_undefined|];
          intros ?).
  exact I.
Qed.

Lemma featuresOf_throwsOnly (sources : list point) (t : triangle) :
  throwsOnly P (featuresOf sources t).
Proof.
  destruct t as [[a b] c]; unfold featuresOf.
  repeat (apply bind_throwsOnly; [apply elem_throwsOnly, P_undefined|];
          intros ?).
  exact I.
Qed.

Lemma generateInvariants_throwsOnly (sources : list point) :
  throwsOnly P (generateInvariants sources).
Proof.
  unfold generateInvariants, allInvariants, asterismsOf.
  apply bind_throwsOnly; [|intros [inv tri]; exact I].
  apply bind_throwsOnly; [|intros perAnchor; exact I].
  apply mapM_throwsOnly; intros asrc.
  apply bind_throwsOnly;
    [apply mapM_throwsOnly; intros t; apply arrangeTriplet_throwsOnly|].
  intros tri; apply bind_throwsOnly;
    [apply mapM_throwsOnly; intros t; apply featuresOf_throwsOnly|].
  intros inv; exact I.
Qed.

Lemma matchTriangles_throwsOnly (s t : list point) :
  throwsOnly P (matchTriangles s t).
Proof.
  unfold matchTriangles.
  apply bind_throwsOnly; [apply generateInvariants_throwsOnly|].
  intros [si sa].
  apply bind_throwsOnly; [apply generateInvariants_throwsOnly|].
  intros [ti ta].
  apply bind_throwsOnly; [|intros perSource; exact I].
  apply mapM_throwsOnly; intros [i [[a b] c]].
  apply bind_throwsOnly; [apply elem_throwsOnly, P_undefined|].
  intros t2List; apply mapM_throwsOnly; intros t2Idx.
  apply bind_throwsOnly; [apply elem_throwsOnly, P_undefined|].
  intros [[a' b'] c']; exact I.
Qed.

Lemma fit_throwsOnly (s t : list point) (data : list candidate) :
  throwsOnly P (MatchTransform_fit s t data).
Proof.
  unfold MatchTransform_fit, sourcePointsOf, targetPointsOf.
  apply bind_throwsOnly;
    [apply mapM_throwsOnly; intros st; apply elem_throwsOnly, P_undefined|].
  intros sp; apply bind_throwsOnly;
    [apply mapM_throwsOnly; intros st; apply elem_throwsOnly, P_undefined|].
  intros tp; exact I.
Qed.

Lemma getError_throwsOnly (s t : list point) (data : list candidate)
  (approxT : transform) :
  throwsOnly P (MatchTransform_getError s t data approxT).
Proof.
  unfold MatchTransform_getError, sourcePointsOf, targetPointsOf.
  apply mapM_throwsOnly; intros c.
  apply bind_throwsOnly;
    [apply mapM_throwsOnly; intros st; apply elem_throwsOnly, P_undefined|].
  intros sp; apply bind_throwsOnly;
    [apply mapM_throwsOnly; intros st; apply elem_throwsOnly, P_undefined|].
  intros tp; exact I.
Qed.

Lemma resolveInliers_throwsOnly (s t : list point) (bestT : transform)
  (inl : list (nat * nat)) :
  throwsOnly P (resolveInliers s t bestT inl).
Proof.
  unfold resolveInliers.
  apply bind_throwsOnly; [|intros d; exact I].
  generalize (@nil (nat * (nat * number))).
  induction (Object_values _) as [|[sI tI] rest IH]; intros d; simpl;
    [exact I|].
  apply bind_throwsOnly; [|intros e; apply IH].
  unfold pairError.
  apply bind_throwsOnly; [apply elem_throwsOnly, P_undefined|]; intros sv.
  apply bind_throwsOnly; [apply elem_throwsOnly, P_undefined|]; intros tv.
  exact I.
Qed.

End Throws.

Ltac easy_iff :=
  intros;
  repeat match goal with
         | H : _ /\ _ |- _ => destruct H
         | H : exists _, _ |- _ => destruct H
         | H : Some _ = Some _ |- _ => inversion H; clear H; subst
         | H : Throw _ = Throw _ |- _ => inversion H; clear H; subst
         end;
  solve [ reflexivity | discriminate | congruence | lia
        | do 2 eexists; repeat split; (reflexivity || assumption)
        | match goal with
          | H : forall x, _ <> _ |- _ => exfalso; eapply H; reflexivity
          end ].

Section InputErrors.
Context {K : KDTree} {N : Nudged}.

(** Past the count of the reference stars, what is thrown is the exhaustion
    error or the TypeError of an undefined read. *)
Lemma alignControlPoints_throwsOnly (s t : list point) (rand : nat -> nat) :
  3 <= length s -> 3 <= length t ->
  throwsOnly matchingError (alignControlPoints s t rand).
Proof.
  intros Hs Ht; unfold alignControlPoints.
  destruct (Nat.ltb_spec (length s) 3); [lia|].
  destruct (Nat.ltb_spec (length t) 3); [lia|].
  assert (PU : matchingError UndefinedRead) by (left; reflexivity).
  assert (PE : matchingError MatchesExhausted) by (right; reflexivity).
  apply bind_throwsOnly; [apply matchTriangles_throwsOnly, PU|].
  intros matches; apply bind_throwsOnly.
  - destruct (_ && _).
    + apply bind_throwsOnly; [apply fit_throwsOnly, PU|]; intros b; exact I.
    + apply ransac_throwsOnly; auto; intros;
        [apply fit_throwsOnly | apply getError_throwsOnly]; exact PU.
  - intros [bestT inlierInd].
    apply bind_throwsOnly; [apply pick_throwsOnly, PU|]; intros inliers.
    apply bind_throwsOnly; [apply resolveInliers_throwsOnly, PU|].
    intros out; exact I.
Qed.

Lemma controlPoints_rows (s : side) (inp : input) (mcp : nat) :
  controlPoints s inp mcp
  = match coordinateRows inp with
    | Some rows => Ok (firstn mcp rows)
    | None => Throw (InputTypeNotSupported s)
    end.
Proof.
  destruct inp as [[|row rows]|]; simpl; try reflexivity.
  rewrite slice_0; reflexivity.
Qed.

(** X15: the four errors about the inputs, each thrown for exactly these
    inputs: the input type error for a source, or else a target, that is
    not a coordinate list with a first row (an image, for which the module
    has no source detection, and the empty list as well); the reference
    star error for a source, or else a target, that holds fewer than three
    rows once cut to [maxControlPoints]. *)
Theorem findTransform_input_errors (source target : input) (mcp : nat)
  (rand : nat -> nat) :
  (findTransform source target mcp rand = Throw (InputTypeNotSupported Source)
   <-> coordinateRows source = None)
  /\ (findTransform source target mcp rand
      = Throw (InputTypeNotSupported Target)
      <-> coordinateRows source <> None /\ coordinateRows target = None)
  /\ (findTransform source target mcp rand
      = Throw (TooFewReferenceStars Source)
      <-> exists srows trows,
            coordinateRows source = Some srows
            /\ coordinateRows target = Some trows
            /\ Nat.min mcp (length srows) < 3)
  /\ (findTransform source target mcp rand
      = Throw (TooFewReferenceStars Target)
      <-> exists srows trows,
            coordinateRows source = Some srows
            /\ coordinateRows target = Some trows
            /\ 3 <= Nat.min mcp (length srows)
            /\ Nat.min mcp (length trows) < 3).
Proof.
  assert (Hcases :
    findTransform source target mcp rand
    = match coordinateRows source, coordinateRows target with
      | None, _ => Throw (InputTypeNotSupported Source)
      | Some _, None => Throw (InputTypeNotSupported Target)
      | Some srows, Some trows =>
          alignControlPoints (firstn mcp srows) (firstn mcp trows) rand
      end).
  { unfold findTransform; rewrite !controlPoints_rows.
    destruct (coordinateRows source), (coordinateRows target); reflexivity. }
  rewrite Hcases; clear Hcases.
  destruct (coordinateRows source) as [srows|]; [|repeat split; easy_iff].
  destruct (coordinateRows target) as [trows|]; [|repeat split; easy_iff].
  pose proof (alignControlPoints_throwsOnly (firstn mcp srows)
                (firstn mcp trows) rand) as Hal.
  unfold alignControlPoints in *; rewrite !length_firstn in *.
  destruct (Nat.ltb_spec (Nat.min mcp (length srows)) 3) as [Hs|Hs];
    [repeat split; easy_iff|].
  destruct (Nat.ltb_spec (Nat.min mcp (length trows)) 3) as [Ht|Ht];
    [repeat split; easy_iff|].
  specialize (Hal Hs Ht).
  match type of Hal with throwsOnly _ ?res => destruct res as [out|e] end;
    simpl in Hal; [repeat split; easy_iff|].
  assert (He : forall x, e <> InputTypeNotSupported x)
    by (intros x ->; destruct Hal; discriminate).
  assert (He' : forall x, e <> TooFewReferenceStars x)
    by (intros x ->; destruct Hal; discriminate).
  repeat split; easy_iff.
Qed.

(** X16: fewer than two triangle correspondences are not enough for
    [ransac]: when the candidate list is empty, or has one entry while
    neither side has exactly three control points, [findTransform] returns
    no transform, it throws; on the empty list, with three control points on
    each side, what it throws is the exhaustion error. *)
Theorem findTransform_needs_two_matches
  (source target : input) (mcp : nat) (rand : nat -> nat)
  (sourceControlP targetControlP : list point) (matches : list candidate) :
  controlPoints Source source mcp = Ok sourceControlP ->
  controlPoints Target target mcp = Ok targetControlP ->
  matchTriangles sourceControlP targetControlP = Ok matches ->
  length matches <= 1 ->
  (length matches = 1 ->
   length sourceControlP <> 3 /\ length targetControlP <> 3) ->
  (exists e, findTransform source target mcp rand = Throw e)
  /\ (matches = [] ->
      3 <= length sourceControlP -> 3 <= length targetControlP ->
      findTransform source target mcp rand = Throw MatchesExhausted).
Proof.
  intros Es Et Em Hl H3.
  unfold findTransform; rewrite Es, Et; cbn [bind].
  unfold alignControlPoints.
  destruct (Nat.ltb_spec (length sourceControlP) 3) as [Ls|Ls];
    [split; [eexists; reflexivity | intros _ H; lia]|].
  destruct (Nat.ltb_spec (length targetControlP) 3) as [Lt|Lt];
    [split; [eexists; reflexivity | intros _ _ H; lia]|].
  rewrite Em; cbn [bind].
  assert (Hshort : (Nat.eqb (length sourceControlP) 3
                    || Nat.eqb (length targetControlP) 3)
                   && Nat.eqb (length matches) 1 = false).
  { destruct (Nat.eqb_spec (length matches) 1) as [E1|E1];
      [|apply andb_false_r].
    destruct (H3 E1) as [Hs Ht].
    apply Nat.eqb_neq in Hs, Ht; rewrite Hs, Ht; reflexivity. }
  rewrite Hshort.
  assert (Hmin : length matches <= minMatchesOf (length matches))
    by (unfold minMatchesOf; lia).
  pose proof (fun r =>
                ransac_few_candidates _ _ matches
                  (MatchTransform sourceControlP targetControlP) PIXEL_TOL
                  (minMatchesOf (length matches)) rand r Hmin) as Hno.
  split.
  - destruct (ransac matches _ PIXEL_TOL _ rand) as [r|e] eqn:Er;
      [destruct (Hno r eq_refl) | cbn [bind]; eauto].
  - intros -> _ _; reflexivity.
Qed.


End InputErrors.

Lemma findTransform_needs_two_matches_witness :
  exists e,
    @findTransform bruteKDTree translationNudged
      (CoordinateList srcFour) (CoordinateList tgtFour) 50 (fun _ => 0)
    = Throw e.
Proof.
  refine (proj1 (@findTransform_needs_two_matches bruteKDTree
                   translationNudged (CoordinateList srcFour)
                   (CoordinateList tgtFour) 50 (fun _ => 0) srcFour tgtFour
                   [selfMatch (0, 1, 2)] _ _ _ _ _)).
  - reflexivity.
  - reflexivity.
  - vm_compute; reflexivity.
  - simpl; lia.
  - intros _; simpl; lia.
Defined.


(** *** The correspondences findTransform returns *)

Lemma selectAt_nth {A} (arr : list A) (idx : list nat) :
  (forall i, In i idx -> i < length arr) ->
  Forall2 (fun i x => nth_error arr i = Some x) idx (selectAt arr idx).
Proof.
  unfold selectAt; induction idx as [|i idx IH]; simpl; intros Hb;
    [constructor|].
  destruct (nth_error arr i) eqn:E.
  - simpl; constructor; auto.
  - apply nth_error_None in E; specialize (Hb i (or_introl eq_refl)); lia.
Qed.

Lemma Forall2_map_l {A B C} (R : B -> C -> Prop) (f : A -> B) (l : list A)
  (l' : list C) :
  Forall2 R (map f l) l' <-> Forall2 (fun x y => R (f x) y) l l'.
Proof.
  split.
  - revert l'; induction l as [|x l IH]; intros l' H; inversion H; subst;
      constructor; auto.
  - induction 1; simpl; constructor; auto.
Qed.

Lemma sorted_below_length (l : list nat) (n : nat) :
  StronglySorted Nat.lt l -> (forall i, In i l -> i < n) -> length l <= n.
Proof.
  intros Hs Hb.
  rewrite <- (length_seq n 0); apply NoDup_incl_length.
  - clear Hb; induction Hs as [|x l _ IH Hx]; constructor; auto.
    intros Hin; rewrite Forall_forall in Hx; specialize (Hx _ Hin); lia.
  - intros i Hi; apply in_seq; specialize (Hb i Hi); lia.
Qed.

Lemma pick_incl {D} (data : list D) (idxs : list nat) (l : list D) :
  pick data idxs = Ok l -> incl l data.
Proof.
  unfold pick; intros E x Hx.
  destruct (mapM_In _ _ _ E _ Hx) as (i & _ & Ei).
  apply elem_Ok in Ei; apply (nth_error_In _ _ Ei).
Qed.

Section Correspondences.
Context {N : Nudged}.
Variables sourceControlP targetControlP : list point.
Variable bestT : transform.

Lemma pairError_inRange (st : nat * nat) :
  match pairError sourceControlP targetControlP bestT st with
  | Ok _ => inRange sourceControlP targetControlP st
  | Throw e => e = UndefinedRead /\ ~ inRange sourceControlP targetControlP st
  end.
Proof.
  unfold pairError, inRange, elem.
  destruct (nth_error sourceControlP (fst st)) eqn:Es; simpl.
  - assert (Hs : fst st < length sourceControlP)
      by (apply nth_error_Some; congruence).
    destruct (nth_error targetControlP (snd st)) eqn:Et; simpl.
    + split; [exact Hs | apply nth_error_Some; congruence].
    + apply nth_error_None in Et; split; [reflexivity | lia].
  - apply nth_error_None in Es; split; [reflexivity | lia].
Qed.

(** The loop over [inlUnique] ends exactly when every pair is in range,
    and an out-of-range pair ends it with the undefined read; the entries
    of [inlDict] are pairs that went through the loop. *)
Lemma fillInlDict_result (all inlUnique : list (nat * nat))
  (inlDict : obj (nat * number)) :
  incl inlUnique all ->
  keysSorted inlDict ->
  (forall k t e, In (k, (t, e)) inlDict ->
                 inRange sourceControlP targetControlP (k, t)
                 /\ In (k, t) all) ->
  match fillInlDict sourceControlP targetControlP bestT inlUnique inlDict with
  | Ok d =>
      Forall (inRange sourceControlP targetControlP) inlUnique
      /\ keysSorted d
      /\ forall k t e, In (k, (t, e)) d ->
                       inRange sourceControlP targetControlP (k, t)
                       /\ In (k, t) all
  | Throw e =>
      e = UndefinedRead
      /\ ~ Forall (inRange sourceControlP targetControlP) inlUnique
  end.
Proof.
  revert inlDict; induction inlUnique as [|[sI tI] rest IH];
    intros inlDict Hi Hs Hr; simpl.
  - auto.
  - pose proof (pairError_inRange (sI, tI)) as He.
    assert (Hi' : incl rest all) by (intros x Hx; apply Hi; right; exact Hx).
    destruct (pairError sourceControlP targetControlP bestT (sI, tI))
      as [e|x]; simpl.
    + set (d1 := match obj_get inlDict sI with
                 | Some (_, e0) =>
                     if lt e e0 then obj_set inlDict sI (tI, e) else inlDict
                 | None => obj_set inlDict sI (tI, e)
                 end).
      assert (Hset : keysSorted (obj_set inlDict sI (tI, e))
                     /\ forall k t e',
                          In (k, (t, e')) (obj_set inlDict sI (tI, e)) ->
                          inRange sourceControlP targetControlP (k, t)
                          /\ In (k, t) all).
      { split; [apply obj_set_sorted; exact Hs|].
        intros k t e' Hin.
        apply obj_In_get in Hin; [|apply obj_set_sorted; exact Hs].
        destruct (Nat.eq_dec sI k) as [<-|Hk].
        - rewrite obj_get_set_same in Hin; inversion Hin; subst.
          split; [exact He | apply Hi; left; reflexivity].
        - rewrite obj_get_set_other in Hin by exact Hk.
          apply obj_get_In in Hin; eapply Hr; eauto. }
      assert (H1 : keysSorted d1
                   /\ forall k t e', In (k, (t, e')) d1 ->
                        inRange sourceControlP targetControlP (k, t)
                        /\ In (k, t) all).
      { unfold d1; destruct (obj_get inlDict sI) as [[t0 e0]|];
          [destruct (lt e e0)|]; auto. }
      destruct H1 as [Hs1 Hr1].
      specialize (IH d1 Hi' Hs1 Hr1).
      destruct (fillInlDict sourceControlP targetControlP bestT rest d1)
        as [d|x].
      * destruct IH as (Hall & Hsd & Hrd).
        split; [constructor; assumption|]. split; assumption.
      * destruct IH as [-> Hn]; split; [reflexivity|].
        intros H; inversion H; auto.
    + destruct He as [-> Hn]; split; [reflexivity|].
      intros H; inversion H; auto.
Qed.

(** The resolver ends exactly when every inlier pair names a source and a
    target control point; the pairs it returns are inlier pairs, listed by
    ascending source index. *)
Lemma resolveInliers_result (triangleInliers : list (nat * nat)) :
  match resolveInliers sourceControlP targetControlP bestT triangleInliers with
  | Ok inlArrUnique =>
      Forall (inRange sourceControlP targetControlP) triangleInliers
      /\ StronglySorted Nat.lt (map fst inlArrUnique)
      /\ Forall (fun st => inRange sourceControlP targetControlP st
                           /\ In st triangleInliers) inlArrUnique
  | Throw e =>
      e = UndefinedRead
      /\ ~ Forall (inRange sourceControlP targetControlP) triangleInliers
  end.
Proof.
  unfold resolveInliers.
  set (inlUnique := Object_values _).
  assert (HI : forall x, In x inlUnique <-> In x triangleInliers)
    by (intros x; apply (inlUnique_In triangleInliers x)).
  assert (HU : Forall (inRange sourceControlP targetControlP) inlUnique
               <-> Forall (inRange sourceControlP targetControlP)
                     triangleInliers).
  { rewrite !Forall_forall; split; intros H x Hx; apply H, HI, Hx. }
  pose proof (fillInlDict_result inlUnique inlUnique [] (incl_refl _)
                ltac:(constructor) ltac:(intros k t e [])) as H.
  destruct (fillInlDict sourceControlP targetControlP bestT inlUnique [])
    as [d|x]; simpl.
  - destruct H as (Hall & Hs & Hr); unfold Object_entries.
    split; [apply HU; exact Hall|]. split.
    + rewrite map_map; exact Hs.
    + apply Forall_forall; intros [k t] Hin.
      apply in_map_iff in Hin; destruct Hin as ([k' [t' e]] & E & Hin).
      inversion E; subst.
      destruct (Hr _ _ _ Hin) as [H1 H2]; split; [exact H1 | apply HI, H2].
  - destruct H as [-> Hn]; split; [reflexivity|].
    intros H; apply Hn, HU, H.
Qed.

End Correspondences.

Section Output2.
Context {K : KDTree} {N : Nudged}.

(** X17: what [findTransform] returns besides the transform: two lists of
    the same length, at most as long as there are source control points;
    position by position they hold the source control point and the target
    control point of one correspondence; every correspondence is a vertex
    pair of one of the candidates; and the correspondences are listed by
    ascending source index, so that no source control point is returned
    twice. *)
Theorem findTransform_output
  (source target : input) (mcp : nat) (rand : nat -> nat)
  (sourceControlP targetControlP : list point) (matches : list candidate)
  (bestT : transform) (sourceList targetList : list point) :
  controlPoints Source source mcp = Ok sourceControlP ->
  controlPoints Target target mcp = Ok targetControlP ->
  matchTriangles sourceControlP targetControlP = Ok matches ->
  findTransform source target mcp rand = Ok (bestT, (sourceList, targetList)) ->
  exists inlArrUnique : list (nat * nat),
    StronglySorted Nat.lt (map fst inlArrUnique)
    /\ Forall (fun st => exists m, In m matches /\ In st (pairs_of m))
         inlArrUnique
    /\ Forall2 (fun st p => nth_error sourceControlP (fst st) = Some p)
         inlArrUnique sourceList
    /\ Forall2 (fun st p => nth_error targetControlP (snd st) = Some p)
         inlArrUnique targetList
    /\ length sourceList = length targetList
    /\ length sourceList <= length sourceControlP.
Proof.
  intros Es Et Em E.
  unfold findTransform in E; rewrite Es, Et in E; cbn [bind] in E.
  unfold alignControlPoints in E.
  destruct (length sourceControlP <? 3); [discriminate|].
  destruct (length targetControlP <? 3); [discriminate|].
  rewrite Em in E; cbn [bind] in E.
  apply bind_Ok in E; destruct E as ([bestT' inlierInd] & _ & E).
  apply bind_Ok in E; destruct E as (inliers & Ei & E).
  apply bind_Ok in E; destruct E as (inlArrUnique & Er & E).
  inversion E; subst; clear E.
  pose proof (resolveInliers_result sourceControlP targetControlP bestT
                (flat_map pairs_of inliers)) as H.
  rewrite Er in H; destruct H as (_ & Hs & Hr).
  rewrite Forall_forall in Hr.
  assert (H1 : Forall2 (fun st p => nth_error sourceControlP (fst st) = Some p)
                 inlArrUnique (selectAt sourceControlP (map fst inlArrUnique))).
  { apply (proj1 (Forall2_map_l
                     (fun i p => nth_error sourceControlP i = Some p) fst _ _)).
    apply selectAt_nth.
    intros i Hi; apply in_map_iff in Hi; destruct Hi as (st & <- & Hst).
    apply (Hr st Hst). }
  assert (H2 : Forall2 (fun st p => nth_error targetControlP (snd st) = Some p)
                 inlArrUnique (selectAt targetControlP (map snd inlArrUnique))).
  { apply (proj1 (Forall2_map_l
                     (fun i p => nth_error targetControlP i = Some p) snd _ _)).
    apply selectAt_nth.
    intros i Hi; apply in_map_iff in Hi; destruct Hi as (st & <- & Hst).
    apply (Hr st Hst). }
  exists inlArrUnique.
  split; [exact Hs|]. split.
  { apply Forall_forall; intros st Hst.
    destruct (Hr st Hst) as [_ Hin]; apply in_flat_map in Hin.
    destruct Hin as (m & Hm & Hin); exists m; split; [|exact Hin].
    apply (pick_incl _ _ _ Ei), Hm. }
  split; [exact H1|]. split; [exact H2|]. split.
  - rewrite <- (Forall2_length H1), <- (Forall2_length H2); reflexivity.
  - rewrite <- (Forall2_length H1), <- (length_map fst).
    apply sorted_below_length; [exact Hs|].
    intros i Hi; apply in_map_iff in Hi; destruct Hi as (st & <- & Hst).
    apply (Hr st Hst).
Qed.

End Output2.

Lemma findTransform_output_witness :
  exists inlArrUnique : list (nat * nat),
    StronglySorted Nat.lt (map fst inlArrUnique)
    /\ Forall (fun st => exists m, In m [selfMatch (0, 1, 2)]
                                   /\ In st (pairs_of m)) inlArrUnique
    /\ Forall2 (fun st p => nth_error (firstn 3 srcFour) (fst st) = Some p)
         inlArrUnique [(0, 0); (4, 0); (0, 3)]%float
    /\ Forall2 (fun st p => nth_error tgtFour (snd st) = Some p)
         inlArrUnique [(0, 0); (4, 0); (0, 3)]%float
    /\ length [(0, 0); (4, 0); (0, 3)]%float
       = length [(0, 0); (4, 0); (0, 3)]%float
    /\ length [(0, 0); (4, 0); (0, 3)]%float <= length (firstn 3 srcFour).
Proof.
  apply (@findTransform_output bruteKDTree translationNudged
           (CoordinateList (firstn 3 srcFour)) (CoordinateList tgtFour)
           50 (fun _ => 0) (firstn 3 srcFour) tgtFour [selfMatch (0, 1, 2)]
           (0, 0)%float);
    vm_compute; reflexivity.
Defined.


(** *** No read of undefined *)

Lemma pick_total {D} (data : list D) (idxs : list nat) :
  (forall i, In i idxs -> i < length data) ->
  exists l, pick data idxs = Ok l /\ incl l data.
Proof.
  unfold pick; induction idxs as [|i idxs IH]; simpl; intros Hb.
  - exists []; split; [reflexivity | intros x []].
  - destruct (elem_in_range data i (Hb i (or_introl eq_refl))) as (x & Ex).
    destruct IH as (l & El & Hl); [auto|].
    rewrite Ex, El; simpl; exists (x :: l); split; [reflexivity|].
    intros y [<-|Hy]; [|apply Hl, Hy].
    apply elem_Ok in Ex; apply (nth_error_In _ _ Ex).
Qed.

Lemma filterByPos_In (keep : nat -> bool) (pos : nat) (idxs : list nat)
  (x : nat) :
  In x (filterByPos keep pos idxs) -> In x idxs.
Proof.
  revert pos; induction idxs as [|y idxs IH]; intros pos; simpl; [auto|].
  destruct (keep pos); simpl; intros H; [destruct H as [H|H]|]; eauto.
Qed.

Lemma In_skipn {A} (n : nat) (l : list A) (x : A) :
  In x (skipn n l) -> In x l.
Proof.
  intros Hin; rewrite <- (firstn_skipn n l); apply in_or_app; right; exact Hin.
Qed.

Lemma In_slice {A} (arr : list A) (a b : nat) (x : A) :
  In x (slice arr a b) -> In x arr.
Proof. unfold slice; intros H; apply In_firstn, In_skipn in H; exact H. Qed.

Section RansacTotal.
Variables D T : Type.
Variable data : list D.
Variable model : Model D T.
Variable thresh : number.
Variable minMatches : nat.
Hypothesis fit_ok : forall l, incl l data -> exists t, fit model l = Ok t.
Hypothesis err_ok :
  forall l t, incl l data -> exists e, getError model l t = Ok e.

Lemma trial_total (allIdxs : list nat) (iterI : nat) :
  (forall i, In i allIdxs -> i < length data) ->
  exists maybeInliers alsoInliers,
    trial data model thresh allIdxs iterI = Ok (maybeInliers, alsoInliers)
    /\ incl maybeInliers data /\ incl alsoInliers data.
Proof.
  intros Hb; unfold trial.
  destruct (pick_total data (slice allIdxs iterI (iterI + 1)))
    as (m & -> & Hm); [intros i Hi; apply Hb, (In_slice _ _ _ _ Hi)|].
  assert (Ht : forall i, In i (slice allIdxs 0 iterI
                                 ++ skipn (iterI + 1) allIdxs) ->
                         i < length data).
  { intros i Hi; apply Hb; apply in_app_or in Hi; destruct Hi as [Hi|Hi];
      [apply (In_slice _ _ _ _ Hi) | apply (In_skipn _ _ _ Hi)]. }
  destruct (pick_total data _ Ht) as (tp & -> & Htp); cbn [bind].
  destruct (fit_ok m Hm) as (mm & ->); cbn [bind].
  destruct (err_ok tp mm Htp) as (te & ->); cbn [bind].
  destruct (pick_total data
              (filterByPos (belowAt te thresh) 0
                 (slice allIdxs 0 iterI ++ skipn (iterI + 1) allIdxs)))
    as (al & -> & Hal);
    [intros i Hi; apply Ht, (filterByPos_In _ _ _ _ Hi)|].
  cbn [bind]; eauto.
Qed.

Lemma search_total (allIdxs iters : list nat) :
  (forall i, In i allIdxs -> i < length data) ->
  exists r, search data model thresh minMatches allIdxs iters = Ok r.
Proof.
  intros Hb; induction iters as [|k iters IH]; simpl; [eauto|].
  destruct (trial_total allIdxs k Hb) as (m & a & -> & Hm & Ha); cbn [bind].
  destruct (minMatches <=? length a); [|exact IH].
  destruct (fit_ok (m ++ a)) as (g & ->); [apply incl_app; assumption|].
  simpl; eauto.
Qed.

Lemma refine_total (betterFit : T) :
  exists r, refine data model thresh betterFit = Ok r.
Proof.
  unfold refine.
  destruct (err_ok data betterFit (incl_refl _)) as (te & ->); cbn [bind].
  destruct (pick_total data
              (filter (belowAt te thresh) (seq 0 (length data))))
    as (bd & -> & Hbd).
  { intros i Hi; apply filter_In in Hi; destruct Hi as [Hi _].
    apply in_seq in Hi; lia. }
  cbn [bind]; destruct (fit_ok bd Hbd) as (f & ->); simpl; eauto.
Qed.

(** With a model that fits and measures every selection of the candidates,
    [ransac] returns or throws the exhaustion error, nothing else. *)
Lemma ransac_total (rand : nat -> nat) :
  (exists r, ransac data model thresh minMatches rand = Ok r)
  \/ ransac data model thresh minMatches rand = Throw MatchesExhausted.
Proof.
  rewrite ransac_unfold.
  destruct (search_total (shuffle rand (seq 0 (length data)))
              (seq 0 (length data))) as ([g|] & ->).
  { intros i Hi; apply (Permutation_in _ (shuffle_perm _ _)) in Hi.
    apply in_seq in Hi; lia. }
  - left; cbn [bind]; unfold refine3.
    destruct (refine_total g) as ([f1 i1] & ->); cbn [bind].
    destruct (refine_total f1) as ([f2 i2] & ->); cbn [bind].
    destruct (refine_total f2) as ([f3 i3] & ->); cbn [bind]; eauto.
  - right; reflexivity.
Qed.

End RansacTotal.

Section MatchTransformTotal.
Context {N : Nudged}.
Variables source target : list point.

Lemma sourcePointsOf_total (ps : list (nat * nat)) :
  Forall (inRange source target) ps ->
  exists l, sourcePointsOf source ps = Ok l.
Proof.
  intros H; unfold sourcePointsOf; apply mapM_total.
  rewrite Forall_forall in H; intros st Hst.
  apply elem_in_range, (H st Hst).
Qed.

Lemma targetPointsOf_total (ps : list (nat * nat)) :
  Forall (inRange source target) ps ->
  exists l, targetPointsOf target ps = Ok l.
Proof.
  intros H; unfold targetPointsOf; apply mapM_total.
  rewrite Forall_forall in H; intros st Hst.
  apply elem_in_range, (H st Hst).
Qed.

Lemma MatchTransform_fit_total (data : list candidate) :
  Forall (candidateInRange source target) data ->
  exists t, MatchTransform_fit source target data = Ok t.
Proof.
  intros H; unfold MatchTransform_fit.
  assert (Hf : Forall (inRange source target) (flat_map pairs_of data)).
  { apply Forall_forall; intros st Hst; apply in_flat_map in Hst.
    destruct Hst as (c & Hc & Hst).
    rewrite Forall_forall in H; specialize (H c Hc).
    unfold candidateInRange in H; rewrite Forall_forall in H; auto. }
  destruct (sourcePointsOf_total _ Hf) as (sp & ->).
  destruct (targetPointsOf_total _ Hf) as (tp & ->); simpl; eauto.
Qed.

Lemma MatchTransform_getError_total (data : list candidate)
  (approxT : transform) :
  Forall (candidateInRange source target) data ->
  exists e, MatchTransform_getError source target data approxT = Ok e.
Proof.
  intros H; unfold MatchTransform_getError; apply mapM_total.
  rewrite Forall_forall in H; intros c Hc; specialize (H c Hc).
  destruct (sourcePointsOf_total _ H) as (sp & ->).
  destruct (targetPointsOf_total _ H) as (tp & ->); simpl; eauto.
Qed.

End MatchTransformTotal.

Lemma mapM_total_Forall {A B} (f : A -> result B) (P : B -> Prop)
  (l : list A) :
  (forall x, In x l -> exists y, f x = Ok y /\ P y) ->
  exists l', mapM f l = Ok l' /\ Forall P l'.
Proof.
  induction l as [|x l IH]; simpl; intros Hf; [eauto|].
  destruct (Hf x (or_introl eq_refl)) as (y & -> & Hy).
  destruct IH as (ys & -> & Hys); [auto|]; simpl; eauto.
Qed.

Lemma Forall_concat {A} (P : A -> Prop) (ls : list (list A)) :
  Forall (Forall P) ls -> Forall P (concat ls).
Proof.
  induction 1 as [|l ls Hl _ IH]; simpl; [constructor|].
  apply Forall_app; auto.
Qed.

Lemma bruteKDTree_rnn_in_range : rnn_in_range bruteKDTree.
Proof.
  intros pts q r i Hin; simpl in Hin; unfold bruteRnn in Hin.
  apply in_map_iff in Hin; destruct Hin as ([i' p] & <- & Hin).
  apply filter_In in Hin; destruct Hin as [Hin _].
  unfold indexed in Hin; apply in_combine_l in Hin.
  apply in_seq in Hin; simpl; lia.
Qed.

Section NoUndefinedRead.
Context {K : KDTree} {N : Nudged}.
Hypothesis knn_ok : knn_in_range K.
Hypothesis rnn_ok : rnn_in_range K.

Lemma generateInvariants_in_range (sources : list point) :
  exists inv tri,
    generateInvariants sources = Ok (inv, tri)
    /\ length inv = length tri
    /\ forall a b c, In (a, b, c) tri ->
         a < length sources /\ b < length sources /\ c < length sources.
Proof.
  destruct (generateInvariants_returns knn_ok sources)
    as (inv0 & tri0 & E0 & E).
  exists (selectAt inv0 (uniqInd inv0)), (selectAt tri0 (uniqInd inv0)).
  destruct (allInvariants_shape _ _ _ E0) as [Hlen _].
  split; [exact E|]. split.
  - rewrite !selectAt_length; auto using uniqInd_bound.
    intros i Hi; rewrite <- Hlen; apply uniqInd_bound, Hi.
  - intros a b c Hin; apply selectAt_In in Hin.
    destruct (allInvariants_triangles _ _ _ _ E0 Hin)
      as (asrc & [[x y] z] & _ & Ht0 & Ea).
    destruct (combinations3_In _ _ _ _ Ht0) as (Hx & Hy & Hz).
    apply knn_ok in Hx, Hy, Hz.
    destruct (arrangeTriplet_in_range sources x y z Hx Hy Hz)
      as (a' & b' & c' & Ea' & Hr).
    rewrite Ea in Ea'; inversion Ea'; subst; exact Hr.
Qed.

(** The candidates are made of vertices of triangles of the two sides. *)
Lemma matchTriangles_in_range (sourceControlP targetControlP : list point) :
  exists matches,
    matchTriangles sourceControlP targetControlP = Ok matches
    /\ Forall (candidateInRange sourceControlP targetControlP) matches.
Proof.
  unfold matchTriangles.
  destruct (generateInvariants_in_range sourceControlP)
    as (si & sa & -> & Hls & Hsa).
  destruct (generateInvariants_in_range targetControlP)
    as (ti & ta & -> & Hlt & Hta); cbn [bind].
  set (matchesList := map (fun sourceInv => kd_rnn ti sourceInv matchRadius) si).
  match goal with
  | |- context [mapM ?f (indexed sa)] =>
      destruct (mapM_total_Forall f
                  (Forall (candidateInRange sourceControlP targetControlP))
                  (indexed sa)) as (perSource & -> & Hps)
  end.
  - intros [i [[a b] c]] Hin; unfold indexed in Hin.
    pose proof (in_combine_l _ _ _ _ Hin) as Hi; apply in_seq in Hi.
    pose proof (in_combine_r _ _ _ _ Hin) as Ht; apply Hsa in Ht.
    destruct (elem_in_range matchesList i) as (t2List & Et2).
    { unfold matchesList; rewrite length_map; unfold descriptor, triangle in *.
      rewrite Hls; lia. }
    rewrite Et2; cbn [bind].
    apply mapM_total_Forall; intros t2Idx Ht2.
    assert (Hidx : t2Idx < length ta).
    { apply elem_Ok in Et2; unfold matchesList in Et2.
      apply nth_error_In, in_map_iff in Et2.
      destruct Et2 as (sourceInv & <- & _).
      rewrite <- Hlt; apply (rnn_ok _ _ _ _ Ht2). }
    destruct (elem_in_range ta t2Idx Hidx) as ([[a' b'] c'] & Et).
    rewrite Et; cbn [bind]; eexists; split; [reflexivity|].
    apply elem_Ok, nth_error_In, Hta in Et.
    unfold candidateInRange, inRange; simpl.
    repeat constructor; simpl; tauto.
  - cbn [bind]; eexists; split; [reflexivity|].
    apply Forall_concat; exact Hps.
Qed.

End NoUndefinedRead.

Lemma controlPoints_Throw (s : side) (inp : input) (mcp : nat) (e : exn) :
  controlPoints s inp mcp = Throw e -> e = InputTypeNotSupported s.
Proof.
  destruct inp as [[|row rows]|]; simpl; intros E; inversion E; reflexivity.
Qed.

(** X18: with a kd-tree that answers with indices of its points,
    [findTransform] never fails on a read of [undefined]: whatever the
    inputs and the random draws, it returns, or it throws one of the three
    errors the module raises itself. *)
Theorem findTransform_no_undefined_read {K : KDTree} {N : Nudged}
  (source target : input) (mcp : nat) (rand : nat -> nat) :
  knn_in_range K -> rnn_in_range K ->
  findTransform source target mcp rand <> Throw UndefinedRead.
Proof.
  intros knn_ok rnn_ok; unfold findTransform.
  destruct (controlPoints Source source mcp) as [s|e] eqn:Es;
    [|apply controlPoints_Throw in Es; subst; discriminate].
  destruct (controlPoints Target target mcp) as [t|e] eqn:Et;
    [|apply controlPoints_Throw in Et; subst; discriminate].
  cbn [bind]; unfold alignControlPoints.
  destruct (length s <? 3); [discriminate|].
  destruct (length t <? 3); [discriminate|].
  destruct (matchTriangles_in_range knn_ok rnn_ok s t) as (matches & -> & Hm); cbn [bind].
  assert (Hsub : forall l, incl l matches -> Forall (candidateInRange s t) l).
  { intros l Hl; apply Forall_forall; intros c Hc.
    rewrite Forall_forall in Hm; apply Hm, Hl, Hc. }
  assert (Hfit : forall l, incl l matches ->
                   exists T, fit (MatchTransform s t) l = Ok T).
  { intros l Hl; apply MatchTransform_fit_total, Hsub, Hl. }
  assert (Herr : forall l T, incl l matches ->
                   exists e, getError (MatchTransform s t) l T = Ok e).
  { intros l T Hl; apply MatchTransform_getError_total, Hsub, Hl. }
  assert (Hend : forall bestT inlierInd,
             (forall i, In i inlierInd -> i < length matches) ->
             (inliers <- pick matches inlierInd ;;
              inlArrUnique <-
                resolveInliers s t bestT (flat_map pairs_of inliers) ;;
              Ok (bestT,
                  (selectAt s (map fst inlArrUnique),
                   selectAt t (map snd inlArrUnique))))
             <> Throw UndefinedRead).
  { intros bestT inlierInd Hb.
    destruct (pick_total matches inlierInd Hb) as (inliers & -> & Hin).
    cbn [bind].
    pose proof (resolveInliers_result s t bestT (flat_map pairs_of inliers))
      as Hres.
    destruct (resolveInliers s t bestT (flat_map pairs_of inliers))
      as [out|x]; [discriminate|].
    destruct Hres as [_ Hn]; exfalso; apply Hn.
    apply Forall_forall; intros st Hst; apply in_flat_map in Hst.
    destruct Hst as (c & Hc & Hst).
    pose proof (Hsub inliers Hin) as Hall; rewrite Forall_forall in Hall.
    specialize (Hall c Hc); unfold candidateInRange in Hall.
    rewrite Forall_forall in Hall; auto. }
  destruct ((Nat.eqb (length s) 3 || Nat.eqb (length t) 3)
            && Nat.eqb (length matches) 1).
  - destruct (Hfit matches (incl_refl _)) as (bestT & ->); cbn [bind].
    apply Hend; intros i Hi; apply in_seq in Hi; lia.
  - destruct (ransac_total _ _ matches (MatchTransform s t) PIXEL_TOL
                (minMatchesOf (length matches)) Hfit Herr rand)
      as [[[bestT inlierInd] Er]|Er]; rewrite Er; [|discriminate].
    cbn [bind]; apply Hend.
    apply (ransac_Ok_in_range _ _ _ _ _ _ _ _ _ Er).
Qed.

Lemma findTransform_no_undefined_read_witness :
  @findTransform bruteKDTree translationNudged
    (CoordinateList testSources) (CoordinateList (rev testSources)) 50
    (fun i => 7 * i)
  <> Throw UndefinedRead.
Proof.
  apply (@findTransform_no_undefined_read bruteKDTree translationNudged);
    [apply bruteKDTree_in_range | apply bruteKDTree_rnn_in_range].
Defined.

(** *** The random draws *)

Lemma Permutation_filter {A} (f : A -> bool) (l l' : list A) :
  Permutation l l' -> Permutation (filter f l) (filter f l').
Proof.
  induction 1 as [|x l l' _ IH|x y l|l l' l'' _ IH1 _ IH2]; simpl.
  - constructor.
  - destruct (f x); [constructor|]; exact IH.
  - destruct (f x), (f y); try reflexivity; apply perm_swap.
  - eapply perm_trans; eassumption.
Qed.

Lemma filter_filter {A} (f g : A -> bool) (l : list A) :
  filter g (filter f l) = filter (fun x => f x && g x) l.
Proof.
  induction l as [|x l IH]; simpl; [reflexivity|].
  destruct (f x); simpl; [destruct (g x)|]; rewrite IH; reflexivity.
Qed.

Lemma skipn_nth (l : list nat) (i : nat) :
  i < length l -> skipn i l = nth i l 0 :: skipn (i + 1) l.
Proof.
  revert i; induction l as [|x l IH]; intros [|i] Hl; simpl in *; try lia;
    [reflexivity|].
  apply IH; lia.
Qed.

(** The indices tested at [iterI] are the indices other than the one
    sampled. *)
Lemma testIdxs_perm (allIdxs : list nat) (n iterI : nat) :
  Permutation allIdxs (seq 0 n) -> iterI < n ->
  Permutation (slice allIdxs 0 iterI ++ skipn (iterI + 1) allIdxs)
    (filter (fun j => negb (Nat.eqb j (nth iterI allIdxs 0))) (seq 0 n)).
Proof.
  intros P Hi.
  assert (Hl : iterI < length allIdxs)
    by (rewrite (Permutation_length P), length_seq; exact Hi).
  set (s := nth iterI allIdxs 0).
  set (testIdxs := slice allIdxs 0 iterI ++ skipn (iterI + 1) allIdxs).
  assert (P1 : Permutation (s :: testIdxs) (seq 0 n)).
  { rewrite <- P; unfold testIdxs, slice; rewrite Nat.sub_0_r; simpl.
    pose proof (firstn_skipn iterI allIdxs) as F.
    rewrite (skipn_nth _ _ Hl) in F; fold s in F.
    rewrite <- F at 3; apply Permutation_middle. }
  assert (Hnd : NoDup (s :: testIdxs))
    by (apply (Permutation_NoDup (Permutation_sym P1)), seq_NoDup).
  inversion Hnd as [|? ? Hs Hnd']; subst.
  apply (Permutation_filter (fun j => negb (Nat.eqb j s))) in P1.
  simpl in P1; rewrite Nat.eqb_refl in P1; simpl in P1.
  rewrite <- P1.
  clear - Hs; induction testIdxs as [|x l IH]; simpl; [reflexivity|].
  destruct (Nat.eqb_spec x s) as [->|Hx]; simpl.
  - exfalso; apply Hs; left; reflexivity.
  - constructor; apply IH; intros H; apply Hs; right; exact H.
Qed.

Lemma pick_map {D} (data : list D) (idxs : list nat) (pts : list D) :
  pick data idxs = Ok pts ->
  Forall2 (fun i d => nth_error data i = Some d) idxs pts.
Proof.
  unfold pick; intros E; apply mapM_Forall2 in E.
  eapply Forall2_impl; [|exact E]; intros i d Hi; apply elem_Ok, Hi.
Qed.

Section RansacDeterministic.
Variables D T : Type.
Variable data : list D.
Variable model : Model D T.
Variable thresh : number.
Variable minMatches : nat.
Variable err1 : T -> D -> number.
Hypothesis fit_ok : forall l, incl l data -> exists t, fit model l = Ok t.
Hypothesis err_ok : pointwise data model err1.

(** The filter by position on the errors of the tested candidates is the
    filter of the tested indices by [supports]. *)
Lemma filterByPos_supports (t : T) (idxs : list nat) (pts : list D) :
  Forall2 (fun i d => nth_error data i = Some d) idxs pts ->
  forall pre : list number,
    filterByPos (belowAt (pre ++ map (err1 t) pts) thresh) (length pre) idxs
    = filter (supports data thresh err1 t) idxs.
Proof.
  induction 1 as [|i d idxs pts Hi _ IH]; intros pre; simpl; [reflexivity|].
  assert (E : belowAt (pre ++ err1 t d :: map (err1 t) pts) thresh (length pre)
              = supports data thresh err1 t i).
  { unfold belowAt, supports.
    rewrite nth_error_app2, Nat.sub_diag, Hi by lia; reflexivity. }
  rewrite E.
  specialize (IH (pre ++ [err1 t d])).
  rewrite <- app_assoc, length_app in IH; simpl in IH.
  rewrite Nat.add_1_r in IH; rewrite IH; reflexivity.
Qed.

(** The number of supporters of a sample depends on the candidate
    sampled, not on the order of the others. *)
Lemma trial_acceptable (allIdxs : list nat) (iterI : nat) :
  Permutation allIdxs (seq 0 (length data)) -> iterI < length data ->
  exists maybeInliers alsoInliers,
    trial data model thresh allIdxs iterI = Ok (maybeInliers, alsoInliers)
    /\ incl (maybeInliers ++ alsoInliers) data
    /\ (minMatches <= length alsoInliers
        <-> acceptable data model thresh minMatches err1
              (nth iterI allIdxs 0)).
Proof.
  intros P Hi.
  assert (Hb : forall i, In i allIdxs -> i < length data).
  { intros i Hin; apply (Permutation_in _ P) in Hin.
    apply in_seq in Hin; lia. }
  assert (Hl : iterI < length allIdxs)
    by (rewrite (Permutation_length P), length_seq; exact Hi).
  set (s := nth iterI allIdxs 0).
  assert (Hs : s < length data) by (apply Hb, nth_In, Hl).
  destruct (elem_in_range data s Hs) as (d & Ed).
  pose proof (proj1 (elem_Ok _ _ _) Ed) as Ed'.
  unfold trial.
  assert (Em : slice allIdxs iterI (iterI + 1) = [s]).
  { unfold slice; replace (iterI + 1 - iterI) with 1 by lia.
    rewrite (skipn_nth _ _ Hl); reflexivity. }
  rewrite Em; unfold pick at 1; cbn [mapM]; rewrite Ed; cbn [bind].
  set (testIdxs := slice allIdxs 0 iterI ++ skipn (iterI + 1) allIdxs).
  assert (Ht : forall i, In i testIdxs -> i < length data).
  { intros i Hin; apply Hb; unfold testIdxs in Hin.
    apply in_app_or in Hin; destruct Hin as [Hin|Hin];
      [apply (In_slice _ _ _ _ Hin) | apply (In_skipn _ _ _ Hin)]. }
  destruct (pick_total data testIdxs Ht) as (tp & Etp & Htp).
  rewrite Etp; cbn [bind].
  assert (Hd : incl [d] data)
    by (intros x [<-|[]]; apply (nth_error_In _ _ Ed')).
  destruct (fit_ok [d] Hd) as (t & Et); rewrite Et; cbn [bind].
  rewrite (err_ok tp t Htp); cbn [bind].
  pose proof (filterByPos_supports t testIdxs tp (pick_map _ _ _ Etp) [])
    as Hf; simpl in Hf; rewrite Hf; clear Hf.
  destruct (pick_total data (filter (supports data thresh err1 t) testIdxs))
    as (al & Eal & Hal).
  { intros i Hin; apply filter_In in Hin; apply Ht, Hin. }
  rewrite Eal; cbn [bind].
  exists [d], al; split; [reflexivity|]. split.
  { apply incl_app; assumption. }
  unfold pick in Eal; rewrite (mapM_Ok_length _ _ _ Eal).
  rewrite (Permutation_length
             (Permutation_filter _ _ _ (testIdxs_perm allIdxs _ iterI P Hi))).
  fold s; rewrite filter_filter.
  unfold acceptable; split.
  - intros Hle; exists d, t; auto.
  - intros (d' & t' & Ed2 & Et2 & Hle).
    rewrite Ed' in Ed2; inversion Ed2; subst d'.
    rewrite Et in Et2; inversion Et2; subst t'; exact Hle.
Qed.

(** The search loop finds a transform exactly when one of the samples it
    goes through is acceptable. *)
Lemma search_acceptable (allIdxs iters : list nat) :
  Permutation allIdxs (seq 0 (length data)) ->
  (forall k, In k iters -> k < length data) ->
  (exists goodFit,
      search data model thresh minMatches allIdxs iters = Ok (Some goodFit))
  \/ search data model thresh minMatches allIdxs iters = Ok None.
Proof.
  intros P; induction iters as [|k iters IH]; intros Hk; simpl; [auto|].
  destruct (trial_acceptable allIdxs k P (Hk k (or_introl eq_refl)))
    as (m & a & -> & Hin & _); cbn [bind].
  destruct (minMatches <=? length a).
  - destruct (fit_ok _ Hin) as (g & ->); left; simpl; eauto.
  - apply IH; intros k' Hk'; apply Hk; right; exact Hk'.
Qed.

Lemma search_None_iff (allIdxs iters : list nat) :
  Permutation allIdxs (seq 0 (length data)) ->
  (forall k, In k iters -> k < length data) ->
  (search data model thresh minMatches allIdxs iters = Ok None
   <-> forall k, In k iters ->
         ~ acceptable data model thresh minMatches err1 (nth k allIdxs 0)).
Proof.
  intros P; induction iters as [|k iters IH]; intros Hk; simpl.
  - split; [intros _ k [] | reflexivity].
  - destruct (trial_acceptable allIdxs k P (Hk k (or_introl eq_refl)))
      as (m & a & -> & Hin & Hacc); cbn [bind].
    assert (Hk' : forall k', In k' iters -> k' < length data)
      by (intros k' H; apply Hk; right; exact H).
    destruct (Nat.leb_spec minMatches (length a)) as [Hle|Hlt].
    + destruct (fit_ok _ Hin) as (g & ->); simpl; split; [discriminate|].
      intros Hno; exfalso; apply (Hno k (or_introl eq_refl)), Hacc, Hle.
    + rewrite (IH Hk'); split.
      * intros Hno k' [<-|Hin']; [|apply Hno, Hin'].
        intros Ha; apply Hacc in Ha; lia.
      * intros Hno k' Hin'; apply Hno; right; exact Hin'.
Qed.

(** [ransac] throws the exhaustion error exactly when no candidate is
    acceptable as the sample, and returns otherwise. *)
Lemma ransac_exhausted_iff (rand : nat -> nat) :
  (ransac data model thresh minMatches rand = Throw MatchesExhausted
   <-> forall s, s < length data ->
         ~ acceptable data model thresh minMatches err1 s)
  /\ ((exists r, ransac data model thresh minMatches rand = Ok r)
      \/ ransac data model thresh minMatches rand = Throw MatchesExhausted).
Proof.
  set (allIdxs := shuffle rand (seq 0 (length data))).
  assert (P : Permutation allIdxs (seq 0 (length data)))
    by apply shuffle_perm.
  assert (Hk : forall k, In k (seq 0 (length data)) -> k < length data)
    by (intros k Hk; apply in_seq in Hk; lia).
  pose proof (search_None_iff allIdxs _ P Hk) as Hnone.
  assert (Hall : (forall k, In k (seq 0 (length data)) ->
                     ~ acceptable data model thresh minMatches err1
                         (nth k allIdxs 0))
                 <-> forall s, s < length data ->
                       ~ acceptable data model thresh minMatches err1 s).
  { split.
    - intros H s Hs.
      assert (Hin : In s allIdxs)
        by (apply (Permutation_in _ (Permutation_sym P)), in_seq; lia).
      apply (In_nth _ _ 0) in Hin; destruct Hin as (k & Hkl & <-).
      apply H, in_seq.
      rewrite (Permutation_length P), length_seq in Hkl; lia.
    - intros H k Hin; apply H.
      assert (Hl : k < length allIdxs)
        by (rewrite (Permutation_length P), length_seq; apply Hk, Hin).
      pose proof (nth_In allIdxs 0 Hl) as Hn.
      apply (Permutation_in _ P), in_seq in Hn; lia. }
  assert (Herr : forall l t, incl l data -> exists e, getError model l t = Ok e)
    by (intros l t Hl; rewrite (err_ok l t Hl); eauto).
  assert (Hres : ransac data model thresh minMatches rand
                 = Throw MatchesExhausted
                 <-> search data model thresh minMatches allIdxs
                       (seq 0 (length data)) = Ok None).
  { rewrite ransac_unfold; fold allIdxs.
    destruct (search_acceptable allIdxs _ P Hk) as [[g ->]| ->]; cbn [bind].
    - split; [|discriminate].
      unfold refine3.
      destruct (refine_total _ _ data model thresh fit_ok Herr g)
        as ([f1 i1] & ->); cbn [bind].
      destruct (refine_total _ _ data model thresh fit_ok Herr f1)
        as ([f2 i2] & ->); cbn [bind].
      destruct (refine_total _ _ data model thresh fit_ok Herr f2)
        as ([f3 i3] & ->); cbn [bind]; discriminate.
    - split; reflexivity. }
  split.
  - rewrite Hres, Hnone, Hall; reflexivity.
  - apply (ransac_total _ _ data model thresh minMatches fit_ok Herr rand).
Qed.

End RansacDeterministic.

(** X19: whether [ransac] ends with the exhaustion error does not depend on
    the random draws: with a model that fits every selection of the
    candidates and measures them one by one, it throws the exhaustion error
    exactly when no candidate, taken as the sample, has [minMatches]
    supporters among the others; it returns when some candidate has; and
    what is thrown with one sequence of draws is thrown with every other. *)
Theorem ransac_exhaustion_deterministic {D T : Type} (data : list D)
  (model : Model D T) (thresh : number) (minMatches : nat)
  (err1 : T -> D -> number) (rand rand' : nat -> nat) :
  (forall l, incl l data -> exists t, fit model l = Ok t) ->
  pointwise data model err1 ->
  (ransac data model thresh minMatches rand = Throw MatchesExhausted
   <-> forall s, s < length data ->
         ~ acceptable data model thresh minMatches err1 s)
  /\ ((exists s, s < length data
                 /\ acceptable data model thresh minMatches err1 s)
      -> exists r, ransac data model thresh minMatches rand = Ok r)
  /\ (forall e, ransac data model thresh minMatches rand = Throw e ->
                ransac data model thresh minMatches rand' = Throw e).
Proof.
  intros fit_ok err_ok.
  destruct (ransac_exhausted_iff _ _ data model thresh minMatches err1
              fit_ok err_ok rand) as [Hiff Hcases].
  destruct (ransac_exhausted_iff _ _ data model thresh minMatches err1
              fit_ok err_ok rand') as [Hiff' _].
  split; [exact Hiff|]. split.
  - intros (s & Hs & Ha).
    destruct Hcases as [Hok|Hex]; [exact Hok|].
    exfalso; exact (proj1 Hiff Hex s Hs Ha).
  - intros e He.
    destruct Hcases as [[r Hok]|Hex]; [congruence|].
    rewrite Hex in He; inversion He; subst.
    apply Hiff', Hiff, Hex.
Qed.



Section MatchTransformPointwise.
Context {N : Nudged}.
Variables source target : list point.

(** [MatchTransform.getError] measures in-range candidates one by one. *)
Lemma MatchTransform_pointwise (data : list candidate) :
  Forall (candidateInRange source target) data ->
  pointwise data (MatchTransform source target)
    (candidateError source target).
Proof.
  intros H l t Hl; simpl; unfold MatchTransform_getError.
  apply mapM_all_Ok; intros c Hc.
  rewrite Forall_forall in H; specialize (H c (Hl c Hc)).
  unfold candidateError.
  destruct (sourcePointsOf_total source target _ H) as (sp & ->).
  destruct (targetPointsOf_total source target _ H) as (tp & ->).
  reflexivity.
Qed.

End MatchTransformPointwise.

Lemma ransac_exhaustion_deterministic_witness :
  ransac [selfMatch (0, 1, 2)] selfModel PIXEL_TOL 1 (fun i => i + 5)
  = Throw MatchesExhausted.
Proof.
  assert (Hr : Forall (candidateInRange fourPoints fourPoints)
                 [selfMatch (0, 1, 2)]).
  { repeat constructor; simpl; lia. }
  refine (proj2 (proj2 (ransac_exhaustion_deterministic
            [selfMatch (0, 1, 2)] selfModel PIXEL_TOL 1
            (@candidateError translationNudged fourPoints fourPoints)
            (fun _ => 0) (fun i => i + 5) _ _)) MatchesExhausted _).
  - intros l Hl; apply (@MatchTransform_fit_total translationNudged).
    apply Forall_forall; intros c Hc.
    rewrite Forall_forall in Hr; apply Hr, Hl, Hc.
  - apply (@MatchTransform_pointwise translationNudged), Hr.
  - vm_compute; reflexivity.
Defined.

Section ErrorsDeterministic.
Context {K : KDTree} {N : Nudged}.
Hypothesis knn_ok : knn_in_range K.
Hypothesis rnn_ok : rnn_in_range K.

(** Past [ransac], with candidates and inlier indices in range, nothing
    is thrown. *)
Lemma correspondences_Ok (s t : list point) (matches : list candidate)
  (bestT : transform) (inlierInd : list nat) :
  Forall (candidateInRange s t) matches ->
  (forall i, In i inlierInd -> i < length matches) ->
  exists r,
    (inliers <- pick matches inlierInd ;;
     inlArrUnique <- resolveInliers s t bestT (flat_map pairs_of inliers) ;;
     Ok (bestT,
         (selectAt s (map fst inlArrUnique),
          selectAt t (map snd inlArrUnique)))) = Ok r.
Proof.
  intros Hm Hb.
  destruct (pick_total matches inlierInd Hb) as (inliers & -> & Hin).
  cbn [bind].
  pose proof (resolveInliers_result s t bestT (flat_map pairs_of inliers))
    as Hres.
  destruct (resolveInliers s t bestT (flat_map pairs_of inliers))
    as [out|x]; [simpl; eauto|].
  destruct Hres as [_ Hn]; exfalso; apply Hn.
  apply Forall_forall; intros st Hst; apply in_flat_map in Hst.
  destruct Hst as (c & Hc & Hst).
  rewrite Forall_forall in Hm; specialize (Hm c (Hin c Hc)).
  unfold candidateInRange in Hm; rewrite Forall_forall in Hm; auto.
Qed.

Lemma alignControlPoints_Throw_any (s t : list point) (rand rand' : nat -> nat)
  (e : exn) :
  alignControlPoints s t rand = Throw e ->
  alignControlPoints s t rand' = Throw e.
Proof.
  unfold alignControlPoints.
  destruct (length s <? 3); [auto|].
  destruct (length t <? 3); [auto|].
  destruct (matchTriangles_in_range knn_ok rnn_ok s t) as (matches & -> & Hm).
  cbn [bind].
  destruct ((Nat.eqb (length s) 3 || Nat.eqb (length t) 3)
            && Nat.eqb (length matches) 1); [auto|].
  assert (Hfit : forall l, incl l matches ->
                   exists T, fit (MatchTransform s t) l = Ok T).
  { intros l Hl; apply MatchTransform_fit_total.
    apply Forall_forall; intros c Hc.
    rewrite Forall_forall in Hm; apply Hm, Hl, Hc. }
  pose proof (MatchTransform_pointwise s t matches Hm) as Hpw.
  destruct (ransac_exhausted_iff _ _ matches (MatchTransform s t) PIXEL_TOL
              (minMatchesOf (length matches)) (candidateError s t)
              Hfit Hpw rand) as [Hiff [[[bestT inlierInd] Hok]|Hex]].
  - rewrite Hok; cbn [bind]; intros E.
    destruct (correspondences_Ok s t matches bestT inlierInd Hm
                (ransac_Ok_in_range _ _ _ _ _ _ _ _ _ Hok)) as (r & Er).
    rewrite Er in E; discriminate.
  - rewrite Hex; cbn [bind]; intros E; inversion E; subst.
    destruct (ransac_exhausted_iff _ _ matches (MatchTransform s t) PIXEL_TOL
                (minMatchesOf (length matches)) (candidateError s t)
                Hfit Hpw rand') as [Hiff' _].
    rewrite (proj2 Hiff' (proj1 Hiff Hex)); reflexivity.
Qed.

End ErrorsDeterministic.

(** X20: whether [findTransform] fails, and with which error, does not
    depend on the random draws of [ransac], with a kd-tree that answers
    with indices of its points: what is thrown with one sequence of draws
    is thrown with every other; the draws decide at most which transform
    and which correspondences are returned. *)
Theorem findTransform_errors_deterministic {K : KDTree} {N : Nudged}
  (source target : input) (mcp : nat) (rand rand' : nat -> nat) (e : exn) :
  knn_in_range K -> rnn_in_range K ->
  (findTransform source target mcp rand = Throw e <->
   findTransform source target mcp rand' = Throw e).
Proof.
  intros knn_ok rnn_ok.
  assert (G : forall r1 r2,
             findTransform source target mcp r1 = Throw e ->
             findTransform source target mcp r2 = Throw e).
  { intros r1 r2; unfold findTransform.
    destruct (controlPoints Source source mcp) as [s|x]; [|auto].
    destruct (controlPoints Target target mcp) as [t|x]; [|auto].
    cbn [bind]; apply (alignControlPoints_Throw_any knn_ok rnn_ok). }
  split; apply G.
Qed.


Lemma findTransform_errors_deterministic_witness :
  @findTransform bruteKDTree translationNudged
    (CoordinateList srcFour) (CoordinateList tgtFour) 50 (fun _ => 0)
  = Throw MatchesExhausted
  <-> @findTransform bruteKDTree translationNudged
        (CoordinateList srcFour) (CoordinateList tgtFour) 50 (fun i => i + 3)
      = Throw MatchesExhausted.
Proof.
  apply (@findTransform_errors_deterministic bruteKDTree translationNudged);
    [apply bruteKDTree_in_range | apply bruteKDTree_rnn_in_range].
Defined.
